(** * AudioSystem.js: a shallow embedding and its verified properties

    The development follows [src/audiosystem.js].  The class [AudioSystem]
    keeps its whole state in private static fields; they become the record
    [AudioSystem] below.  JavaScript objects that are shared by reference
    (sound records, sound instances, Web Audio nodes, promises) live in
    heaps indexed by references, so that the aliasing between the per-sound
    instance list, the global instance list and the [onended] closures is
    the one of the source.

    Conventions of the model:
    - a JavaScript number is a rational ([Q]); [NaN] and the infinities are
      outside the model.  The product of line 193 and 196 is rounded as a
      double ([jsMul]), the target of a ramp as the single-precision value
      that the platform stores ([toFloat32]).  [maxSources] is an integer
      ([Z]);
    - a function that can throw returns a [Completion]; the modified world
      is returned in both cases, as a JavaScript exception does not undo
      the assignments made before it;
    - the Web Audio platform is a store of gain and source nodes.  Its
      error conditions that the calls of the class can meet are present:
      an exponential ramp cannot target zero, [start] refuses a negative
      offset, [stop] refuses a source that was never started.  The clock
      of a context is never negative, so the range errors for negative
      times are not among them;
    - the value of a gain parameter with scheduled events moves with the
      clock; the action [AAutomation] gives it any new value, so that what
      line 259 reads is the current value and not the one last assigned;
    - the platform delivers the [ended] event of a source by the action
      [AEnded]; the action says what the caller's [endedCallback] does
      when it is run: the calls it makes on the class and whether it
      throws ([CallbackRun]).  The caller does not assign to the fields of
      an instance object.  The settlement of a pending load is [ASettle];
    - the listeners of [visibilitychange] and of the user gestures (lines
      28-69) read and set [#acResuming] only, which no operation of the
      class reads; they are not among the actions of [run].  They are
      events of the page ([Page], [pageStep]), which also keeps the order
      of the keys of [#sounds] for [getSoundNames]. *)

From Stdlib Require Import ZArith QArith Qabs Lia Ascii String.
From stdpp Require Import base option list sorting gmap strings.

Local Open Scope string_scope.
Local Open Scope list_scope.

(** ** Values *)

Abbreviation Ref := nat.

(** A caller-supplied tag: a string or an object, compared with [===]. *)
Inductive Tag :=
| TagString (s : string)
| TagObject (r : Ref).

#[global] Instance Tag_eq_dec : EqDecision Tag.
Proof. solve_decision. Defined.

Inductive JsError :=
| Error (message : string)
| TypeError (message : string)
| RangeError (message : string)
| InvalidStateError (message : string).

Inductive Completion (A : Type) :=
| Normal (a : A)
| Throw (e : JsError).
Arguments Normal {A} a.
Arguments Throw {A} e.

(** A decoded audio buffer. *)
Record AudioBuffer := mkAudioBuffer { bufferId : nat; duration : Q }.

(** An audio context: the one made by [new AudioContext()] or one handed
    to [createAudioContext]. *)
Inductive AudioContext :=
| NewAudioContext
| GivenAudioContext (id : nat).

(** Nodes a node can be connected to. *)
Inductive NodeId :=
| Destination (ctx : AudioContext)
| ExternalNode (id : nat)
| GainOf (g : Ref).

#[global] Instance AudioContext_eq_dec : EqDecision AudioContext.
Proof. solve_decision. Defined.

#[global] Instance NodeId_eq_dec : EqDecision NodeId.
Proof. solve_decision. Defined.

Definition destination (ctx : AudioContext) : NodeId := Destination ctx.

(** ** Objects of the program *)

(** [{ source, gain, tag, stopping, startTime }], line 211. *)
Record Instance := mkInstance {
  source : Ref;
  gain : Ref;
  tag : option Tag;
  stopping : bool;
  startTime : Q
}.

(** The value stored in [#sounds], lines 145-150. *)
Record Sound := mkSound {
  buffer : AudioBuffer;
  maxSources : Z;
  baseVolume : Q;
  instances : list Ref
}.

(** The argument of [asyncLoadSounds] maps a name to such a record. *)
Record SoundInfo := mkSoundInfo {
  path : string;
  info_maxSources : Z;
  info_baseVolume : Q
}.

(** The closure assigned to [source.onended] (lines 216-232) with the
    variables it captures. *)
Record EndedHandler := mkEndedHandler {
  h_endedCallback : option nat;
  h_instance : Ref;
  h_gain : Ref;
  h_sound : Ref
}.

(** ** The platform's nodes *)

Inductive ParamEvent :=
| SetValueAtTime (v t : Q)
| ExponentialRampToValueAtTime (v t : Q).

Record GainNode := mkGainNode {
  g_value : Q;
  g_events : list ParamEvent;
  g_outputs : list NodeId
}.

Record SourceNode := mkSourceNode {
  s_buffer : option AudioBuffer;
  s_loop : bool;
  s_loopStart : Q;
  s_loopEnd : Q;
  s_outputs : list NodeId;
  s_onended : option EndedHandler;
  s_started : option (Q * Q);
  s_stopCalls : list (option Q);
  s_ended : bool
}.

(** ** Loading: promises *)

Inductive PromiseState :=
| Pending (remaining : nat)
| Fulfilled
| Rejected (e : JsError).

(** What the platform answers to one [fetch(...).then(...)] chain. *)
Inductive LoadOutcome :=
| FetchRejected (error : string)
| ResponseNotOk (statusText : string)
| ArrayBufferRejected (error : string)
| DecodeRejected (error : string)
| Decoded (b : AudioBuffer).

Record SubLoad := mkSubLoad {
  l_promise : Ref;
  l_name : string;
  l_info : SoundInfo;
  l_url : string;
  l_settled : bool
}.

(** ** The static fields of the class, lines 10-26 *)

Record AudioSystem := mkAudioSystem {
  ac : option AudioContext;
  acResuming : option bool;
  masterGain : option Ref;
  gainConnected : option bool;
  destinationNode : option NodeId;
  volume : Q;
  sounds : gmap string Ref;
  soundInstances : list Ref
}.

Record World := mkWorld {
  sys : AudioSystem;
  soundObjs : list Sound;
  instObjs : list Instance;
  gainNodes : list GainNode;
  sourceNodes : list SourceNode;
  currentTime : Q;
  promises : list PromiseState;
  subLoads : list SubLoad;
  callbackLog : list (nat * Ref);
  firedLog : list Ref
}.

Definition soundDirectory : string := "./sounds".
Definition preventCaching : bool := false.

Definition initialSystem : AudioSystem :=
  mkAudioSystem None None None None None 1 ∅ [].

Definition initialWorld : World :=
  mkWorld initialSystem [] [] [] [] 0 [] [] [] [].

(** *** Field updates *)

Definition with_sys (f : AudioSystem -> AudioSystem) (w : World) : World :=
  match w with
  | mkWorld x0 x1 x2 x3 x4 x5 x6 x7 x8 x9 =>
    mkWorld (f x0) x1 x2 x3 x4 x5 x6 x7 x8 x9
  end.

Definition with_soundObjs (f : list Sound -> list Sound) (w : World) : World :=
  match w with
  | mkWorld x0 x1 x2 x3 x4 x5 x6 x7 x8 x9 =>
    mkWorld x0 (f x1) x2 x3 x4 x5 x6 x7 x8 x9
  end.

Definition with_instObjs (f : list Instance -> list Instance) (w : World) : World :=
  match w with
  | mkWorld x0 x1 x2 x3 x4 x5 x6 x7 x8 x9 =>
    mkWorld x0 x1 (f x2) x3 x4 x5 x6 x7 x8 x9
  end.

Definition with_gainNodes (f : list GainNode -> list GainNode) (w : World) : World :=
  match w with
  | mkWorld x0 x1 x2 x3 x4 x5 x6 x7 x8 x9 =>
    mkWorld x0 x1 x2 (f x3) x4 x5 x6 x7 x8 x9
  end.

Definition with_sourceNodes (f : list SourceNode -> list SourceNode) (w : World) : World :=
  match w with
  | mkWorld x0 x1 x2 x3 x4 x5 x6 x7 x8 x9 =>
    mkWorld x0 x1 x2 x3 (f x4) x5 x6 x7 x8 x9
  end.

Definition with_currentTime (f : Q -> Q) (w : World) : World :=
  match w with
  | mkWorld x0 x1 x2 x3 x4 x5 x6 x7 x8 x9 =>
    mkWorld x0 x1 x2 x3 x4 (f x5) x6 x7 x8 x9
  end.

Definition with_promises (f : list PromiseState -> list PromiseState) (w : World) : World :=
  match w with
  | mkWorld x0 x1 x2 x3 x4 x5 x6 x7 x8 x9 =>
    mkWorld x0 x1 x2 x3 x4 x5 (f x6) x7 x8 x9
  end.

Definition with_subLoads (f : list SubLoad -> list SubLoad) (w : World) : World :=
  match w with
  | mkWorld x0 x1 x2 x3 x4 x5 x6 x7 x8 x9 =>
    mkWorld x0 x1 x2 x3 x4 x5 x6 (f x7) x8 x9
  end.

Definition with_callbackLog (f : list (nat * Ref) -> list (nat * Ref)) (w : World) : World :=
  match w with
  | mkWorld x0 x1 x2 x3 x4 x5 x6 x7 x8 x9 =>
    mkWorld x0 x1 x2 x3 x4 x5 x6 x7 (f x8) x9
  end.

Definition with_firedLog (f : list Ref -> list Ref) (w : World) : World :=
  match w with
  | mkWorld x0 x1 x2 x3 x4 x5 x6 x7 x8 x9 =>
    mkWorld x0 x1 x2 x3 x4 x5 x6 x7 x8 (f x9)
  end.

Definition set_ac (v : option AudioContext) (s : AudioSystem) : AudioSystem :=
  match s with
  | mkAudioSystem _ x1 x2 x3 x4 x5 x6 x7 =>
    mkAudioSystem v x1 x2 x3 x4 x5 x6 x7
  end.

Definition set_acResuming (v : option bool) (s : AudioSystem) : AudioSystem :=
  match s with
  | mkAudioSystem x0 _ x2 x3 x4 x5 x6 x7 =>
    mkAudioSystem x0 v x2 x3 x4 x5 x6 x7
  end.

Definition set_masterGain (v : option Ref) (s : AudioSystem) : AudioSystem :=
  match s with
  | mkAudioSystem x0 x1 _ x3 x4 x5 x6 x7 =>
    mkAudioSystem x0 x1 v x3 x4 x5 x6 x7
  end.

Definition set_gainConnected (v : option bool) (s : AudioSystem) : AudioSystem :=
  match s with
  | mkAudioSystem x0 x1 x2 _ x4 x5 x6 x7 =>
    mkAudioSystem x0 x1 x2 v x4 x5 x6 x7
  end.

Definition set_destinationNode (v : option NodeId) (s : AudioSystem) : AudioSystem :=
  match s with
  | mkAudioSystem x0 x1 x2 x3 _ x5 x6 x7 =>
    mkAudioSystem x0 x1 x2 x3 v x5 x6 x7
  end.

Definition set_volume (v : Q) (s : AudioSystem) : AudioSystem :=
  match s with
  | mkAudioSystem x0 x1 x2 x3 x4 _ x6 x7 =>
    mkAudioSystem x0 x1 x2 x3 x4 v x6 x7
  end.

Definition set_sounds (v : gmap string Ref) (s : AudioSystem) : AudioSystem :=
  match s with
  | mkAudioSystem x0 x1 x2 x3 x4 x5 _ x7 =>
    mkAudioSystem x0 x1 x2 x3 x4 x5 v x7
  end.

Definition set_soundInstances (v : list Ref) (s : AudioSystem) : AudioSystem :=
  match s with
  | mkAudioSystem x0 x1 x2 x3 x4 x5 x6 _ =>
    mkAudioSystem x0 x1 x2 x3 x4 x5 x6 v
  end.

(** ** The monad of JavaScript computations *)

Definition JS (A : Type) : Type := World -> Completion A * World.

#[global] Instance JS_ret : MRet JS := fun A a w => (Normal a, w).

#[global] Instance JS_throw : MThrow JsError JS := fun A e w => (Throw e, w).

#[global] Instance JS_bind : MBind JS := fun A B k m w =>
  match m w with
  | (Normal a, w') => k a w'
  | (Throw e, w') => (Throw e, w')
  end.

Definition modify (f : World -> World) : JS unit := fun w => (Normal tt, f w).

(** Dereferencing: in JavaScript a reference always designates an object;
    a dangling reference of the model is reported as a [TypeError]. *)
Definition deref {A} (heap : World -> list A) (r : Ref) : JS A :=
  fun w => match heap w !! r with
           | Some x => (Normal x, w)
           | None => (Throw (TypeError "dangling reference"), w)
           end.

(** ** Numbers *)

Definition Qleb (a b : Q) : bool := Qle_bool a b.
Definition Qgtb (a b : Q) : bool := negb (Qle_bool a b).

(** The floor value [1e-4] of the fades. *)
Definition floorValue : Q := 1 # 10000.

(** [2^k] for an integer [k]. *)
Definition pow2 (k : Z) : Q :=
  if (0 <=? k)%Z then inject_Z (2 ^ k) else (1 / inject_Z (2 ^ (- k)))%Q.

(** The exponent of a positive rational [a / d]: the largest [e] with
    [2^e <= a / d]. *)
Definition exponentOf (a : Q) : Z :=
  let e := (Z.log2 (Qnum a) - Z.log2 (Zpos (Qden a)))%Z in
  if Qle_bool (pow2 e) a then e else (e - 1)%Z.

(** The integer nearest to a rational that is not negative, the even one
    of two that are equally near. *)
Definition roundEven (x : Q) : Z :=
  let q := (Qnum x / Zpos (Qden x))%Z in
  let r := (Qnum x mod Zpos (Qden x))%Z in
  match (2 * r ?= Zpos (Qden x))%Z with
  | Lt => q
  | Gt => (q + 1)%Z
  | Eq => if Z.even q then q else (q + 1)%Z
  end.

(** Rounding to the nearest number of a binary floating-point format with
    [prec] significant bits whose smallest positive number is [2^emin];
    ties go to the even significand, small numbers are subnormal or zero.
    The format's largest number is not modelled: there are no infinities
    here. *)
Definition roundTo (prec emin : Z) (x : Q) : Q :=
  if Qeq_bool x 0 then 0
  else
    let a := Qabs x in
    let ex := Z.max (exponentOf a - (prec - 1)) emin in
    let r := (inject_Z (roundEven (a / pow2 ex)) * pow2 ex)%Q in
    Qred (if Qle_bool 0 x then r else (- r)%Q).

(** A JavaScript number is a double. *)
Definition toDouble (x : Q) : Q := roundTo 53 (-1074) x.

(** The value of an audio parameter is a single-precision number. *)
Definition toFloat32 (x : Q) : Q := roundTo 24 (-149) x.

(** [a * b] *)
Definition jsMul (a b : Q) : Q := toDouble (a * b)%Q.

(** JavaScript truthiness of a field that holds [null] or a boolean. *)
Definition truthy (b : option bool) : bool :=
  match b with Some true => true | _ => false end.

(** ** Platform primitives *)

(** [ac.createGain()]: a gain of 1, connected to nothing. *)
Definition createGain : JS Ref :=
  fun w => (Normal (length (gainNodes w)),
            with_gainNodes (fun l => l ++ [mkGainNode 1 [] []]) w).

Definition update_gain (g : Ref) (f : GainNode -> GainNode) : JS unit :=
  n ← deref gainNodes g;
  modify (with_gainNodes (fun l => <[g := f n]> l)).

(** [g.gain.value = v] *)
Definition gain_set_value (g : Ref) (v : Q) : JS unit :=
  update_gain g (fun n => mkGainNode v (g_events n) (g_outputs n)).

(** [g.gain.value] *)
Definition gain_get_value (g : Ref) : JS Q :=
  n ← deref gainNodes g; mret (g_value n).

(** [g.gain.setValueAtTime(v, t)] *)
Definition gain_setValueAtTime (g : Ref) (v t : Q) : JS unit :=
  update_gain g (fun n =>
    mkGainNode (g_value n) (g_events n ++ [SetValueAtTime v t]) (g_outputs n)).

(** Modelled from the spec: the platform's exponential ramp, which is not
    part of the repository; section 6 of the specification says that
    exponential ramps cannot target zero, the platform raises a range
    error for such a target.  The platform takes the target as a
    single-precision number, and it is that number which must not be zero.

    [g.gain.exponentialRampToValueAtTime(v, t)] *)
Definition gain_exponentialRampToValueAtTime (g : Ref) (v t : Q) : JS unit :=
  if Qeq_bool (toFloat32 v) 0
  then mthrow (RangeError "The target value of an exponential ramp cannot be 0")
  else update_gain g (fun n =>
    mkGainNode (g_value n) (g_events n ++ [ExponentialRampToValueAtTime v t])
      (g_outputs n)).

(** [g.connect(d)]; connecting twice to the same node has no effect. *)
Definition connect_outputs (d : NodeId) (outs : list NodeId) : list NodeId :=
  if bool_decide (d ∈ outs) then outs else outs ++ [d].

Definition gain_connect (g : Ref) (d : NodeId) : JS unit :=
  update_gain g (fun n =>
    mkGainNode (g_value n) (g_events n) (connect_outputs d (g_outputs n))).

(** [g.disconnect()] *)
Definition gain_disconnect (g : Ref) : JS unit :=
  update_gain g (fun n => mkGainNode (g_value n) (g_events n) []).

(** *** Source nodes *)

Definition set_s_buffer (b : option AudioBuffer) (n : SourceNode) : SourceNode :=
  mkSourceNode b (s_loop n) (s_loopStart n) (s_loopEnd n) (s_outputs n)
    (s_onended n) (s_started n) (s_stopCalls n) (s_ended n).

Definition set_s_loop (b : bool) (n : SourceNode) : SourceNode :=
  mkSourceNode (s_buffer n) b (s_loopStart n) (s_loopEnd n) (s_outputs n)
    (s_onended n) (s_started n) (s_stopCalls n) (s_ended n).

Definition set_s_loopStart (t : Q) (n : SourceNode) : SourceNode :=
  mkSourceNode (s_buffer n) (s_loop n) t (s_loopEnd n) (s_outputs n)
    (s_onended n) (s_started n) (s_stopCalls n) (s_ended n).

Definition set_s_loopEnd (t : Q) (n : SourceNode) : SourceNode :=
  mkSourceNode (s_buffer n) (s_loop n) (s_loopStart n) t (s_outputs n)
    (s_onended n) (s_started n) (s_stopCalls n) (s_ended n).

Definition set_s_outputs (o : list NodeId) (n : SourceNode) : SourceNode :=
  mkSourceNode (s_buffer n) (s_loop n) (s_loopStart n) (s_loopEnd n) o
    (s_onended n) (s_started n) (s_stopCalls n) (s_ended n).

Definition set_s_onended (h : option EndedHandler) (n : SourceNode) : SourceNode :=
  mkSourceNode (s_buffer n) (s_loop n) (s_loopStart n) (s_loopEnd n) (s_outputs n)
    h (s_started n) (s_stopCalls n) (s_ended n).

Definition set_s_started (t : option (Q * Q)) (n : SourceNode) : SourceNode :=
  mkSourceNode (s_buffer n) (s_loop n) (s_loopStart n) (s_loopEnd n) (s_outputs n)
    (s_onended n) t (s_stopCalls n) (s_ended n).

Definition set_s_stopCalls (c : list (option Q)) (n : SourceNode) : SourceNode :=
  mkSourceNode (s_buffer n) (s_loop n) (s_loopStart n) (s_loopEnd n) (s_outputs n)
    (s_onended n) (s_started n) c (s_ended n).

Definition set_s_ended (b : bool) (n : SourceNode) : SourceNode :=
  mkSourceNode (s_buffer n) (s_loop n) (s_loopStart n) (s_loopEnd n) (s_outputs n)
    (s_onended n) (s_started n) (s_stopCalls n) b.

(** [ac.createBufferSource()] *)
Definition createBufferSource : JS Ref :=
  fun w => (Normal (length (sourceNodes w)),
            with_sourceNodes
              (fun l => l ++ [mkSourceNode None false 0 0 [] None None [] false]) w).

Definition update_source (s : Ref) (f : SourceNode -> SourceNode) : JS unit :=
  n ← deref sourceNodes s;
  modify (with_sourceNodes (fun l => <[s := f n]> l)).

(** [s.connect(d)] *)
Definition source_connect (s : Ref) (d : NodeId) : JS unit :=
  update_source s (fun n => set_s_outputs (connect_outputs d (s_outputs n)) n).

(** Modelled from the spec: the platform's [start], which is not part of
    the repository and which section 6 of the specification takes with the
    platform's standard semantics: a negative offset is refused with a
    range error, and the source is then not started.

    [s.start(when, offset)] *)
Definition source_start (s : Ref) (when offset : Q) : JS unit :=
  if Qleb 0 offset
  then update_source s (set_s_started (Some (when, offset)))
  else mthrow (RangeError "The offset provided is less than the minimum bound").

(** Modelled from the spec: the platform's [stop], which is not part of
    the repository and which section 6 of the specification takes with the
    platform's standard semantics: a source that was never started refuses
    the call with an [InvalidStateError].

    [s.stop()] is [source_stop s None], [s.stop(t)] is
    [source_stop s (Some t)]; the calls are recorded in order. *)
Definition source_stop (s : Ref) (when : option Q) : JS unit :=
  n ← deref sourceNodes s;
  if bool_decide (s_started n = None)
  then mthrow (InvalidStateError "cannot call stop without calling start first")
  else update_source s (fun n => set_s_stopCalls (s_stopCalls n ++ [when]) n).

(** ** The class [AudioSystem] *)

Definition gets {A} (f : World -> A) : JS A := fun w => (Normal (f w), w).

(** Lines 71-77. *)
Definition getAudioContext : JS AudioContext :=
  a ← gets (fun w => ac (sys w));
  match a with
  | None => mthrow (Error "Call .createAudioContext first")
  | Some a => mret a
  end.

(** Lines 100-114. *)
Definition setGlobalVolume (volume : Q) : JS unit :=
  modify (with_sys (set_volume volume));;
  getAudioContext;;
  g ← gets (fun w => masterGain (sys w));
  match g with
  | None => mthrow (TypeError "Cannot read properties of null (reading 'gain')")
  | Some g =>
    gain_set_value g volume;;
    connected ← gets (fun w => gainConnected (sys w));
    if Qleb volume 0 && truthy connected then
      gain_disconnect g;;
      modify (with_sys (set_gainConnected (Some false)))
    else if Qgtb volume 0 && negb (truthy connected) then
      d ← gets (fun w => destinationNode (sys w));
      match d with
      | None => mthrow (TypeError "Failed to execute 'connect' on 'AudioNode'")
      | Some d =>
        gain_connect g d;;
        modify (with_sys (set_gainConnected (Some true)))
      end
    else mret tt
  end.

(** Lines 79-94. *)
Definition createAudioContext (audioContext : option AudioContext)
    (destNode : option NodeId) : JS unit :=
  a ← gets (fun w => ac (sys w));
  if bool_decide (a ≠ None) then mthrow (Error "AudioContext already created")
  else
    let a := match audioContext with None => NewAudioContext | Some a => a end in
    modify (with_sys (set_ac (Some a)));;
    modify (with_sys (set_acResuming (Some false)));;
    modify (with_sys (set_destinationNode
      (Some (match destNode with None => destination a | Some d => d end))));;
    g ← createGain;
    modify (with_sys (set_masterGain (Some g)));;
    modify (with_sys (set_gainConnected (Some false)));;
    v ← gets (fun w => volume (sys w));
    setGlobalVolume v.

(** *** Loading, lines 128-156 *)

Definition dquote : string := String "034"%char EmptyString.

(** [String(error)] for an [Error] object. *)
Definition errorToString (e : JsError) : string :=
  let (name, message) :=
    match e with
    | Error m => ("Error", m)
    | TypeError m => ("TypeError", m)
    | RangeError m => ("RangeError", m)
    | InvalidStateError m => ("InvalidStateError", m)
    end in
  if bool_decide (message = "") then name else name +:+ ": " +:+ message.

(** Line 133; [now] is the text of [new Date().getTime()]. *)
Definition url_of (now : string) (info : SoundInfo) : string :=
  soundDirectory +:+ "/" +:+ path info +:+
  (if preventCaching then "?time=" +:+ now else "").

(** [Promise.all] of the sub-loads, one per key of [sounds]. *)
Definition asyncLoadSounds (sounds : list (string * SoundInfo)) (now : string)
    : JS Ref :=
  getAudioContext;;
  p ← gets (fun w => length (promises w));
  modify (with_promises (fun l =>
    l ++ [match sounds with [] => Fulfilled | _ => Pending (length sounds) end]));;
  modify (with_subLoads (fun l =>
    l ++ map (fun ni => mkSubLoad p ni.1 ni.2 (url_of now ni.2) false) sounds));;
  mret p.

(** The [fetch(url).then(...).then(...)] part of a chain, lines 135-143:
    either the decoded buffer or the text of the error that reaches
    [.catch]. *)
Definition fetch_and_decode (o : LoadOutcome) : string + AudioBuffer :=
  match o with
  | FetchRejected e => inl e
  | ResponseNotOk statusText => inl (errorToString (Error statusText))
  | ArrayBufferRejected e => inl e
  | DecodeRejected e => inl e
  | Decoded b => inr b
  end.

(** Line 153. *)
Definition loadError (url error : string) : JsError :=
  Error ("Error loading sound file " +:+ dquote +:+ url +:+ dquote +:+ ", " +:+ error).

(** One element of [Promise.all] fulfils. *)
Definition promise_fulfil_one (p : Ref) : JS unit :=
  st ← deref promises p;
  match st with
  | Pending (S (S n)) => modify (with_promises (fun l => <[p := Pending (S n)]> l))
  | Pending _ => modify (with_promises (fun l => <[p := Fulfilled]> l))
  | _ => mret tt
  end.

(** One element of [Promise.all] rejects: the first rejection settles it. *)
Definition promise_reject (p : Ref) (e : JsError) : JS unit :=
  st ← deref promises p;
  match st with
  | Pending _ => modify (with_promises (fun l => <[p := Rejected e]> l))
  | _ => mret tt
  end.

(** The platform settles the [k]-th chain with outcome [o]; lines 144-154. *)
Definition settle (k : Ref) (o : LoadOutcome) : JS unit :=
  l ← deref subLoads k;
  if l_settled l then mret tt
  else
    modify (with_subLoads (fun ls =>
      <[k := mkSubLoad (l_promise l) (l_name l) (l_info l) (l_url l) true]> ls));;
    match fetch_and_decode o with
    | inr b =>
      sr ← gets (fun w => length (soundObjs w));
      modify (with_soundObjs (fun objs =>
        objs ++ [mkSound b (info_maxSources (l_info l)) (info_baseVolume (l_info l)) []]));;
      modify (with_sys (fun s => set_sounds (<[l_name l := sr]> (sounds s)) s));;
      promise_fulfil_one (l_promise l)
    | inl error =>
      promise_reject (l_promise l) (loadError (l_url l) error)
    end.

(** *** Playing, lines 170-237 *)

Definition soundDoesNotExist (soundName : string) : JsError :=
  Error ("Sound " +:+ dquote +:+ soundName +:+ dquote +:+ " does not exist").

Definition update_sound (r : Ref) (f : Sound -> Sound) : JS unit :=
  s ← deref soundObjs r;
  modify (with_soundObjs (fun l => <[r := f s]> l)).

Definition set_instances (l : list Ref) (s : Sound) : Sound :=
  mkSound (buffer s) (maxSources s) (baseVolume s) l.

Definition set_stopping (b : bool) (i : Instance) : Instance :=
  mkInstance (source i) (gain i) (tag i) b (startTime i).

(** [l.indexOf(x)], [-1] when [x] is absent. *)
Fixpoint indexOf (x : Ref) (l : list Ref) : Z :=
  match l with
  | [] => -1
  | y :: l' =>
    if bool_decide (y = x) then 0
    else let k := indexOf x l' in if (k >? (-1))%Z then k + 1 else -1
  end%Z.

(** [l.splice(k, 1)] for [k > -1]. *)
Definition splice1 (k : Z) (l : list Ref) : list Ref := delete (Z.to_nat k) l.

(** What one run of the caller's [endedCallback] does: the calls it makes
    on the class, in order, and whether it ends by throwing. *)
Inductive Call :=
| CallCreateAudioContext (audioContext : option AudioContext) (destNode : option NodeId)
| CallSetGlobalVolume (volume : Q)
| CallLoadSounds (sounds : list (string * SoundInfo)) (now : string)
| CallPlay (soundName : string) (volume : Q) (loop : bool) (tag : option Tag)
    (offset fadeInSeconds : Q) (stopOldestIfMax : bool) (endedCallback : option nat)
| CallStop (tag : option Tag) (fadeOutSeconds : Q).

Record CallbackRun := mkCallbackRun {
  cr_calls : list Call;
  cr_throws : option JsError
}.


(** Line 185: [sound.instances[0].source.stop()]. *)
Definition stopOldest (sr : Ref) : JS unit :=
  sound ← deref soundObjs sr;
  match instances sound !! 0%nat with
  | None => mthrow (TypeError "Cannot read properties of undefined (reading 'source')")
  | Some i =>
    inst ← deref instObjs i;
    source_stop (source inst) None
  end.

(** Lines 191-236, for the sound object [sr]. *)
Definition startInstance (sr : Ref) (volume : Q) (loop : bool) (tag : option Tag)
    (offset fadeInSeconds : Q) (endedCallback : option nat) : JS (option Ref) :=
  sound ← deref soundObjs sr;
  g ← createGain;
  (if Qleb fadeInSeconds 0 then
     gain_set_value g (jsMul (baseVolume sound) volume)
   else
     now ← gets currentTime;
     gain_setValueAtTime g floorValue now;;
     now ← gets currentTime;
     gain_exponentialRampToValueAtTime g (jsMul (baseVolume sound) volume)
       (now + fadeInSeconds));;
  m ← gets (fun w => masterGain (sys w));
  match m with
  | None => mthrow (TypeError "Failed to execute 'connect' on 'AudioNode'")
  | Some m => gain_connect g (GainOf m)
  end;;
  s ← createBufferSource;
  update_source s (set_s_buffer (Some (buffer sound)));;
  (if loop then
     update_source s (set_s_loop true);;
     if Qgtb offset 0 then
       update_source s (set_s_loopStart offset);;
       update_source s (set_s_loopEnd (duration (buffer sound)))
     else mret tt
   else mret tt);;
  source_connect s (GainOf g);;
  now ← gets currentTime;
  instance ← gets (fun w => length (instObjs w));
  modify (with_instObjs (fun l => l ++ [mkInstance s g tag false now]));;
  update_sound sr (fun snd => set_instances (instances snd ++ [instance]) snd);;
  modify (with_sys (fun st => set_soundInstances (soundInstances st ++ [instance]) st));;
  update_source s (set_s_onended (Some (mkEndedHandler endedCallback instance g sr)));;
  source_start s now offset;;
  mret (Some instance).

Definition play (soundName : string) (volume : Q) (loop : bool) (tag : option Tag)
    (offset fadeInSeconds : Q) (stopOldestIfMax : bool)
    (endedCallback : option nat) : JS (option Ref) :=
  getAudioContext;;
  table ← gets (fun w => sounds (sys w));
  match table !! soundName with
  | None => mthrow (soundDoesNotExist soundName)
  | Some sr =>
    sound ← deref soundObjs sr;
    if (maxSources sound <=? 0)%Z then mret None
    else if (Z.of_nat (length (instances sound)) >=? maxSources sound)%Z then
      if stopOldestIfMax then
        stopOldest sr;;
        startInstance sr volume loop tag offset fadeInSeconds endedCallback
      else mret None
    else startInstance sr volume loop tag offset fadeInSeconds endedCallback
  end.

(** *** Stopping, lines 244-268 *)

(** Line 250: [instance.stopping || tag !== null && instance.tag !== tag]. *)
Definition skipped (filter : option Tag) (instance : Instance) : bool :=
  stopping instance
  || bool_decide (filter ≠ None) && bool_decide (tag instance ≠ filter).

(** The body of the loop for the instance at index [i]. *)
Definition stop_at (tag : option Tag) (fadeOutSeconds : Q) (i : nat) : JS unit :=
  all ← gets (fun w => soundInstances (sys w));
  match all !! i with
  | None => mthrow (TypeError "Cannot read properties of undefined (reading 'stopping')")
  | Some r =>
    instance ← deref instObjs r;
    if skipped tag instance then mret tt
    else
      modify (with_instObjs (fun l => <[r := set_stopping true instance]> l));;
      if Qleb fadeOutSeconds 0 then
        source_stop (source instance) None
      else
        v ← gain_get_value (gain instance);
        now ← gets currentTime;
        gain_setValueAtTime (gain instance) v now;;
        now ← gets currentTime;
        gain_exponentialRampToValueAtTime (gain instance) floorValue
          (now + fadeOutSeconds);;
        now ← gets currentTime;
        source_stop (source instance) (Some (now + fadeOutSeconds)%Q)
  end.

(** [for (let i = k - 1; i > -1; i--)] *)
Fixpoint stop_loop (tag : option Tag) (fadeOutSeconds : Q) (k : nat) : JS unit :=
  match k with
  | O => mret tt
  | S i => stop_at tag fadeOutSeconds i;; stop_loop tag fadeOutSeconds i
  end.

Definition stop (tag : option Tag) (fadeOutSeconds : Q) : JS unit :=
  getAudioContext;;
  n ← gets (fun w => length (soundInstances (sys w)));
  stop_loop tag fadeOutSeconds n.

(** Lines 266-268; [w] is read only. *)
Definition isTagPlaying (t : option Tag) (w : World) : bool :=
  existsb (fun r =>
    match instObjs w !! r with
    | Some instance => negb (stopping instance) && bool_decide (tag instance = t)
    | None => false
    end) (soundInstances (sys w)).

(** Lines 274-280. *)
Definition getSoundBuffer (soundName : string) : JS AudioBuffer :=
  table ← gets (fun w => sounds (sys w));
  match table !! soundName with
  | None => mthrow (soundDoesNotExist soundName)
  | Some sr => sound ← deref soundObjs sr; mret (buffer sound)
  end.

(** ** The platform's events *)

(** The last [stop] call decides when the source stops. *)
Definition stopDue (now : Q) (n : SourceNode) : bool :=
  match last (s_stopCalls n) with
  | Some None => true
  | Some (Some t) => Qleb t now
  | None => false
  end.

(** A started source that has not ended can end: by itself when it does
    not loop, or because a requested stop is due. *)
Definition canEnd (now : Q) (n : SourceNode) : bool :=
  bool_decide (s_started n ≠ None) && negb (s_ended n)
  && (negb (s_loop n) || stopDue now n).

(** One call of a callback on the class; what it returns or throws stays
    with the callback, the world goes on. *)
Definition call (c : Call) (w : World) : World :=
  match c with
  | CallCreateAudioContext a d => (createAudioContext a d w).2
  | CallSetGlobalVolume v => (setGlobalVolume v w).2
  | CallLoadSounds l now => (asyncLoadSounds l now w).2
  | CallPlay n v lp tg off fi so cb => (play n v lp tg off fi so cb w).2
  | CallStop tg fo => (stop tg fo w).2
  end.

(** [endedCallback(instance)], line 218, for a callback that behaves as
    [cb] says. *)
Definition callEndedCallback (cb : CallbackRun) : JS unit :=
  modify (fun w => foldl (fun w c => call c w) w (cr_calls cb));;
  match cr_throws cb with
  | Some e => mthrow e
  | None => mret tt
  end.

(** The handler assigned to [source.onended], lines 216-232.  The first
    line records the run in [firedLog], which the program does not have;
    the caller's callback is recorded in [callbackLog] and does what [cb]
    says. *)
Definition onended (h : EndedHandler) (cb : CallbackRun) : JS unit :=
  modify (with_firedLog (fun l => l ++ [h_instance h]));;
  match h_endedCallback h with
  | Some c =>
    modify (with_callbackLog (fun l => l ++ [(c, h_instance h)]));;
    callEndedCallback cb
  | None => mret tt
  end;;
  gain_disconnect (h_gain h);;
  sound ← deref soundObjs (h_sound h);
  let si := indexOf (h_instance h) (instances sound) in
  (if (si >? (-1))%Z
   then update_sound (h_sound h) (fun s => set_instances (splice1 si (instances s)) s)
   else mret tt);;
  all ← gets (fun w => soundInstances (sys w));
  let i := indexOf (h_instance h) all in
  if (i >? (-1))%Z
  then modify (with_sys (fun s => set_soundInstances (splice1 i (soundInstances s)) s))
  else mret tt.

(** The platform dispatches [ended] to the source [s]. *)
Definition dispatchEnded (s : Ref) (cb : CallbackRun) : JS unit :=
  n ← deref sourceNodes s;
  now ← gets currentTime;
  if canEnd now n then
    update_source s (set_s_ended true);;
    match s_onended n with
    | Some h => onended h cb
    | None => mret tt
    end
  else mret tt.

(** Modelled from the spec: the platform's automation of a gain parameter,
    which is not part of the repository; section 6 of the specification
    takes the scheduled events with the platform's standard semantics, by
    which the value of a parameter with events follows them as the clock
    advances.  Here the value of such a parameter can become any number. *)
Definition automate (g : Ref) (v : Q) : JS unit :=
  n ← deref gainNodes g;
  match g_events n with
  | [] => mret tt
  | _ => gain_set_value g v
  end.

(** The clock of the context advances. *)
Definition tick (dt : Q) : JS unit :=
  if Qgtb dt 0 then modify (with_currentTime (fun t => (t + dt)%Q)) else mret tt.

(** ** Runs of the program *)

Inductive Action :=
| ACreateAudioContext (audioContext : option AudioContext) (destNode : option NodeId)
| ASetGlobalVolume (volume : Q)
| ALoadSounds (sounds : list (string * SoundInfo)) (now : string)
| ASettle (k : Ref) (o : LoadOutcome)
| APlay (soundName : string) (volume : Q) (loop : bool) (tag : option Tag)
    (offset fadeInSeconds : Q) (stopOldestIfMax : bool) (endedCallback : option nat)
| AStop (tag : option Tag) (fadeOutSeconds : Q)
| AEnded (s : Ref) (cb : CallbackRun)
| AAutomation (g : Ref) (v : Q)
| ATick (dt : Q).

Definition step (a : Action) (w : World) : World :=
  match a with
  | ACreateAudioContext c d => (createAudioContext c d w).2
  | ASetGlobalVolume v => (setGlobalVolume v w).2
  | ALoadSounds l now => (asyncLoadSounds l now w).2
  | ASettle k o => (settle k o w).2
  | APlay n v lp tg off fi so cb => (play n v lp tg off fi so cb w).2
  | AStop tg fo => (stop tg fo w).2
  | AEnded s cb => (dispatchEnded s cb w).2
  | AAutomation g v => (automate g v w).2
  | ATick dt => (tick dt w).2
  end.

(** The world after the actions [acts], performed from left to right. *)
Definition run (acts : list Action) (w : World) : World :=
  foldl (fun w a => step a w) w acts.

(** A call of a callback, as an action. *)
Definition actionOf (c : Call) : Action :=
  match c with
  | CallCreateAudioContext a d => ACreateAudioContext a d
  | CallSetGlobalVolume v => ASetGlobalVolume v
  | CallLoadSounds l now => ALoadSounds l now
  | CallPlay n v lp tg off fi so cb => APlay n v lp tg off fi so cb
  | CallStop tg fo => AStop tg fo
  end.

(** ** The page around the class *)

(** [ac.state], a value that the platform reports. *)
Inductive ContextState := Suspended | Running | Closed.

#[global] Instance ContextState_eq_dec : EqDecision ContextState.
Proof. solve_decision. Defined.

(** Lines 96-98; [state] is the value read from [ac.state]. *)
Definition isAudioContextRunning (state : ContextState) : JS bool :=
  getAudioContext;;
  mret (bool_decide (state = Running)).

(** Line 13. *)
Definition suspendInBackground : bool := true.

(** The calls that the listeners make on the context. *)
Inductive ContextCall := CallSuspend | CallResume.

(** The listener of [visibilitychange], lines 32-46; [hidden] is the value
    read from [document.hidden] and [state] the one read from [ac.state].
    The result is the call made on the context, if any. *)
Definition visibilitychange (hidden : bool) (state : ContextState)
    : JS (option ContextCall) :=
  getAudioContext;;
  if hidden then
    if bool_decide (state = Running) then
      getAudioContext;;
      mret (Some CallSuspend)
    else mret None
  else
    resuming ← gets (fun w => acResuming (sys w));
    if bool_decide (state = Suspended) && negb (truthy resuming) then
      modify (with_sys (set_acResuming (Some true)));;
      mret (Some CallResume)
    else mret None.

(** The closure [userGesture], lines 51-64. *)
Definition userGesture (state : ContextState) : JS (option ContextCall) :=
  a ← gets (fun w => ac (sys w));
  match a with
  | None => mret None
  | Some _ =>
    resuming ← gets (fun w => acResuming (sys w));
    if bool_decide (state = Suspended) && negb (truthy resuming) then
      modify (with_sys (set_acResuming (Some true)));;
      mret (Some CallResume)
    else mret None
  end.

(** The callback handed to [finally], lines 42-44 and 60-62. *)
Definition resumeFinally : JS unit :=
  modify (with_sys (set_acResuming (Some false))).

(** What a world does not hold: the order of the keys of [#sounds], the
    listeners that [#handleLoad] has registered for each of [click],
    [touchend] and [keydown], and the promises of [ac.resume()] that have
    not settled yet. *)
Record Page := mkPage {
  world : World;
  soundKeys : list string;
  gestureListeners : nat;
  resumesInFlight : nat
}.

Definition initialPage : Page := mkPage initialWorld [] 0 0.

(** [#sounds.set(name, ...)] as seen in the order of the keys: a new key
    goes to the end, a key that is present stays where it is. *)
Definition keys_set (name : string) (keys : list string) : list string :=
  if bool_decide (name ∈ keys) then keys else keys ++ [name].

(** The name under which [settle k o] stores a sound (line 145), if it
    stores one. *)
Definition stored (k : Ref) (o : LoadOutcome) (w : World) : option string :=
  match subLoads w !! k with
  | Some l =>
    if l_settled l then None
    else match fetch_and_decode o with
         | inr _ => Some (l_name l)
         | inl _ => None
         end
  | None => None
  end.

Definition keysAfter (a : Action) (w : World) (keys : list string) : list string :=
  match a with
  | ASettle k o =>
    match stored k o w with
    | Some name => keys_set name keys
    | None => keys
    end
  | _ => keys
  end.

(** Lines 270-272: [Array.from(AudioSystem.#sounds.keys())]. *)
Definition getSoundNames (p : Page) : list string := soundKeys p.

(** [#handleLoad], lines 50-69: one more listener per kind of gesture. *)
Definition handleLoad (p : Page) : Page :=
  mkPage (world p) (soundKeys p) (S (gestureListeners p)) (resumesInFlight p).

(** The number of [resume()] calls in the result of a listener. *)
Definition resumes (r : Completion (option ContextCall)) : nat :=
  match r with
  | Normal (Some CallResume) => 1
  | _ => 0
  end.

(** A gesture runs every registered [userGesture], one after the other;
    [ac.state] does not change before the promise of [resume()] settles. *)
Fixpoint gesture (listeners : nat) (state : ContextState) (w : World)
    : nat * World :=
  match listeners with
  | O => (0, w)
  | S n =>
    let r := userGesture state w in
    let r' := gesture n state r.2 in
    (resumes r.1 + r'.1, r'.2)
  end.

Inductive Event :=
| EAction (a : Action)
| ELoad
| EVisibilityChange (hidden : bool) (state : ContextState)
| EGesture (state : ContextState)
| EResumeSettled.

Definition pageStep (e : Event) (p : Page) : Page :=
  match e with
  | EAction a =>
    mkPage (step a (world p)) (keysAfter a (world p) (soundKeys p))
      (gestureListeners p) (resumesInFlight p)
  | ELoad => handleLoad p
  | EVisibilityChange hidden state =>
    if suspendInBackground then
      let r := visibilitychange hidden state (world p) in
      mkPage r.2 (soundKeys p) (gestureListeners p)
        (resumes r.1 + resumesInFlight p)
    else p
  | EGesture state =>
    let r := gesture (gestureListeners p) state (world p) in
    mkPage r.2 (soundKeys p) (gestureListeners p) (r.1 + resumesInFlight p)
  | EResumeSettled =>
    match resumesInFlight p with
    | O => p
    | S n => mkPage (resumeFinally (world p)).2 (soundKeys p) (gestureListeners p) n
    end
  end.

(** The page after the events [evs], handled from left to right. *)
Definition runPage (evs : list Event) (p : Page) : Page :=
  foldl (fun p e => pageStep e p) p evs.

(** * The vocabulary of the properties *)

(** ** Lists *)

(** The list after the [indexOf]/[splice] pair of the handler. *)
Definition removed (x : Ref) (l : list Ref) : list Ref :=
  if (indexOf x l >? (-1))%Z then splice1 (indexOf x l) l else l.

(** ** The invariant of the reachable worlds *)

(** What holds of the instance object [I] at reference [i]: its source
    node carries the handler that names [i], its gain and its sound; a
    source that has ended was started; the instance is in the global list
    as long as its source has not ended; it is in the list of its sound,
    and of no other sound, exactly when it is in the global list; and the
    handler has run exactly when the source has ended. *)
Definition inst_ok (w : World) (i : Ref) (I : Instance) : Prop :=
  source I = i ∧ gain I < length (gainNodes w) ∧
  masterGain (sys w) ≠ Some (gain I) ∧
  ∃ n cb r,
    sourceNodes w !! i = Some n ∧
    s_onended n = Some (mkEndedHandler cb i (gain I) r) ∧
    (s_ended n = true → s_started n ≠ None) ∧
    r < length (soundObjs w) ∧
    (s_ended n = false → i ∈ soundInstances (sys w)) ∧
    (∀ r' S, soundObjs w !! r' = Some S →
       (i ∈ instances S ↔ r' = r ∧ i ∈ soundInstances (sys w))) ∧
    (i ∈ firedLog w ↔ s_ended n = true).

(** The master gain carries the global volume and no scheduled event, and
    it is connected to the destination, the flag [#gainConnected] saying
    so, exactly when the volume is positive. *)
Definition master_ok (w : World) : Prop :=
  ∃ g d n,
    masterGain (sys w) = Some g ∧ destinationNode (sys w) = Some d ∧
    gainNodes w !! g = Some n ∧ g_value n = volume (sys w) ∧
    g_events n = [] ∧
    gainConnected (sys w) = Some (Qgtb (volume (sys w)) 0) ∧
    g_outputs n = (if Qgtb (volume (sys w)) 0 then [d] else []).

(** The invariant: without a context nothing is loaded; with one the
    master gain is as [master_ok] says; references designate objects; the
    instance lists have no duplicates and are in the order of creation;
    every instance is as [inst_ok] says; instances do not share gains. *)
Record inv (w : World) : Prop := mkInv {
  inv_ctx : ac (sys w) = None → subLoads w = [] ∧ sounds (sys w) = ∅;
  inv_master : ac (sys w) ≠ None → master_ok w;
  inv_table : ∀ name r, sounds (sys w) !! name = Some r → r < length (soundObjs w);
  inv_sources : length (sourceNodes w) = length (instObjs w);
  inv_global : NoDup (soundInstances (sys w));
  inv_global_bound : ∀ i, i ∈ soundInstances (sys w) → i < length (instObjs w);
  inv_lists : ∀ r S, soundObjs w !! r = Some S →
    NoDup (instances S) ∧ ∀ i, i ∈ instances S → i < length (instObjs w);
  inv_fired : NoDup (firedLog w);
  inv_fired_bound : ∀ i, i ∈ firedLog w → i < length (instObjs w);
  inv_loads : ∀ k l, subLoads w !! k = Some l →
    l_promise l < length (promises w) ∧ ∃ now, l_url l = url_of now (l_info l);
  inv_inst : ∀ i I, instObjs w !! i = Some I → inst_ok w i I;
  inv_gains : ∀ i j I J,
    instObjs w !! i = Some I → instObjs w !! j = Some J → gain I = gain J → i = j;
  inv_sorted : ∀ r S, soundObjs w !! r = Some S → StronglySorted lt (instances S)
}.

(** ** The worlds after the operations *)

(** The world after [setGlobalVolume v] when the master gain is the node
    [n] at [g] and the destination is [d]. *)
Definition volumeSet (v : Q) (g : Ref) (n : GainNode) (d : NodeId) (w : World)
    : World :=
  with_sys (set_gainConnected (Some (Qgtb v 0)))
    (with_gainNodes
       (λ l, <[g := mkGainNode v (g_events n) (if Qgtb v 0 then [d] else [])]> l)
       (with_sys (set_volume v) w)).

(** The world after a successful [createAudioContext]. *)
Definition contextCreated (audioContext : option AudioContext)
    (destNode : option NodeId) (w : World) : World :=
  let a := match audioContext with None => NewAudioContext | Some a => a end in
  let d := match destNode with None => destination a | Some d => d end in
  let v := volume (sys w) in
  with_sys (λ s, mkAudioSystem (Some a) (Some false) (Some (length (gainNodes w)))
                   (Some (Qgtb v 0)) (Some d) v (sounds s) (soundInstances s))
    (with_gainNodes
       (λ l, l ++ [mkGainNode v [] (if Qgtb v 0 then [d] else [])]) w).

(** The world after [asyncLoadSounds] has started its chains. *)
Definition loadsStarted (l : list (string * SoundInfo)) (now : string) (w : World)
    : World :=
  with_subLoads
    (λ ls, ls ++ map (λ ni, mkSubLoad (length (promises w)) ni.1 ni.2
                               (url_of now ni.2) false) l)
    (with_promises
       (λ ps, ps ++ [match l with [] => Fulfilled | _ => Pending (length l) end]) w).

(** The promise of an aggregate after one more of its elements fulfilled
    or rejected. *)
Definition fulfilOne (st : PromiseState) : PromiseState :=
  match st with
  | Pending (S (S n)) => Pending (S n)
  | Pending _ => Fulfilled
  | _ => st
  end.

Definition rejectWith (e : JsError) (st : PromiseState) : PromiseState :=
  match st with
  | Pending _ => Rejected e
  | _ => st
  end.

(** The world after the chain [l] at index [k] settled with [o]. *)
Definition settled (k : Ref) (l : SubLoad) (o : LoadOutcome) (st : PromiseState)
    (w : World) : World :=
  let w1 :=
    with_subLoads
      (λ ls, <[k := mkSubLoad (l_promise l) (l_name l) (l_info l) (l_url l) true]> ls)
      w in
  match fetch_and_decode o with
  | inr b =>
    with_promises (λ ps, <[l_promise l := fulfilOne st]> ps)
      (with_sys (λ s, set_sounds (<[l_name l := length (soundObjs w)]> (sounds s)) s)
         (with_soundObjs
            (λ objs, objs ++ [mkSound b (info_maxSources (l_info l))
                                (info_baseVolume (l_info l)) []]) w1))
  | inl error =>
    with_promises
      (λ ps, <[l_promise l := rejectWith (loadError (l_url l) error) st]> ps) w1
  end.

(** The argument of [source.stop] and the ramp that [stop] schedules. *)
Definition stopCall (fadeOutSeconds now : Q) : option Q :=
  if Qleb fadeOutSeconds 0 then None else Some (now + fadeOutSeconds)%Q.

Definition fadeOut (fadeOutSeconds now v : Q) : list ParamEvent :=
  if Qleb fadeOutSeconds 0 then []
  else [SetValueAtTime v now;
        ExponentialRampToValueAtTime floorValue (now + fadeOutSeconds)].

(** The source after [stop] was called on it: a source that was never
    started has refused the call. *)
Definition stoppedSource (fadeOutSeconds now : Q) (sn : SourceNode) : SourceNode :=
  if bool_decide (s_started sn = None) then sn
  else set_s_stopCalls (s_stopCalls sn ++ [stopCall fadeOutSeconds now]) sn.

Definition fadedGain (fadeOutSeconds now : Q) (gn : GainNode) : GainNode :=
  mkGainNode (g_value gn) (g_events gn ++ fadeOut fadeOutSeconds now (g_value gn))
    (g_outputs gn).

(** The world after the loop body for the instance [I] at [r], which it
    does not skip. *)
Definition stopInstance (fadeOutSeconds : Q) (r : Ref) (I : Instance)
    (gn : GainNode) (sn : SourceNode) (w : World) : World :=
  with_sourceNodes
    (λ l, <[source I := stoppedSource fadeOutSeconds (currentTime w) sn]> l)
    (with_gainNodes
       (λ l, <[gain I := fadedGain fadeOutSeconds (currentTime w) gn]> l)
       (with_instObjs (λ l, <[r := set_stopping true I]> l) w)).

(** [hit tag sel r I]: the loop, run over the instances [sel], stops the
    instance [I] at [r]. *)
Definition hit (filter : option Tag) (sel : list Ref) (r : Ref) (I : Instance)
    : bool :=
  bool_decide (r ∈ sel) && negb (skipped filter I).

(** What the loop of [stop] over the references [sel] does to a world. *)
Record stop_rel (filter : option Tag) (fade : Q) (sel : list Ref)
    (w w' : World) : Prop := mkStopRel {
  sr_sys : sys w' = sys w;
  sr_soundObjs : soundObjs w' = soundObjs w;
  sr_time : currentTime w' = currentTime w;
  sr_promises : promises w' = promises w;
  sr_subLoads : subLoads w' = subLoads w;
  sr_callbackLog : callbackLog w' = callbackLog w;
  sr_firedLog : firedLog w' = firedLog w;
  sr_sources : length (sourceNodes w') = length (sourceNodes w);
  sr_inst : ∀ r,
    instObjs w' !! r =
      (λ I, if hit filter sel r I then set_stopping true I else I)
        <$> instObjs w !! r;
  sr_source : ∀ r I, instObjs w !! r = Some I →
    sourceNodes w' !! source I =
      (λ sn, if hit filter sel r I
             then stoppedSource fade (currentTime w) sn else sn)
        <$> sourceNodes w !! source I;
  sr_gain : ∀ r I, instObjs w !! r = Some I →
    gainNodes w' !! gain I =
      (λ gn, if hit filter sel r I
             then fadedGain fade (currentTime w) gn else gn)
        <$> gainNodes w !! gain I;
  sr_gain_other : ∀ g, (∀ r I, instObjs w !! r = Some I → gain I ≠ g) →
    gainNodes w' !! g = gainNodes w !! g
}.

(** The gain node of a new instance: the value is set at once, or the
    fade-in is scheduled (lines 192-197); then the node is connected to
    the master gain [m]. *)
Definition newGain (sound : Sound) (volume fadeInSeconds now : Q) (m : Ref)
    : GainNode :=
  if Qleb fadeInSeconds 0 then
    mkGainNode (jsMul (baseVolume sound) volume) [] [GainOf m]
  else
    mkGainNode 1
      [SetValueAtTime floorValue now;
       ExponentialRampToValueAtTime (jsMul (baseVolume sound) volume)
         (now + fadeInSeconds)]
      [GainOf m].

(** The source node of a new instance after line 234: it is started when
    the offset is not negative. *)
Definition newSource (sound : Sound) (loop : bool) (offset now : Q) (g : Ref)
    (h : EndedHandler) : SourceNode :=
  mkSourceNode (Some (buffer sound)) loop
    (if loop && Qgtb offset 0 then offset else 0)
    (if loop && Qgtb offset 0 then duration (buffer sound) else 0)
    [GainOf g] (Some h) (if Qleb 0 offset then Some (now, offset) else None)
    [] false.

(** The world after lines 191-234 for the sound object [sound] at [sr]. *)
Definition instanceStarted (sr : Ref) (sound : Sound) (volume : Q) (loop : bool)
    (tag : option Tag) (offset fadeInSeconds : Q) (endedCallback : option nat)
    (m : Ref) (w : World) : World :=
  let g := length (gainNodes w) in
  let s := length (sourceNodes w) in
  let i := length (instObjs w) in
  let now := currentTime w in
  with_sys (λ st, set_soundInstances (soundInstances st ++ [i]) st)
    (with_soundObjs
       (λ l, <[sr := set_instances (instances sound ++ [i]) sound]> l)
       (with_instObjs (λ l, l ++ [mkInstance s g tag false now])
          (with_sourceNodes
             (λ l, l ++ [newSource sound loop offset now g
                           (mkEndedHandler endedCallback i g sr)])
             (with_gainNodes
                (λ l, l ++ [newGain sound volume fadeInSeconds now m]) w)))).

(** The fade-in can be scheduled: there is none, or its target, as the
    platform takes it, is not 0. *)
Definition rampAccepted (sound : Sound) (volume fadeInSeconds : Q) : bool :=
  Qleb fadeInSeconds 0
  || negb (Qeq_bool (toFloat32 (jsMul (baseVolume sound) volume)) 0).

(** What line 234 answers. *)
Definition startOutcome (offset : Q) (i : Ref) : Completion (option Ref) :=
  if Qleb 0 offset then Normal (Some i)
  else Throw (RangeError "The offset provided is less than the minimum bound").

(** The world after line 185 stopped the source [sn] at [o]. *)
Definition evicted (o : Ref) (sn : SourceNode) (w : World) : World :=
  with_sourceNodes (λ l, <[o := set_s_stopCalls (s_stopCalls sn ++ [None]) sn]> l) w.

(** [sound.instances.length >= sound.maxSources], line 183. *)
Definition full (sound : Sound) : bool :=
  (Z.of_nat (length (instances sound)) >=? maxSources sound)%Z.

(** The world in which the handler [h] of the source node [n] at [s]
    calls the caller's callback: the source has ended, the run is logged. *)
Definition fired (s : Ref) (n : SourceNode) (h : EndedHandler) (w : World) : World :=
  with_callbackLog
    (λ l, l ++ match h_endedCallback h with
               | Some c => [(c, h_instance h)]
               | None => []
               end)
    (with_firedLog (λ l, l ++ [h_instance h])
       (with_sourceNodes (λ l, <[s := set_s_ended true n]> l) w)).

(** The world after the calls [cs] of a callback. *)
Definition calls (cs : list Call) (w : World) : World :=
  foldl (λ w c, call c w) w cs.

(** What the callback of the handler [h] does when it behaves as [cb]:
    nothing when the caller gave none. *)
Definition callsOf (h : EndedHandler) (cb : CallbackRun) : list Call :=
  match h_endedCallback h with Some _ => cr_calls cb | None => [] end.

Definition thrownBy (h : EndedHandler) (cb : CallbackRun) : option JsError :=
  match h_endedCallback h with Some _ => cr_throws cb | None => None end.

(** The world after lines 221-231 of the handler [h]; [gn] is the gain
    node of the instance and [S] its sound object. *)
Definition finished (h : EndedHandler) (gn : GainNode) (S : Sound) (w : World)
    : World :=
  with_sys
    (λ st, set_soundInstances (removed (h_instance h) (soundInstances st)) st)
    (with_soundObjs
       (λ l, <[h_sound h := set_instances (removed (h_instance h) (instances S)) S]> l)
       (with_gainNodes
          (λ l, <[h_gain h := mkGainNode (g_value gn) (g_events gn) []]> l) w)).

(** The world after the handler [h] of the source node [n] at [s] ran
    with a callback that does not call the class and returns. *)
Definition ended (s : Ref) (n : SourceNode) (h : EndedHandler) (gn : GainNode)
    (S : Sound) (w : World) : World :=
  finished h gn S (fired s n h w).

(** The errors of the platform. *)
Definition rampError : JsError :=
  RangeError "The target value of an exponential ramp cannot be 0".

Definition offsetError : JsError :=
  RangeError "The offset provided is less than the minimum bound".

Definition stopError : JsError :=
  InvalidStateError "cannot call stop without calling start first".

(** The source of the instance at [i] has been started. *)
Definition startedAt (w : World) (i : Ref) : bool :=
  match instObjs w !! i with
  | Some instance =>
    match sourceNodes w !! source instance with
    | Some sn => bool_decide (s_started sn ≠ None)
    | None => false
    end
  | None => false
  end.

(** Every instance of the global list has a source that was started: the
    platform has refused no [start] of line 234. *)
Definition all_started (w : World) : bool :=
  forallb (startedAt w) (soundInstances (sys w)).

(** ** The statements of the properties, with sample sessions *)

(** What [setGlobalVolume v] leaves behind in the world [w]. *)
Definition volume_consistent (w : World) (v : Q) : Prop :=
  ∃ g d n',
    masterGain (sys w) = Some g ∧ destinationNode (sys w) = Some d ∧
    (setGlobalVolume v w).1 = Normal tt ∧
    let w' := (setGlobalVolume v w).2 in
    masterGain (sys w') = Some g ∧ destinationNode (sys w') = Some d ∧
    volume (sys w') = v ∧
    gainNodes w' !! g = Some n' ∧ g_value n' = v ∧
    ((v <= 0)%Q ↔ gainConnected (sys w') = Some false ∧ g_outputs n' = []) ∧
    ((0 < v)%Q ↔ gainConnected (sys w') = Some true ∧ g_outputs n' = [d]) ∧
    ∀ v2, (0 < v2)%Q →
      let w2 := (setGlobalVolume v2 (setGlobalVolume 0 w).2).2 in
      gainConnected (sys w2) = Some true ∧
      ∃ n2, gainNodes w2 !! g = Some n2 ∧ g_value n2 = v2 ∧ g_outputs n2 = [d].

(** A small session: a context, and the sound [click] with room for one
    instance. *)
Definition clickInfo : SoundInfo := mkSoundInfo "click.wav" 1 1.

Definition clickBuffer : AudioBuffer := mkAudioBuffer 0 2.

Definition session : list Action :=
  [ACreateAudioContext None None;
   ALoadSounds [("click", clickInfo)] "";
   ASettle 0 (Decoded clickBuffer)].

Definition oneClick : list Action :=
  session ++ [APlay "click" 1 false None 0 0 true None].

(** What [stop filter fade] does to the instances of the global list of
    [w]; [w'] is the world after the call.  The value that the hold event
    repeats is the value of the gain parameter in [w], wherever the
    platform's automation has taken it. *)
Definition stop_outcome (filter : option Tag) (fade : Q) (w w' : World) : Prop :=
  ∀ r, r ∈ soundInstances (sys w) →
    ∃ I sn gn,
      instObjs w !! r = Some I ∧ sourceNodes w !! source I = Some sn ∧
      gainNodes w !! gain I = Some gn ∧
      (stopping I = false → filter = None ∨ tag I = filter →
         instObjs w' !! r
           = Some (mkInstance (source I) (gain I) (tag I) true (startTime I)) ∧
         sourceNodes w' !! source I
           = Some (mkSourceNode (s_buffer sn) (s_loop sn) (s_loopStart sn)
                     (s_loopEnd sn) (s_outputs sn) (s_onended sn) (s_started sn)
                     (s_stopCalls sn ++
                      [if Qleb fade 0 then None
                       else Some (currentTime w + fade)%Q])
                     (s_ended sn)) ∧
         gainNodes w' !! gain I
           = Some (mkGainNode (g_value gn)
                     (g_events gn ++
                      (if Qleb fade 0 then []
                       else [SetValueAtTime (g_value gn) (currentTime w);
                             ExponentialRampToValueAtTime floorValue
                               (currentTime w + fade)]))
                     (g_outputs gn))) ∧
      (stopping I = true ∨ (filter ≠ None ∧ tag I ≠ filter) →
         instObjs w' !! r = Some I ∧ sourceNodes w' !! source I = Some sn ∧
         gainNodes w' !! gain I = Some gn).

(** A session in which the platform refuses the [start] of the second of
    two instances of [music]: its offset is negative. *)
Definition refusedStart : list Action :=
  [ACreateAudioContext None None;
   ALoadSounds [("music", mkSoundInfo "music.mp3" 2 (1 # 2))] "";
   ASettle 0 (Decoded (mkAudioBuffer 0 90));
   APlay "music" 1 true None 0 0 true None;
   APlay "music" 1 true None (-1) 0 true None].

(** A session with an untagged instance of [click] and a looping instance
    of [music] tagged [music], one second after both were started. *)
Definition taggedSession : list Action :=
  session ++ [ALoadSounds [("music", mkSoundInfo "music.mp3" 2 (1 # 2))] "";
              ASettle 1 (Decoded (mkAudioBuffer 1 90));
              APlay "click" 1 false None 0 0 true None;
              APlay "music" 1 true (Some (TagString "music")) 0 0 true None;
              ATick 1].

(** The world in which lines 191-234 run: [w] itself when the sound has
    room, else [w] after the source of the oldest instance, which was
    started, was stopped. *)
Definition beforeStart (sound : Sound) (w w0 : World) : Prop :=
  (full sound = false ∧ w0 = w)
  ∨ (full sound = true ∧
     ∃ o rest I sn,
       instances sound = o :: rest ∧ instObjs w !! o = Some I ∧
       source I = o ∧ sourceNodes w !! o = Some sn ∧ s_started sn ≠ None ∧
       w0 = evicted o sn w).

(** The instance lists only grow at their end when a world [w] becomes
    [w']: [new] is appended to the global list and to the list of [sr]. *)
Definition lists_extended (sr : Ref) (new : list Ref) (w w' : World) : Prop :=
  soundInstances (sys w') = soundInstances (sys w) ++ new
  ∧ length (soundObjs w') = length (soundObjs w)
  ∧ ∀ r S, soundObjs w !! r = Some S →
      ∃ S', soundObjs w' !! r = Some S' ∧
        buffer S' = buffer S ∧ maxSources S' = maxSources S ∧
        baseVolume S' = baseVolume S ∧
        instances S' = instances S ++ (if decide (r = sr) then new else []).

(** Every member of the global list and of the list of a sound object of
    [w] is still a member in [w']. *)
Definition keeps_members (w w' : World) : Prop :=
  (∀ i, i ∈ soundInstances (sys w) → i ∈ soundInstances (sys w'))
  ∧ ∀ r S, soundObjs w !! r = Some S →
      ∃ S', soundObjs w' !! r = Some S' ∧ ∀ i, i ∈ instances S → i ∈ instances S'.

(** What [stop filter fade] leaves untouched in [w]. *)
Definition stop_frame (filter : option Tag) (fade : Q) (w : World) : Prop :=
  let w' := (stop filter fade w).2 in
  soundInstances (sys w') = soundInstances (sys w)
  ∧ sounds (sys w') = sounds (sys w)
  ∧ soundObjs w' = soundObjs w
  ∧ length (instObjs w') = length (instObjs w)
  ∧ (∀ r I, instObjs w !! r = Some I →
       ∃ I', instObjs w' !! r = Some I' ∧
         source I' = source I ∧ gain I' = gain I ∧ tag I' = tag I ∧
         startTime I' = startTime I)
  ∧ ∀ name sr sound volume loop tag offset fadeIn cb,
      sounds (sys w) !! name = Some sr → soundObjs w !! sr = Some sound →
      (Z.of_nat (length (instances sound)) >= maxSources sound)%Z →
      play name volume loop tag offset fadeIn false cb w' = (Normal None, w').

(** The instance list of the sound object at [sr]. *)
Definition instancesOf (sr : Ref) (w : World) : list Ref :=
  match soundObjs w !! sr with
  | Some sound => instances sound
  | None => []
  end.


(** What the eviction does to the oldest instance of the sound at [sr],
    whatever its stopping flag: [stop()] is called on its source, which
    refuses the call when it was never started; the record of the instance
    is left as it is, it stays in the global list, and [isTagPlaying]
    still counts it when its flag is false; no action but the delivery of
    its [ended] event takes it out of the global list, and that delivery
    does when the callback returns. *)
Definition eviction_ignores_flag (name : string) (volume : Q) (loop : bool)
    (tag0 : option Tag) (offset fadeIn : Q) (cb : option nat)
    (sr : Ref) (w : World) : Prop :=
  ∃ o rest I sn h,
    instancesOf sr w = o :: rest ∧ instObjs w !! o = Some I ∧
    sourceNodes w !! source I = Some sn ∧ s_onended sn = Some h ∧
    let r := play name volume loop tag0 offset fadeIn true cb w in
    (s_started sn = None → r = (Throw stopError, w))
    ∧ (s_started sn ≠ None →
       sourceNodes r.2 !! source I
         = Some (set_s_stopCalls (s_stopCalls sn ++ [None]) sn)
       ∧ (s_stopCalls <$> sourceNodes r.2 !! source I)
         = Some (s_stopCalls sn ++ [None]))
    ∧ instObjs r.2 !! o = Some I
    ∧ o ∈ soundInstances (sys r.2)
    ∧ (stopping I = false → isTagPlaying (tag I) r.2 = true)
    ∧ (∀ a, (∀ s cbr, a ≠ AEnded s cbr) → o ∈ soundInstances (sys (step a r.2)))
    ∧ (s_started sn ≠ None → s_ended sn = false →
       ∀ cbr, thrownBy h cbr = None →
         o ∉ soundInstances (sys (dispatchEnded (source I) cbr r.2).2)).

(** A session in which the only instance of [click] is fading out, its
    stopping flag set, when the next [play] stops its source again. *)
Definition fadingClick : list Action :=
  oneClick ++ [AStop None 2].


(** A sound whose base volume is so small that its product with a small
    volume is no longer a positive double. *)
Definition faintInfo : SoundInfo := mkSoundInfo "faint.wav" 1 (1 # 10 ^ 200).

Definition faintSession : list Action :=
  [ACreateAudioContext None None;
   ALoadSounds [("faint", faintInfo)] "";
   ASettle 0 (Decoded clickBuffer)].

(** [i] occurs in no instance list of [w]. *)
Definition in_no_list (i : Ref) (w : World) : Prop :=
  (i ∉ soundInstances (sys w))
  ∧ ∀ r S', soundObjs w !! r = Some S' → i ∉ instances S'.




(** A session in which the callback of the only instance of [click]
    throws when the sound has ended. *)
Definition throwingCallback : list Action :=
  session ++ [APlay "click" 1 false None 0 0 true (Some 7%nat);
              AEnded 0 (mkCallbackRun [] (Some (Error "callback failed")))].

(** What the failure of the pending chain [l] with the text [error] does
    in [w], whose world after the settlement is [w']: it rejects the
    aggregate promise, in the state [st], at once, unless it is settled
    already, with an error that contains the URL, and leaves the sound
    table as it is; the promise stays rejected whatever happens next. *)
Definition load_failed (w w' : World) (l : SubLoad) (st : PromiseState)
    (error : string) : Prop :=
  promises w' !! l_promise l
    = Some (match st with
            | Pending _ =>
              Rejected (Error ("Error loading sound file " +:+ dquote +:+ l_url l
                               +:+ dquote +:+ ", " +:+ error))
            | _ => st
            end)
  ∧ (∃ now, l_url l = url_of now (l_info l))
  ∧ sounds (sys w') = sounds (sys w)
  ∧ soundObjs w' = soundObjs w
  ∧ ∀ e acts', promises w' !! l_promise l = Some (Rejected e) →
      promises (run acts' w') !! l_promise l = Some (Rejected e).

(** What the success of the pending chain [l] with the buffer [b] does: it
    stores a new sound object with the decoded buffer, [maxSources],
    [baseVolume] and an empty instance list under the name, in place of
    any entry the name had. *)
Definition load_stored (w w' : World) (l : SubLoad) (st : PromiseState)
    (b : AudioBuffer) : Prop :=
  sounds (sys w') = <[l_name l := length (soundObjs w)]> (sounds (sys w))
  ∧ soundObjs w'
    = soundObjs w ++ [mkSound b (info_maxSources (l_info l))
                        (info_baseVolume (l_info l)) []]
  ∧ promises w' !! l_promise l
    = Some (match st with
            | Pending (S (S n)) => Pending (S n)
            | Pending _ => Fulfilled
            | _ => st
            end).

(** What the settlement of the pending chain [l], the [k]-th, with the
    outcome [o] does in [w]: a rejected fetch, a response that is not ok,
    a body that cannot be read and a decoding that fails are failures;
    a decoded buffer is the only success. *)
Definition settle_outcome (w : World) (k : Ref) (l : SubLoad) (o : LoadOutcome)
    : Prop :=
  ∃ st,
    promises w !! l_promise l = Some st ∧
    (settle k o w).1 = Normal tt ∧
    let w' := (settle k o w).2 in
    match o with
    | FetchRejected error => load_failed w w' l st error
    | ResponseNotOk statusText =>
      load_failed w w' l st
        (if bool_decide (statusText = "") then "Error"
         else "Error: " +:+ statusText)
    | ArrayBufferRejected error => load_failed w w' l st error
    | DecodeRejected error => load_failed w w' l st error
    | Decoded b => load_stored w w' l st b
    end.

(** What [asyncLoadSounds defs] starts in a world with a context: one
    chain per name, and a promise that waits for all of them. *)
Definition loads_begin (w : World) (defs : list (string * SoundInfo))
    (now : string) : Prop :=
  (asyncLoadSounds defs now w).1 = Normal (length (promises w))
  ∧ let w' := (asyncLoadSounds defs now w).2 in
    promises w'
    = promises w ++ [match defs with [] => Fulfilled | _ => Pending (length defs) end]
    ∧ subLoads w'
      = subLoads w ++
        map (λ ni, mkSubLoad (length (promises w)) ni.1 ni.2 (url_of now ni.2) false)
          defs
    ∧ sounds (sys w') = sounds (sys w).

(** A failed call that leaves the table partly filled: of the two sounds
    [a] and [b], [b] fails with status text [Not Found] and [a] is
    decoded; the promise of the call is rejected with the URL of [b] and
    the table holds [a]. *)
Definition halfLoaded : list Action :=
  [ACreateAudioContext None None;
   ALoadSounds [("a", mkSoundInfo "a.wav" 1 1); ("b", mkSoundInfo "b.wav" 1 1)] "";
   ASettle 0 (Decoded clickBuffer)].

Definition partialLoad : list Action :=
  halfLoaded ++ [ASettle 1 (ResponseNotOk "Not Found")].

(** ** The transitions of a world that satisfies the invariant *)

(** The world after a [play] whose fade-in the platform refuses: the gain
    node made at line 191 is left behind, connected to nothing. *)
Definition rampRefused (w : World) : World :=
  with_gainNodes
    (λ l, l ++ [mkGainNode 1 [SetValueAtTime floorValue (currentTime w)] []]) w.

(** The source of the oldest instance of the sound at [sr] has been
    started. *)
Definition oldest_started (sr : Ref) (w : World) : bool :=
  match instancesOf sr w with
  | o :: _ => startedAt w o
  | [] => true
  end.

(** The world after the platform's automation gave the value [v] to the
    gain node [n] at [g]. *)
Definition automated (g : Ref) (n : GainNode) (v : Q) (w : World) : World :=
  with_gainNodes (λ l, <[g := mkGainNode v (g_events n) (g_outputs n)]> l) w.

(** [Step w a w']: one transition of the action [a] takes [w] to [w'].
    An action is one transition, but for the delivery of [ended]: there
    the handler starts ([Step_fired]), the calls of the callback follow,
    each a transition of its own, and the handler finishes
    ([Step_finished]) unless the callback throws. *)
Inductive Step (w : World) : Action → World → Prop :=
| Step_create c d :
    ac (sys w) = None →
    Step w (ACreateAudioContext c d) (contextCreated c d w)
| Step_create_again c d :
    ac (sys w) ≠ None → Step w (ACreateAudioContext c d) w
| Step_volume v a g d n :
    ac (sys w) = Some a → masterGain (sys w) = Some g →
    destinationNode (sys w) = Some d → gainNodes w !! g = Some n →
    Step w (ASetGlobalVolume v) (volumeSet v g n d w)
| Step_volume_no_context v :
    ac (sys w) = None →
    Step w (ASetGlobalVolume v) (with_sys (set_volume v) w)
| Step_load l now :
    ac (sys w) ≠ None → Step w (ALoadSounds l now) (loadsStarted l now w)
| Step_load_no_context l now :
    ac (sys w) = None → Step w (ALoadSounds l now) w
| Step_settle k o l st :
    subLoads w !! k = Some l → l_settled l = false →
    promises w !! l_promise l = Some st →
    Step w (ASettle k o) (settled k l o st w)
| Step_settle_skip k o :
    (∀ l, subLoads w !! k = Some l → l_settled l = true) →
    Step w (ASettle k o) w
| Step_play_nothing name v lp tg off fi so cb :
    (ac (sys w) = None ∨ sounds (sys w) !! name = None
     ∨ ∃ sr sound, sounds (sys w) !! name = Some sr ∧
         soundObjs w !! sr = Some sound ∧
         ((maxSources sound <= 0)%Z
          ∨ (full sound = true ∧ (so = false ∨ oldest_started sr w = false)))) →
    Step w (APlay name v lp tg off fi so cb) w
| Step_play_started name v lp tg off fi so cb sr sound m w0 :
    ac (sys w) ≠ None → sounds (sys w) !! name = Some sr →
    soundObjs w !! sr = Some sound → (0 < maxSources sound)%Z →
    (full sound = true → so = true) → rampAccepted sound v fi = true →
    masterGain (sys w) = Some m → beforeStart sound w w0 →
    Step w (APlay name v lp tg off fi so cb)
      (instanceStarted sr sound v lp tg off fi cb m w0)
| Step_play_refused name v lp tg off fi so cb sr sound w0 :
    ac (sys w) ≠ None → sounds (sys w) !! name = Some sr →
    soundObjs w !! sr = Some sound → (0 < maxSources sound)%Z →
    (full sound = true → so = true) → rampAccepted sound v fi = false →
    beforeStart sound w w0 →
    Step w (APlay name v lp tg off fi so cb) (rampRefused w0)
| Step_stop_no_context tg fo :
    ac (sys w) = None → Step w (AStop tg fo) w
| Step_stop tg fo sel w' :
    ac (sys w) ≠ None → sel ⊆ soundInstances (sys w) →
    stop_rel tg fo sel w w' →
    Step w (AStop tg fo) w'
| Step_ended_skip s cb :
    (∀ n, sourceNodes w !! s = Some n → canEnd (currentTime w) n = false) →
    Step w (AEnded s cb) w
| Step_fired i I n c r cb :
    instObjs w !! i = Some I → sourceNodes w !! i = Some n →
    canEnd (currentTime w) n = true →
    s_onended n = Some (mkEndedHandler c i (gain I) r) →
    i ∈ soundInstances (sys w) →
    Step w (AEnded i cb) (fired i n (mkEndedHandler c i (gain I) r) w)
| Step_finished i I n c r gn S cb :
    instObjs w !! i = Some I → sourceNodes w !! i = Some n →
    s_ended n = true →
    s_onended n = Some (mkEndedHandler c i (gain I) r) →
    gainNodes w !! gain I = Some gn → soundObjs w !! r = Some S →
    i ∈ instances S → i ∈ soundInstances (sys w) →
    Step w (AEnded i cb) (finished (mkEndedHandler c i (gain I) r) gn S w)
| Step_automation g v n :
    gainNodes w !! g = Some n → g_events n ≠ [] →
    Step w (AAutomation g v) (automated g n v w)
| Step_automation_skip g v :
    (∀ n, gainNodes w !! g = Some n → g_events n = []) →
    Step w (AAutomation g v) w
| Step_tick dt :
    Step w (ATick dt) (if Qgtb dt 0 then with_currentTime (λ t, (t + dt)%Q) w else w).

(** [b] is one of the transitions of the action [a]: [a] itself, or a
    call of the callback that the delivery [a] runs. *)
Definition part_of (b a : Action) : Prop :=
  b = a ∨ ∃ s cb c, a = AEnded s cb ∧ c ∈ cr_calls cb ∧ b = actionOf c.

(** What the calls of a callback leave as it is when they take [w] to
    [w']: the logs of the handlers and the clock; the references, the
    source and the gain of every instance; on every source, whether it
    was started or has ended, and its handler; the outputs of the gain of
    every instance; and the members of the lists. *)
Record during (w w' : World) : Prop := mkDuring {
  du_fired : firedLog w' = firedLog w;
  du_callback : callbackLog w' = callbackLog w;
  du_inst : ∀ i I, instObjs w !! i = Some I →
    ∃ I', instObjs w' !! i = Some I' ∧ source I' = source I ∧ gain I' = gain I
          ∧ tag I' = tag I;
  du_source : ∀ s n, sourceNodes w !! s = Some n →
    ∃ n', sourceNodes w' !! s = Some n' ∧ s_ended n' = s_ended n
          ∧ s_onended n' = s_onended n ∧ s_started n' = s_started n;
  du_gain : ∀ i I gn, instObjs w !! i = Some I → gainNodes w !! gain I = Some gn →
    ∃ gn', gainNodes w' !! gain I = Some gn' ∧ g_outputs gn' = g_outputs gn;
  du_global : ∀ i, i ∈ soundInstances (sys w) → i ∈ soundInstances (sys w');
  du_lists : ∀ r S, soundObjs w !! r = Some S →
    ∃ S', soundObjs w' !! r = Some S' ∧ ∀ i, i ∈ instances S → i ∈ instances S'
}.

(** ** Further statements *)

(** The context, the master gain and the destination of [w] are those of
    [w']. *)
Definition context_fixed (w w' : World) : Prop :=
  ac (sys w') = ac (sys w)
  ∧ masterGain (sys w') = masterGain (sys w)
  ∧ destinationNode (sys w') = destinationNode (sys w).

(** What [setGlobalVolume v] and then [createAudioContext c d] do in a
    world [w] that has no context: the first call throws after it has
    stored [v], and the second applies the stored volume to the master
    gain it creates. *)
Definition volume_remembered (v : Q) (c : option AudioContext)
    (d : option NodeId) (w : World) : Prop :=
  let r := setGlobalVolume v w in
  let r' := createAudioContext c d r.2 in
  let a := match c with Some a => a | None => NewAudioContext end in
  let dest := match d with Some d => d | None => destination a end in
  r.1 = Throw (Error "Call .createAudioContext first")
  ∧ r.2 = with_sys (set_volume v) w
  ∧ r'.1 = Normal tt
  ∧ ac (sys r'.2) = Some a
  ∧ volume (sys r'.2) = v
  ∧ destinationNode (sys r'.2) = Some dest
  ∧ ∃ g n,
      masterGain (sys r'.2) = Some g ∧ gainNodes r'.2 !! g = Some n
      ∧ g_value n = v
      ∧ ((0 < v)%Q → gainConnected (sys r'.2) = Some true ∧ g_outputs n = [dest])
      ∧ ((v <= 0)%Q → gainConnected (sys r'.2) = Some false ∧ g_outputs n = []).

(** A world in which nothing has been loaded, played or scheduled. *)
Definition untouched (w : World) : Prop :=
  acResuming (sys w) = None ∧ masterGain (sys w) = None
  ∧ gainConnected (sys w) = None ∧ destinationNode (sys w) = None
  ∧ sounds (sys w) = ∅ ∧ soundInstances (sys w) = []
  ∧ soundObjs w = [] ∧ instObjs w = [] ∧ gainNodes w = []
  ∧ sourceNodes w = [] ∧ promises w = [] ∧ subLoads w = []
  ∧ callbackLog w = [] ∧ firedLog w = [].

(** What the operations do in a world without a context. *)
Definition needs_context (w : World) : Prop :=
  let e := Error "Call .createAudioContext first" in
  (∀ name v lp tg off fi so cb, play name v lp tg off fi so cb w = (Throw e, w))
  ∧ (∀ tg fo, stop tg fo w = (Throw e, w))
  ∧ (∀ l now, asyncLoadSounds l now w = (Throw e, w))
  ∧ (∀ state, isAudioContextRunning state w = (Throw e, w))
  ∧ (∀ hidden state, visibilitychange hidden state w = (Throw e, w))
  ∧ (∀ state, userGesture state w = (Normal None, w))
  ∧ (∀ name, getSoundBuffer name w = (Throw (soundDoesNotExist name), w))
  ∧ (∀ t, isTagPlaying t w = false).

(** What [getSoundBuffer] returns after the pending chain [l], the [k]-th,
    has stored the buffer [b], and after it has failed. *)
Definition buffer_stored (k : Ref) (l : SubLoad) (b : AudioBuffer) (w : World)
    : Prop :=
  let w' := (settle k (Decoded b) w).2 in
  getSoundBuffer (l_name l) w' = (Normal b, w')
  ∧ (∀ name, name ≠ l_name l →
       (getSoundBuffer name w').1 = (getSoundBuffer name w).1)
  ∧ ∀ o error name, fetch_and_decode o = inl error →
      (getSoundBuffer name (settle k o w).2).1 = (getSoundBuffer name w).1.


(** A session in which [click], whose only place is taken, is loaded
    again. *)
Definition reloading : list Action :=
  oneClick ++ [ALoadSounds [("click", clickInfo)] ""].





(** No [play] of the run is allowed to stop the oldest instance, those
    that the callbacks make included. *)
Definition never_evicts (acts : list Action) : bool :=
  forallb (λ a, match a with
                | APlay _ _ _ _ _ _ stopOldestIfMax _ => negb stopOldestIfMax
                | AEnded _ cb =>
                  forallb (λ c, match c with
                                | CallPlay _ _ _ _ _ _ stopOldestIfMax _ =>
                                  negb stopOldestIfMax
                                | _ => true
                                end) (cr_calls cb)
                | _ => true
                end) acts.

(** No sound object has more instances in its list than [maxSources]
    allows. *)
Definition within_cap (w : World) : Prop :=
  ∀ sr sound, soundObjs w !! sr = Some sound →
    (Z.of_nat (length (instances sound)) <= Z.max 0 (maxSources sound))%Z.

(** Five calls for a sound with room for one instance, with a fade-out in
    between. *)
Definition crowded : list Action :=
  session ++ [APlay "click" 1 false None 0 0 false None;
              APlay "click" 1 false None 0 0 false None;
              AStop None 5;
              APlay "click" 1 true None 0 0 false None;
              ATick 1;
              APlay "click" 1 false None 0 0 false None].

(** ** The invariant of the reachable pages *)

(** The world of the page satisfies [inv]; the keys of [#sounds] are
    listed once each; the flag [#acResuming] is true exactly when one
    promise of [resume()] is in flight, and it is [null] as long as there
    is no context. *)
Record page_inv (p : Page) : Prop := mkPageInv {
  pi_world : inv (world p);
  pi_keys : ∀ name, name ∈ soundKeys p ↔ is_Some (sounds (sys (world p)) !! name);
  pi_nodup : NoDup (soundKeys p);
  pi_flight :
    resumesInFlight p = if truthy (acResuming (sys (world p))) then 1 else 0;
  pi_fresh : ac (sys (world p)) = None → acResuming (sys (world p)) = None
}.

(** The guard of the two listeners, lines 39 and 57, once there is a
    context. *)
Definition mayResume (state : ContextState) (w : World) : bool :=
  bool_decide (ac (sys w) ≠ None) && bool_decide (state = Suspended)
  && negb (truthy (acResuming (sys w))).

(** What [getSoundNames] lists. *)
Definition names_listed (p : Page) : Prop :=
  NoDup (getSoundNames p)
  ∧ (∀ name, name ∈ getSoundNames p ↔
       ∃ b, getSoundBuffer name (world p) = (Normal b, world p))
  ∧ (∀ name, name ∉ getSoundNames p ↔
       getSoundBuffer name (world p) = (Throw (soundDoesNotExist name), world p))
  ∧ ∀ e,
      getSoundNames p `prefix_of` getSoundNames (pageStep e p)
      ∧ ∀ name, sounds (sys (world p)) !! name = None →
          sounds (sys (world (pageStep e p))) !! name ≠ None →
          getSoundNames (pageStep e p) = getSoundNames p ++ [name].

(** How the listeners keep the calls of [resume()] apart. *)
Definition resume_guarded (p : Page) : Prop :=
  (resumesInFlight p ≤ 1)%nat
  ∧ (acResuming (sys (world p)) = Some true ↔ resumesInFlight p = 1%nat)
  ∧ (ac (sys (world p)) = None → resumesInFlight p = 0%nat)
  ∧ (∀ state,
       resumesInFlight (pageStep (EGesture state) p)
       = if bool_decide (ac (sys (world p)) ≠ None ∧ state = Suspended
                         ∧ gestureListeners p ≠ 0%nat)
         then 1%nat else resumesInFlight p)
  ∧ (∀ hidden state,
       resumesInFlight (pageStep (EVisibilityChange hidden state) p)
       = if bool_decide (ac (sys (world p)) ≠ None ∧ hidden = false
                         ∧ state = Suspended)
         then 1%nat else resumesInFlight p)
  ∧ resumesInFlight (pageStep EResumeSettled p) = 0%nat
  ∧ acResuming (sys (world (pageStep EResumeSettled p))) ≠ Some true
  ∧ ∀ state, ac (sys (world p)) ≠ None →
      visibilitychange true state (world p)
      = (Normal (if bool_decide (state = Running) then Some CallSuspend else None),
         world p).

(** A page on which [b] is loaded before [a], and [b] once more after
    that. *)
Definition threeLoads : list Event :=
  [EAction (ACreateAudioContext None None);
   EAction (ALoadSounds [("a", mkSoundInfo "a.wav" 1 1);
                         ("b", mkSoundInfo "b.wav" 1 1)] "");
   EAction (ASettle 1 (Decoded (mkAudioBuffer 1 1)));
   EAction (ASettle 0 (Decoded (mkAudioBuffer 0 1)));
   EAction (ALoadSounds [("b", mkSoundInfo "b2.wav" 1 1)] "");
   EAction (ASettle 2 (Decoded (mkAudioBuffer 2 1)))].

(** A page that was loaded twice over, with a context, on which a key is
    pressed while the context is suspended. *)
Definition keyPressed : list Event :=
  [ELoad; ELoad; EAction (ACreateAudioContext None None); EGesture Suspended].




(** The number of chains of the promise [p] that have not settled. *)
Fixpoint unsettled (p : Ref) (ls : list SubLoad) : nat :=
  match ls with
  | [] => 0
  | l :: ls =>
    (if bool_decide (l_promise l = p) && negb (l_settled l) then 1 else 0)
    + unsettled p ls
  end.

(** What the state [st] of the promise [p] says about the chains of
    [p]. *)
Definition promise_ok (w : World) (p : Ref) (st : PromiseState) : Prop :=
  match st with
  | Pending n =>
    n = unsettled p (subLoads w) ∧ (1 ≤ n)%nat
    ∧ ∀ k l, subLoads w !! k = Some l → l_promise l = p → l_settled l = true →
        is_Some (sounds (sys w) !! l_name l)
  | Fulfilled =>
    ∀ k l, subLoads w !! k = Some l → l_promise l = p →
      l_settled l = true ∧ is_Some (sounds (sys w) !! l_name l)
  | Rejected e =>
    ∃ k l error, subLoads w !! k = Some l ∧ l_promise l = p
      ∧ l_settled l = true ∧ e = loadError (l_url l) error
  end.

Definition promises_ok (w : World) : Prop :=
  ∀ p st, promises w !! p = Some st → promise_ok w p st.

(** What a caller that waits for the promise [p] of [asyncLoadSounds] can
    rely on. *)
Definition promise_outcome (w : World) (p : Ref) : Prop :=
  (promises w !! p = Some Fulfilled →
     ∀ k l, subLoads w !! k = Some l → l_promise l = p →
       l_settled l = true
       ∧ ∃ b, getSoundBuffer (l_name l) w = (Normal b, w))
  ∧ (∀ n, promises w !! p = Some (Pending n) →
       ∃ k l, subLoads w !! k = Some l ∧ l_promise l = p ∧ l_settled l = false)
  ∧ (∀ e, promises w !! p = Some (Rejected e) →
       ∃ k l error, subLoads w !! k = Some l ∧ l_promise l = p
         ∧ l_settled l = true ∧ e = loadError (l_url l) error).


(** What [setGlobalVolume v] leaves as it is. *)
Definition volume_frame (v : Q) (w : World) : Prop :=
  let w' := (setGlobalVolume v w).2 in
  instObjs w' = instObjs w ∧ sourceNodes w' = sourceNodes w
  ∧ soundObjs w' = soundObjs w
  ∧ soundInstances (sys w') = soundInstances (sys w)
  ∧ sounds (sys w') = sounds (sys w)
  ∧ currentTime w' = currentTime w
  ∧ length (gainNodes w') = length (gainNodes w)
  ∧ (∀ i I, instObjs w !! i = Some I →
       gainNodes w' !! gain I = gainNodes w !! gain I)
  ∧ ∀ m n, masterGain (sys w) = Some m → gainNodes w !! m = Some n →
      (g_events <$> gainNodes w' !! m) = Some (g_events n).




(** What [play] leaves as it is in [w], whatever it returns: the table,
    the volume, the loads, the clock, every instance record and every gain
    node; every source node but the one of the oldest instance of the
    sound that is played, which may get a [stop()]; and every sound object
    but the one that the name designates. *)
Definition play_frame (name : string) (volume0 : Q) (loop : bool)
    (tag0 : option Tag) (offset fadeIn : Q) (so : bool) (cb : option nat)
    (w : World) : Prop :=
  let w' := (play name volume0 loop tag0 offset fadeIn so cb w).2 in
  sounds (sys w') = sounds (sys w) ∧ volume (sys w') = volume (sys w)
  ∧ gainConnected (sys w') = gainConnected (sys w)
  ∧ promises w' = promises w ∧ subLoads w' = subLoads w
  ∧ currentTime w' = currentTime w
  ∧ callbackLog w' = callbackLog w ∧ firedLog w' = firedLog w
  ∧ (∀ i I, instObjs w !! i = Some I → instObjs w' !! i = Some I)
  ∧ (∀ g n, gainNodes w !! g = Some n → gainNodes w' !! g = Some n)
  ∧ (∀ s n, sourceNodes w !! s = Some n →
       sourceNodes w' !! s = Some n
       ∨ (so = true
          ∧ (∃ sr sound rest, sounds (sys w) !! name = Some sr
               ∧ soundObjs w !! sr = Some sound ∧ full sound = true
               ∧ instances sound = s :: rest)
          ∧ sourceNodes w' !! s
            = Some (set_s_stopCalls (s_stopCalls n ++ [None]) n)))
  ∧ ∀ r S, soundObjs w !! r = Some S → sounds (sys w) !! name ≠ Some r →
      soundObjs w' !! r = Some S.



(** * Properties *)

(** ** Lists: [indexOf] and [splice] *)

Lemma indexOf_ge x l : (-1 <= indexOf x l)%Z.
Proof.
  induction l as [|y l IH]; cbn; [lia|].
  case_bool_decide; [lia|]. destruct (indexOf x l >? (-1))%Z; lia.
Qed.

Lemma indexOf_absent x l : x ∉ l → indexOf x l = (-1)%Z.
Proof.
  induction l as [|y l IH]; cbn; [done|].
  intros Hx. apply not_elem_of_cons in Hx as [Hne Hx].
  case_bool_decide; [congruence|]. rewrite (IH Hx). done.
Qed.

(** When [x] occurs, [indexOf] finds its first occurrence and
    [splice] takes exactly that one out. *)
Lemma splice1_indexOf x l :
  x ∈ l →
  ∃ l1 l2, l = l1 ++ x :: l2 ∧ (x ∉ l1) ∧
    (indexOf x l >? (-1))%Z = true ∧ splice1 (indexOf x l) l = l1 ++ l2.
Proof.
  induction l as [|y l IH].
  { intros Hx. by apply elem_of_nil in Hx. }
  intros Hx. cbn. case_bool_decide as Hy.
  - subst y. exists [], l. split; [done|]. split; [apply not_elem_of_nil|]. done.
  - apply elem_of_cons in Hx as [->|Hx]; [done|].
    destruct (IH Hx) as (l1 & l2 & -> & Hl1 & Hpos & Hsp).
    rewrite Hpos. exists (y :: l1), l2. split; [done|]. split; [|split].
    + apply not_elem_of_cons. split; [congruence | done].
    + pose proof (indexOf_ge x (l1 ++ x :: l2)). apply Z.gtb_lt. lia.
    + unfold splice1 in *. apply Z.gtb_lt in Hpos.
      replace (Z.to_nat (indexOf x (l1 ++ x :: l2) + 1)) with
        (S (Z.to_nat (indexOf x (l1 ++ x :: l2)))) by lia.
      cbn. f_equal. exact Hsp.
Qed.

Lemma indexOf_present x l : x ∈ l ↔ (indexOf x l >? (-1))%Z = true.
Proof.
  split.
  - intros Hx. by destruct (splice1_indexOf x l Hx) as (? & ? & ? & ? & ? & ?).
  - intros Hpos. destruct (decide (x ∈ l)) as [|Hn]; [done|].
    rewrite (indexOf_absent _ _ Hn) in Hpos. done.
Qed.

Lemma removed_NoDup x l : NoDup l → NoDup (removed x l).
Proof.
  intros Hnd. unfold removed.
  destruct (indexOf x l >? (-1))%Z eqn:Hpos; [|done].
  apply indexOf_present in Hpos.
  destruct (splice1_indexOf x l Hpos) as (l1 & l2 & -> & _ & _ & ->).
  apply NoDup_app in Hnd as (H1 & H2 & H3).
  apply NoDup_cons in H3 as [_ H3].
  apply NoDup_app. repeat split; [done| |done].
  intros y Hy Hy2. apply (H2 y Hy). by right.
Qed.

Lemma removed_elem x y l : NoDup l → y ∈ removed x l ↔ y ∈ l ∧ y ≠ x.
Proof.
  intros Hnd. unfold removed.
  destruct (indexOf x l >? (-1))%Z eqn:Hpos.
  - apply indexOf_present in Hpos.
    destruct (splice1_indexOf x l Hpos) as (l1 & l2 & -> & Hl1 & _ & ->).
    apply NoDup_app in Hnd as (_ & H2 & H3).
    apply NoDup_cons in H3 as [Hx2 _].
    rewrite !elem_of_app, elem_of_cons. split.
    + intros [Hy|Hy]; (split; [tauto|intros ->; tauto]).
    + intros [[Hy|[->|Hy]] Hne]; tauto.
  - split; [|tauto]. intros Hy. split; [done|]. intros ->.
    apply indexOf_present in Hy. congruence.
Qed.

Lemma removed_sorted x l :
  StronglySorted lt l → StronglySorted lt (removed x l).
Proof.
  intros Hs. unfold removed.
  destruct (indexOf x l >? (-1))%Z eqn:Hpos; [|done].
  apply indexOf_present in Hpos.
  destruct (splice1_indexOf x l Hpos) as (l1 & l2 & -> & _ & _ & ->).
  apply StronglySorted_app in Hs as (H12 & H1 & H2).
  apply StronglySorted_cons in H2 as [_ H2].
  apply StronglySorted_app. split; [|done].
  intros x1 x2 Hx1 Hx2. apply H12; [done|]. by right.
Qed.

Lemma lookup_snoc {A} (l : list A) (x : A) : (l ++ [x]) !! length l = Some x.
Proof. by apply list_lookup_middle. Qed.

Lemma insert_snoc {A} (l : list A) (x y : A) :
  <[length l := y]> (l ++ [x]) = l ++ [y].
Proof.
  rewrite insert_app_r_alt by lia. by rewrite Nat.sub_diag.
Qed.

(** ** The invariant of the reachable worlds *)

Lemma inv_initial : inv initialWorld.
Proof.
  constructor; cbn; try done.
  all: try (intros i Hi; by apply elem_of_nil in Hi).
  all: apply NoDup_nil_2.
Qed.

(** *** Updates that keep the invariant *)

(** Worlds are taken apart before an operation is evaluated, so that each
    intermediate world is an explicit record. *)
Ltac world_destruct w :=
  let s := fresh "s" in
  destruct w as [s Wso Wio Wgn Wsn Wct Wpr Wsl Wcl Wfl];
  destruct s as [Wac War Wmg Wgc Wdn Wvol Wsnd Wsi];
  unfold master_ok, inst_ok in *; cbn in *; subst.

Ltac inv_split H :=
  destruct H as [Hctx Hmaster Htable Hsources Hglobal Hglobalb Hlists
                 Hfired Hfiredb Hloads Hinst Hgains Hsorted].

Lemma inv_gain_update w g x :
  inv w → masterGain (sys w) ≠ Some g →
  inv (with_gainNodes (λ l, <[g := x]> l) w).
Proof.
  intros Hinv Hg. inv_split Hinv. world_destruct w. constructor; cbn; try done.
  - intros Hac. destruct (Hmaster Hac) as (g0 & d & n & Hm & Hd & Hn & Hrest).
    exists g0, d, n. cbn. split; [done|]. split; [done|]. split; [|done].
    rewrite list_lookup_insert_ne; [done|]. congruence.
  - intros i I HI. destruct (Hinst i I HI) as (Hs & Hgl & Hm & Hn).
    unfold inst_ok. cbn. rewrite length_insert. done.
Qed.

Lemma inv_gain_update_ctx w g x :
  inv w → (ac (sys w) ≠ None → masterGain (sys w) ≠ Some g) →
  inv (with_gainNodes (λ l, <[g := x]> l) w).
Proof.
  intros Hinv Hg. inv_split Hinv. world_destruct w. constructor; cbn; try done.
  - intros Hac. destruct (Hmaster Hac) as (g0 & d & n & Hm & Hd & Hn & Hrest).
    exists g0, d, n. cbn. split; [done|]. split; [done|]. split; [|done].
    rewrite list_lookup_insert_ne; [done|]. specialize (Hg Hac). congruence.
  - intros i I HI. destruct (Hinst i I HI) as (Hs & Hgl & Hm & Hn).
    unfold inst_ok. cbn. rewrite length_insert. done.
Qed.

Lemma inv_gain_alloc w x :
  inv w → inv (with_gainNodes (λ l, l ++ [x]) w).
Proof.
  intros Hinv. inv_split Hinv. world_destruct w. constructor; cbn; try done.
  - intros Hac. destruct (Hmaster Hac) as (g0 & d & n & Hm & Hd & Hn & Hrest).
    exists g0, d, n. cbn. split; [done|]. split; [done|]. split; [|done].
    rewrite lookup_app_l; [done|]. by apply lookup_lt_Some in Hn.
  - intros i I HI. destruct (Hinst i I HI) as (Hs & Hgl & Hm & Hn).
    unfold inst_ok. cbn. rewrite length_app. cbn. split; [done|].
    split; [lia|done].
Qed.

Lemma inv_source_update w s n n' :
  inv w → sourceNodes w !! s = Some n →
  s_onended n' = s_onended n → (s_started n ≠ None → s_started n' ≠ None) →
  s_ended n' = s_ended n →
  inv (with_sourceNodes (λ l, <[s := n']> l) w).
Proof.
  intros Hinv Hs Ho Hst He. inv_split Hinv. world_destruct w. constructor; cbn; try done.
  - by rewrite length_insert.
  - intros i I HI.
    destruct (Hinst i I HI) as (Hsrc & Hgl & Hm & m & cb & r & Hn & Hrest).
    unfold inst_ok. cbn. split; [done|]. split; [done|]. split; [done|].
    destruct (decide (i = s)) as [->|Hne].
    + exists n', cb, r. rewrite list_lookup_insert_eq by (by apply lookup_lt_Some in Hs).
      assert (m = n) as -> by congruence.
      rewrite Ho, He. destruct Hrest as (? & Hse & ?).
      split; [done|]. split; [done|]. split; [|done]. auto.
    + exists m, cb, r. rewrite list_lookup_insert_ne by done. done.
Qed.

Lemma inv_stopping w r I b :
  inv w → instObjs w !! r = Some I →
  inv (with_instObjs (λ l, <[r := set_stopping b I]> l) w).
Proof.
  intros Hinv HI. inv_split Hinv. world_destruct w. constructor; cbn; try done.
  - by rewrite length_insert.
  - intros i. rewrite length_insert. apply Hglobalb.
  - intros r' S HS. rewrite length_insert. exact (Hlists r' S HS).
  - intros i. rewrite length_insert. apply Hfiredb.
  - intros i J HJ. destruct (decide (i = r)) as [->|Hne].
    + rewrite list_lookup_insert_eq in HJ by (by apply lookup_lt_Some in HI).
      injection HJ as <-. apply (Hinst r I HI).
    + rewrite list_lookup_insert_ne in HJ by done. apply (Hinst i J HJ).
  - intros i j J1 J2 H1 H2.
    assert (∀ k J, <[r:=set_stopping b I]> Wio !! k = Some J →
              ∃ J', Wio !! k = Some J' ∧ gain J' = gain J) as Hback.
    { intros k J HJ. destruct (decide (k = r)) as [->|Hne].
      - rewrite list_lookup_insert_eq in HJ by (by apply lookup_lt_Some in HI).
        injection HJ as <-. by exists I.
      - rewrite list_lookup_insert_ne in HJ by done. by exists J. }
    destruct (Hback i J1 H1) as (J1' & H1' & <-).
    destruct (Hback j J2 H2) as (J2' & H2' & <-).
    by apply (Hgains i j J1' J2').
Qed.

Lemma inv_time w f : inv w → inv (with_currentTime f w).
Proof. intros Hinv. inv_split Hinv. world_destruct w. by constructor. Qed.

(** ** Evaluating the operations *)

Ltac js_unfold :=
  unfold mbind, JS_bind, mret, JS_ret, mthrow, JS_throw, deref, gets, modify.

Lemma AudioSystem_eq s1 s2 :
  ac s1 = ac s2 → acResuming s1 = acResuming s2 →
  masterGain s1 = masterGain s2 → gainConnected s1 = gainConnected s2 →
  destinationNode s1 = destinationNode s2 → volume s1 = volume s2 →
  sounds s1 = sounds s2 → soundInstances s1 = soundInstances s2 → s1 = s2.
Proof. destruct s1, s2; cbn; intros; by subst. Qed.

Lemma World_eq w1 w2 :
  sys w1 = sys w2 → soundObjs w1 = soundObjs w2 → instObjs w1 = instObjs w2 →
  gainNodes w1 = gainNodes w2 → sourceNodes w1 = sourceNodes w2 →
  currentTime w1 = currentTime w2 → promises w1 = promises w2 →
  subLoads w1 = subLoads w2 → callbackLog w1 = callbackLog w2 →
  firedLog w1 = firedLog w2 → w1 = w2.
Proof. destruct w1, w2; cbn; intros; by subst. Qed.

(** Two worlds are equal when their fields are. *)
Ltac world_eq :=
  apply World_eq; cbn; [apply AudioSystem_eq; cbn|..]; try reflexivity.

(** Symbolic evaluation of heap reads after writes. *)
Ltac js_eval :=
  repeat (progress
    (cbn;
     rewrite ?lookup_snoc, ?insert_snoc;
     rewrite ?list_lookup_insert_eq
       by (rewrite ?length_app, ?length_insert; cbn; first [done | lia]))).

Lemma setGlobalVolume_no_context v w :
  ac (sys w) = None →
  setGlobalVolume v w =
    (Throw (Error "Call .createAudioContext first"), with_sys (set_volume v) w).
Proof.
  intros Hac. unfold setGlobalVolume, getAudioContext. js_unfold.
  by world_destruct w.
Qed.

Lemma setGlobalVolume_eval v w a g d n :
  ac (sys w) = Some a →
  masterGain (sys w) = Some g → destinationNode (sys w) = Some d →
  gainNodes w !! g = Some n →
  gainConnected (sys w) = Some (Qgtb (volume (sys w)) 0) →
  g_outputs n = (if Qgtb (volume (sys w)) 0 then [d] else []) →
  setGlobalVolume v w = (Normal tt, volumeSet v g n d w).
Proof.
  intros Hac Hg Hd Hn Hc Ho.
  assert (g < length (gainNodes w)) as Hlt by (by apply lookup_lt_Some in Hn).
  unfold setGlobalVolume, getAudioContext, gain_set_value, gain_disconnect,
    gain_connect, update_gain, volumeSet.
  js_unfold. world_destruct w. js_eval. rewrite Hn. unfold Qgtb, Qleb in *.
  destruct (Qle_bool v 0) eqn:Ev, (Qle_bool Wvol 0) eqn:Evol; js_eval;
    (f_equal; world_eq; rewrite ?list_insert_insert_eq, ?Ho; reflexivity).
Qed.

Lemma inv_volumeSet v g n d w :
  inv w → ac (sys w) ≠ None →
  masterGain (sys w) = Some g → destinationNode (sys w) = Some d →
  gainNodes w !! g = Some n →
  inv (volumeSet v g n d w).
Proof.
  intros Hinv Hac Hg Hd Hn. inv_split Hinv.
  assert (g < length (gainNodes w)) as Hlt by (by apply lookup_lt_Some in Hn).
  world_destruct w. constructor; cbn; try done.
  - intros _. destruct (Hmaster Hac) as (g0 & d0 & n0 & Hg0 & _ & Hn0 & _ & He0 & _).
    assert (n0 = n) as -> by congruence.
    eexists g, d, _. cbn. split; [done|]. split; [done|].
    split; [by apply list_lookup_insert_eq|]. done.
  - intros i I HI. destruct (Hinst i I HI) as (Hs & Hgl & Hm & Hrest).
    unfold inst_ok. cbn. rewrite length_insert. done.
Qed.

Lemma inv_volume_no_context v w :
  inv w → ac (sys w) = None → inv (with_sys (set_volume v) w).
Proof.
  intros Hinv Hac. inv_split Hinv. world_destruct w.
  constructor; cbn; try done.
Qed.

Lemma createAudioContext_eval c dn w :
  ac (sys w) = None →
  createAudioContext c dn w = (Normal tt, contextCreated c dn w).
Proof.
  intros Hac.
  unfold createAudioContext, createGain, setGlobalVolume, getAudioContext,
    gain_set_value, gain_disconnect, gain_connect, update_gain, contextCreated.
  js_unfold. world_destruct w. unfold Qgtb, Qleb. js_eval.
  destruct (Qle_bool Wvol 0) eqn:Ev; js_eval;
    (f_equal; world_eq;
     rewrite ?insert_snoc, ?list_insert_insert_eq, ?insert_snoc; reflexivity).
Qed.

Lemma createAudioContext_already c dn w :
  ac (sys w) ≠ None →
  createAudioContext c dn w = (Throw (Error "AudioContext already created"), w).
Proof.
  intros Hac. unfold createAudioContext. js_unfold. world_destruct w.
  by rewrite bool_decide_eq_true_2.
Qed.

Lemma inv_contextCreated c dn w :
  inv w → ac (sys w) = None → inv (contextCreated c dn w).
Proof.
  intros Hinv Hac. inv_split Hinv. world_destruct w.
  constructor; cbn; try done.
  - intros _. eexists _, _, _. cbn. split; [done|]. split; [done|].
    split; [apply lookup_snoc|]. done.
  - intros i I HI. destruct (Hinst i I HI) as (Hs & Hgl & Hm & Hrest).
    unfold inst_ok. cbn. rewrite length_app. cbn. split; [done|].
    split; [lia|]. split; [|done]. intros [=]. lia.
Qed.

(** *** Loading *)

Lemma asyncLoadSounds_no_context l now w :
  ac (sys w) = None →
  asyncLoadSounds l now w = (Throw (Error "Call .createAudioContext first"), w).
Proof.
  intros Hac. unfold asyncLoadSounds, getAudioContext. js_unfold.
  by world_destruct w.
Qed.

Lemma asyncLoadSounds_eval l now w a :
  ac (sys w) = Some a →
  asyncLoadSounds l now w = (Normal (length (promises w)), loadsStarted l now w).
Proof.
  intros Hac. unfold asyncLoadSounds, getAudioContext. js_unfold.
  by world_destruct w.
Qed.

Lemma inv_loadsStarted l now w :
  inv w → ac (sys w) ≠ None → inv (loadsStarted l now w).
Proof.
  intros Hinv Hac. inv_split Hinv. world_destruct w.
  constructor; cbn; try done.
  intros k sl. rewrite length_app. cbn. intros Hk.
  apply lookup_app_Some in Hk as [Hk|[_ Hk]].
  - apply Hloads in Hk as [Hk Hu]. split; [lia|done].
  - apply list_lookup_fmap_Some in Hk as (ni & -> & _). cbn.
    split; [lia|]. by exists now.
Qed.

Lemma settle_eval k o w l st :
  subLoads w !! k = Some l → l_settled l = false →
  promises w !! l_promise l = Some st →
  settle k o w = (Normal tt, settled k l o st w).
Proof.
  intros Hk Hs Hp. unfold settle, promise_fulfil_one, promise_reject, settled.
  js_unfold. world_destruct w. rewrite Hk. js_eval. rewrite Hs. js_eval.
  destruct (fetch_and_decode o) as [e|b]; js_eval; rewrite Hp; js_eval.
  - destruct st; js_eval; try done; by rewrite (list_insert_id _ _ _ Hp).
  - destruct st as [[|[|n]]| |]; js_eval; try done;
      by rewrite (list_insert_id _ _ _ Hp).
Qed.

Lemma settle_skip k o w :
  (∀ l, subLoads w !! k = Some l → l_settled l = true) →
  (settle k o w).2 = w.
Proof.
  intros Hk. unfold settle. js_unfold. world_destruct w.
  destruct (Wsl !! k) as [l|] eqn:E; cbn; [|done].
  by rewrite (Hk l eq_refl).
Qed.

Lemma inv_settled k l o st w :
  inv w → subLoads w !! k = Some l → inv (settled k l o st w).
Proof.
  intros Hinv Hk. inv_split Hinv. unfold settled. world_destruct w.
  assert (Wac ≠ None) as Hac.
  { intros Hac. destruct (Hctx Hac) as [Hsl _]. by rewrite Hsl in Hk. }
  assert (∀ k' l',
    <[k := mkSubLoad (l_promise l) (l_name l) (l_info l) (l_url l) true]> Wsl
      !! k' = Some l' →
    l_promise l' < length Wpr ∧ ∃ now, l_url l' = url_of now (l_info l'))
    as Hloads'.
  { intros k' l' Hk'. destruct (decide (k' = k)) as [->|Hne].
    - rewrite list_lookup_insert_eq in Hk' by (by apply lookup_lt_Some in Hk).
      injection Hk' as <-. cbn. by apply (Hloads k l).
    - rewrite list_lookup_insert_ne in Hk' by done. by apply (Hloads k' l'). }
  destruct (fetch_and_decode o) as [e|b].
  - constructor; cbn; try done.
    intros k' l'. rewrite length_insert. apply Hloads'.
  - constructor; cbn; try done.
    + intros name r. rewrite length_app. cbn.
      destruct (decide (name = l_name l)) as [->|Hne].
      * rewrite lookup_insert_eq. intros [= <-]. lia.
      * rewrite lookup_insert_ne by done. intros Hr. apply Htable in Hr. lia.
    + intros r S HS. apply lookup_app_Some in HS as [HS|[_ HS]].
      * by apply (Hlists r S).
      * destruct (r - length Wso) as [|?]; [|done].
        injection HS as <-. cbn. split; [apply NoDup_nil_2|].
        intros i Hi. by apply elem_of_nil in Hi.
    + intros k' l'. rewrite length_insert. apply Hloads'.
    + intros i I HI.
      destruct (Hinst i I HI)
        as (Hsrc & Hgl & Hm & n & cb & r & Hn & Ho & Hst & Hr & Hg & Hl & Hf).
      unfold inst_ok. cbn. split; [done|]. split; [done|]. split; [done|].
      exists n, cb, r. split; [done|]. split; [done|]. split; [done|].
      rewrite length_app. cbn. split; [lia|]. split; [done|]. split; [|done].
      intros r' S HS. apply lookup_app_Some in HS as [HS|[Hge HS]].
      * by apply Hl.
      * destruct (r' - length Wso) as [|?] eqn:E; [|done].
        injection HS as <-. cbn. split.
        -- intros Hi. by apply elem_of_nil in Hi.
        -- intros [-> _]. lia.
    + intros r S HS. apply lookup_app_Some in HS as [HS|[_ HS]].
      * by apply (Hsorted r S).
      * destruct (r - length Wso) as [|?]; [|done].
        injection HS as <-. cbn. constructor.
Qed.

(** *** Stopping *)

Lemma floorValue_toFloat32 : Qeq_bool (toFloat32 floorValue) 0 = false.
Proof. by vm_compute. Qed.

Lemma stop_at_eval tag fade i w r I gn sn :
  soundInstances (sys w) !! i = Some r → instObjs w !! r = Some I →
  gainNodes w !! gain I = Some gn → sourceNodes w !! source I = Some sn →
  stop_at tag fade i w =
    (if skipped tag I || bool_decide (s_started sn ≠ None) then Normal tt
     else Throw stopError,
     if skipped tag I then w else stopInstance fade r I gn sn w).
Proof.
  intros Hi Hr Hg Hs.
  assert (gain I < length (gainNodes w)) by (by apply lookup_lt_Some in Hg).
  assert (source I < length (sourceNodes w)) by (by apply lookup_lt_Some in Hs).
  unfold stop_at, source_stop, gain_get_value, gain_setValueAtTime,
    gain_exponentialRampToValueAtTime, update_source, update_gain, stopInstance,
    stoppedSource, fadedGain, stopCall, fadeOut, stopError.
  js_unfold. world_destruct w. rewrite Hi. js_eval. rewrite Hr. js_eval.
  destruct (skipped tag I); [done|]. js_eval.
  destruct (Qleb fade 0);
    repeat (progress (js_eval; rewrite ?Hg, ?Hs, ?floorValue_toFloat32)).
  - rewrite app_nil_r.
    replace (mkGainNode (g_value gn) (g_events gn) (g_outputs gn)) with gn
      by (by destruct gn).
    rewrite (list_insert_id _ _ _ Hg).
    destruct (s_started sn) as [t|] eqn:Est; js_eval; rewrite ?Hs; js_eval.
    + done.
    + by rewrite (list_insert_id _ _ _ Hs).
  - rewrite list_insert_insert_eq, <- app_assoc.
    destruct (s_started sn) as [t|] eqn:Est; js_eval; rewrite ?Hs; js_eval.
    + done.
    + by rewrite (list_insert_id _ _ _ Hs).
Qed.

Lemma inv_stopInstance fade r I gn sn w :
  inv w → instObjs w !! r = Some I →
  gainNodes w !! gain I = Some gn → sourceNodes w !! source I = Some sn →
  inv (stopInstance fade r I gn sn w).
Proof.
  intros Hinv Hr Hg Hs. unfold stopInstance.
  assert (masterGain (sys w) ≠ Some (gain I)) as Hm.
  { by destruct (inv_inst w Hinv r I Hr) as (_ & _ & Hm & _). }
  apply inv_source_update with (n := sn);
    [|by destruct w|unfold stoppedSource; by case_bool_decide..].
  apply inv_gain_update; [|by destruct w].
  by apply inv_stopping.
Qed.

Lemma hit_nil filter r I : hit filter [] r I = false.
Proof.
  unfold hit. rewrite bool_decide_eq_false_2; [done|]. apply not_elem_of_nil.
Qed.

Lemma skipped_stopping filter I : skipped filter (set_stopping true I) = true.
Proof. done. Qed.

Lemma stop_rel_refl filter fade w : stop_rel filter fade [] w w.
Proof.
  constructor; try done.
  - intros r. destruct (instObjs w !! r) as [I|]; cbn; [|done].
    by rewrite hit_nil.
  - intros r I _. rewrite hit_nil. by destruct (sourceNodes w !! source I).
  - intros r I _. rewrite hit_nil. by destruct (gainNodes w !! gain I).
Qed.

(** Running the loop over [sel1] and then over [sel2]. *)
Lemma hit_app filter sel1 sel2 r I :
  hit filter (sel2 ++ sel1) r I
  = hit filter sel1 r I
    || hit filter sel2 r (if hit filter sel1 r I then set_stopping true I else I).
Proof.
  unfold hit at 1 2 4.
  destruct (skipped filter I) eqn:Hsk.
  - rewrite !andb_false_r. cbn. unfold hit. rewrite Hsk. by rewrite andb_false_r.
  - rewrite !andb_true_r. destruct (decide (r ∈ sel1)) as [H1|H1].
    + rewrite (bool_decide_eq_true_2 _ H1). cbn.
      rewrite bool_decide_eq_true_2; [done|]. apply elem_of_app. by right.
    + rewrite (bool_decide_eq_false_2 _ H1). cbn. unfold hit. rewrite Hsk.
      rewrite andb_true_r. apply bool_decide_ext. rewrite elem_of_app. tauto.
Qed.

Lemma stop_rel_trans filter fade sel1 sel2 w w1 w' :
  stop_rel filter fade sel1 w w1 → stop_rel filter fade sel2 w1 w' →
  stop_rel filter fade (sel2 ++ sel1) w w'.
Proof.
  intros H1 H2. destruct H1, H2.
  assert (∀ r I, instObjs w !! r = Some I →
    instObjs w1 !! r =
      Some (if hit filter sel1 r I then set_stopping true I else I)) as Hw1.
  { intros r I HI. by rewrite sr_inst0, HI. }
  assert (∀ r I (J := if hit filter sel1 r I then set_stopping true I else I),
    hit filter sel2 r J = true → hit filter sel1 r I = false) as Hexcl.
  { intros r I J. subst J. destruct (hit filter sel1 r I); [|done].
    unfold hit. rewrite skipped_stopping. by rewrite andb_false_r. }
  constructor; try congruence.
  - intros r. rewrite sr_inst1, sr_inst0.
    destruct (instObjs w !! r) as [I|]; cbn; [|done]. f_equal.
    rewrite hit_app. destruct (hit filter sel1 r I) eqn:E1; cbn.
    + unfold hit. rewrite skipped_stopping. by rewrite andb_false_r.
    + done.
  - intros r I HI. pose proof (Hw1 r I HI) as HJ.
    pose proof (sr_source1 r _ HJ) as Hs2.
    replace (source (if hit filter sel1 r I then set_stopping true I else I))
      with (source I) in Hs2 by (by destruct (hit filter sel1 r I)).
    rewrite Hs2, (sr_source0 r I HI), sr_time0.
    destruct (sourceNodes w !! source I) as [sn|]; cbn; [|done]. f_equal.
    rewrite hit_app. destruct (hit filter sel1 r I) eqn:E1; cbn.
    + unfold hit. rewrite skipped_stopping. by rewrite andb_false_r.
    + done.
  - intros r I HI. pose proof (Hw1 r I HI) as HJ.
    pose proof (sr_gain1 r _ HJ) as Hs2.
    replace (gain (if hit filter sel1 r I then set_stopping true I else I))
      with (gain I) in Hs2 by (by destruct (hit filter sel1 r I)).
    rewrite Hs2, (sr_gain0 r I HI), sr_time0.
    destruct (gainNodes w !! gain I) as [gn|]; cbn; [|done]. f_equal.
    rewrite hit_app. destruct (hit filter sel1 r I) eqn:E1; cbn.
    + unfold hit. rewrite skipped_stopping. by rewrite andb_false_r.
    + done.
  - intros g Hg. rewrite sr_gain_other1; [by apply sr_gain_other0|].
    intros r J HJ. rewrite sr_inst0 in HJ.
    destruct (instObjs w !! r) as [I|] eqn:HI; [|done]. cbn in HJ.
    injection HJ as <-. specialize (Hg r I HI).
    by destruct (hit filter sel1 r I).
Qed.

Lemma hit_single filter r r' I :
  hit filter [r] r' I = bool_decide (r' = r) && negb (skipped filter I).
Proof.
  unfold hit. f_equal. apply bool_decide_ext. rewrite list_elem_of_singleton.
  done.
Qed.

(** One iteration of the loop. *)
Lemma stop_rel_one filter fade r I gn sn w :
  inv w → instObjs w !! r = Some I →
  gainNodes w !! gain I = Some gn → sourceNodes w !! source I = Some sn →
  stop_rel filter fade [r] w
    (if skipped filter I then w else stopInstance fade r I gn sn w).
Proof.
  intros Hinv Hr Hg Hs.
  assert (∀ r' I', hit filter [r] r' I' = true → r' = r) as Hhit.
  { intros r' I'. rewrite hit_single. intros [H _]%andb_prop.
    by apply bool_decide_eq_true in H. }
  assert (∀ r' I', r' ≠ r → hit filter [r] r' I' = false) as Hmiss.
  { intros r' I' Hne. rewrite hit_single.
    by rewrite bool_decide_eq_false_2. }
  destruct (skipped filter I) eqn:Hsk.
  - assert (∀ r' I', instObjs w !! r' = Some I' → hit filter [r] r' I' = false)
      as Hno.
    { intros r' I' HI'. destruct (decide (r' = r)) as [->|Hne]; [|by apply Hmiss].
      rewrite hit_single. assert (I' = I) as -> by congruence.
      by rewrite Hsk, andb_false_r. }
    constructor; try done.
    + intros r'. destruct (instObjs w !! r') as [I'|] eqn:E; cbn; [|done].
      by rewrite (Hno r' I' E).
    + intros r' I' HI'. rewrite (Hno r' I' HI').
      by destruct (sourceNodes w !! source I').
    + intros r' I' HI'. rewrite (Hno r' I' HI').
      by destruct (gainNodes w !! gain I').
  - assert (hit filter [r] r I = true) as Hyes.
    { rewrite hit_single, Hsk. by rewrite bool_decide_eq_true_2. }
    assert (r < length (instObjs w)) by (by apply lookup_lt_Some in Hr).
    assert (gain I < length (gainNodes w)) by (by apply lookup_lt_Some in Hg).
    assert (source I < length (sourceNodes w)) by (by apply lookup_lt_Some in Hs).
    pose proof (inv_inst w Hinv) as Hinst. pose proof (inv_gains w Hinv) as Hgains.
    unfold stopInstance. world_destruct w. constructor; cbn; try done.
    + by rewrite length_insert.
    + intros r'. destruct (decide (r' = r)) as [->|Hne].
      * rewrite list_lookup_insert_eq by done. rewrite Hr. cbn. by rewrite Hyes.
      * rewrite list_lookup_insert_ne by done.
        destruct (Wio !! r') as [I'|]; cbn; [|done]. by rewrite Hmiss.
    + intros r' I' HI'. destruct (decide (r' = r)) as [->|Hne].
      * assert (I' = I) as -> by congruence.
        rewrite list_lookup_insert_eq by done. rewrite Hs. cbn. by rewrite Hyes.
      * rewrite (Hmiss r' I' Hne).
        destruct (Hinst r' I' HI') as (Hs' & _). destruct (Hinst r I Hr) as (Hs0 & _).
        rewrite list_lookup_insert_ne by congruence.
        by destruct (Wsn !! source I').
    + intros r' I' HI'. destruct (decide (r' = r)) as [->|Hne].
      * assert (I' = I) as -> by congruence.
        rewrite list_lookup_insert_eq by done. rewrite Hg. cbn. by rewrite Hyes.
      * rewrite (Hmiss r' I' Hne).
        rewrite list_lookup_insert_ne.
        -- by destruct (Wgn !! gain I').
        -- intros Heq. apply Hne. symmetry. by apply (Hgains r r' I I').
    + intros g Hother. rewrite list_lookup_insert_ne; [done|].
      by apply (Hother r I).
Qed.

(** The loop leaves every source started or not as it was. *)
Lemma stop_rel_startedAt filter fade sel w w' r :
  stop_rel filter fade sel w w' → startedAt w' r = startedAt w r.
Proof.
  intros H. unfold startedAt. rewrite (sr_inst _ _ _ _ _ H).
  destruct (instObjs w !! r) as [I|] eqn:HI; cbn; [|done].
  replace (source (if hit filter sel r I then set_stopping true I else I))
    with (source I) by (by destruct (hit filter sel r I)).
  rewrite (sr_source _ _ _ _ _ H r I HI).
  destruct (sourceNodes w !! source I) as [sn|]; cbn; [|done].
  unfold stoppedSource.
  destruct (hit filter sel r I); [|done].
  by destruct (bool_decide (s_started sn = None)).
Qed.

(** The loop from index [k - 1] down: it goes through the instances until
    a source refuses its [stop]; when every source was started it goes
    through all of them. *)
Lemma stop_loop_spec filter fade k w :
  inv w → (k ≤ length (soundInstances (sys w)))%nat →
  ∃ c w' sel, stop_loop filter fade k w = (c, w') ∧ inv w' ∧
    sel ⊆ take k (soundInstances (sys w)) ∧
    stop_rel filter fade sel w w' ∧
    (forallb (startedAt w) (take k (soundInstances (sys w))) = true →
       c = Normal tt ∧ sel = take k (soundInstances (sys w))).
Proof.
  revert w. induction k as [|i IH]; intros w Hinv Hk.
  - exists (Normal tt), w, []. split; [done|]. split; [done|]. rewrite take_0.
    split; [done|]. split; [apply stop_rel_refl|done].
  - destruct (lookup_lt_is_Some_2 (soundInstances (sys w)) i) as [r Hi]; [lia|].
    assert (r < length (instObjs w)) as Hlt.
    { apply (inv_global_bound w Hinv). by apply list_elem_of_lookup_2 in Hi. }
    destruct (lookup_lt_is_Some_2 _ _ Hlt) as [I Hr].
    destruct (inv_inst w Hinv r I Hr) as (Hsrc & Hgl & _ & sn & _ & _ & Hs & _).
    destruct (lookup_lt_is_Some_2 _ _ Hgl) as [gn Hg].
    rewrite <- Hsrc in Hs.
    pose proof (stop_at_eval filter fade i w r I gn sn Hi Hr Hg Hs) as Hat.
    pose proof (stop_rel_one filter fade r I gn sn w Hinv Hr Hg Hs) as Hone.
    set (w1 := if skipped filter I then w else stopInstance fade r I gn sn w) in *.
    assert (inv w1) as Hinv1.
    { subst w1. destruct (skipped filter I); [done|]. by apply inv_stopInstance. }
    assert (soundInstances (sys w1) = soundInstances (sys w)) as Hsame.
    { by rewrite (sr_sys _ _ _ _ _ Hone). }
    assert (startedAt w r = bool_decide (s_started sn ≠ None)) as Hst.
    { unfold startedAt. by rewrite Hr, Hs. }
    rewrite (take_S_r _ _ _ Hi).
    destruct (skipped filter I || bool_decide (s_started sn ≠ None)) eqn:Ego.
    + destruct (IH w1 Hinv1) as (c & w' & sel & Hloop & Hinv' & Hsub & Hrel & Hall);
        [rewrite Hsame; lia|].
      rewrite Hsame in Hsub, Hall.
      exists c, w', (sel ++ [r]). split; [|split; [done|]].
      { cbn. unfold mbind, JS_bind. by rewrite Hat. }
      split.
      { intros x [Hx|Hx]%elem_of_app; apply elem_of_app;
          [left; by apply Hsub|by right]. }
      split.
      { by apply (stop_rel_trans _ _ _ _ w w1 w'). }
      rewrite forallb_app. intros [Hpre _]%andb_prop.
      destruct Hall as [-> ->]; [|done].
      apply forallb_forall. intros x Hx.
      rewrite (stop_rel_startedAt _ _ _ _ _ x Hone).
      by apply (proj1 (forallb_forall _ _) Hpre).
    + exists (Throw stopError), w1, [r]. split; [|split; [done|]].
      { cbn. unfold mbind, JS_bind. by rewrite Hat. }
      split; [intros x Hx; apply elem_of_app; by right|]. split; [done|].
      rewrite forallb_app. cbn. rewrite Hst.
      apply orb_false_elim in Ego as [_ ->]. by rewrite andb_false_r.
Qed.

Lemma stop_no_context filter fade w :
  ac (sys w) = None →
  stop filter fade w = (Throw (Error "Call .createAudioContext first"), w).
Proof.
  intros Hac. unfold stop, getAudioContext. js_unfold. by world_destruct w.
Qed.

(** [stop] on a reachable world with a context does what [stop_rel] says
    to the instances it gets to: all those of the global list when every
    source was started, and then it returns. *)
Lemma stop_spec filter fade w :
  inv w → ac (sys w) ≠ None →
  ∃ c w' sel, stop filter fade w = (c, w') ∧ inv w' ∧
    sel ⊆ soundInstances (sys w) ∧
    stop_rel filter fade sel w w' ∧
    (all_started w = true → c = Normal tt ∧ sel = soundInstances (sys w)).
Proof.
  intros Hinv Hac.
  destruct (stop_loop_spec filter fade (length (soundInstances (sys w))) w Hinv)
    as (c & w' & sel & Hloop & Hinv' & Hsub & Hrel & Hall); [done|].
  rewrite firstn_all in Hsub, Hall. exists c, w', sel.
  split; [|done].
  unfold stop, getAudioContext. js_unfold.
  destruct (ac (sys w)) as [a|] eqn:Ea; [|done].
  revert Hloop. world_destruct w. cbn. by intros ->.
Qed.

(** *** Playing *)

Lemma startInstance_eval sr sound volume loop tag offset fadeIn cb m w :
  soundObjs w !! sr = Some sound → masterGain (sys w) = Some m →
  rampAccepted sound volume fadeIn = true →
  startInstance sr volume loop tag offset fadeIn cb w =
    (startOutcome offset (length (instObjs w)),
     instanceStarted sr sound volume loop tag offset fadeIn cb m w).
Proof.
  intros Hsr Hm Hramp.
  assert (sr < length (soundObjs w)) by (by apply lookup_lt_Some in Hsr).
  unfold startInstance, createGain, createBufferSource, gain_set_value,
    gain_setValueAtTime, gain_exponentialRampToValueAtTime, gain_connect,
    source_connect, source_start, update_source, update_gain, update_sound,
    instanceStarted, newGain, newSource, rampAccepted, startOutcome in *.
  js_unfold. world_destruct w. rewrite Hsr. js_eval.
  destruct (Qleb fadeIn 0) eqn:Hf; cbn in Hramp.
  - destruct loop; [destruct (Qgtb offset 0)|]; destruct (Qleb 0 offset);
      repeat (progress (js_eval; rewrite ?Hsr)); done.
  - apply negb_true_iff in Hramp. js_eval. rewrite Hramp.
    destruct loop; [destruct (Qgtb offset 0)|]; destruct (Qleb 0 offset);
      repeat (progress (js_eval; rewrite ?Hsr)); done.
Qed.

Lemma startInstance_throws sr sound volume loop tag offset fadeIn cb w :
  soundObjs w !! sr = Some sound →
  rampAccepted sound volume fadeIn = false →
  startInstance sr volume loop tag offset fadeIn cb w =
    (Throw (RangeError "The target value of an exponential ramp cannot be 0"),
     with_gainNodes
       (λ l, l ++ [mkGainNode 1 [SetValueAtTime floorValue (currentTime w)] []]) w).
Proof.
  intros Hsr Hramp.
  unfold startInstance, createGain, gain_set_value,
    gain_setValueAtTime, gain_exponentialRampToValueAtTime, update_gain,
    rampAccepted in *.
  apply orb_false_iff in Hramp as [Hf Hz]. apply negb_false_iff in Hz.
  js_unfold. world_destruct w. rewrite Hsr. js_eval. rewrite Hf. js_eval.
  by rewrite Hz.
Qed.

Lemma inv_instanceStarted sr sound volume loop tag offset fadeIn cb m w :
  inv w → ac (sys w) ≠ None →
  soundObjs w !! sr = Some sound → masterGain (sys w) = Some m →
  inv (instanceStarted sr sound volume loop tag offset fadeIn cb m w).
Proof.
  intros Hinv Hac Hsr Hm. inv_split Hinv.
  assert (sr < length (soundObjs w)) as Hsrlt by (by apply lookup_lt_Some in Hsr).
  unfold instanceStarted. world_destruct w.
  set (i := length Wio) in *.
  assert (∀ r S,
    <[sr := set_instances (instances sound ++ [i]) sound]> Wso !! r = Some S →
    (r = sr ∧ S = set_instances (instances sound ++ [i]) sound)
    ∨ (r ≠ sr ∧ Wso !! r = Some S)) as Hso.
  { intros r S HS. destruct (decide (r = sr)) as [->|Hne].
    - rewrite list_lookup_insert_eq in HS by done. left. split; congruence.
    - rewrite list_lookup_insert_ne in HS by done. by right. }
  assert (i ∉ Wsi) as Hfresh1.
  { intros Hi. apply Hglobalb in Hi. lia. }
  assert (∀ r S, Wso !! r = Some S → i ∉ instances S) as Hfresh2.
  { intros r S HS Hi. apply (Hlists r S HS) in Hi. lia. }
  assert (i ∉ Wfl) as Hfresh3.
  { intros Hi. apply Hfiredb in Hi. lia. }
  constructor; cbn; try done.
  - intros _. destruct (Hmaster Hac) as (g0 & d & n & Hg0 & Hd & Hn & Hrest).
    exists g0, d, n. cbn. split; [done|]. split; [done|]. split; [|done].
    rewrite lookup_app_l; [done|]. by apply lookup_lt_Some in Hn.
  - intros name r Hr. rewrite length_insert. by apply (Htable name).
  - rewrite !length_app. cbn. lia.
  - apply NoDup_app. split; [done|]. split; [|apply NoDup_singleton].
    intros x Hx Hx'. apply list_elem_of_singleton in Hx'. by subst.
  - intros x Hx. rewrite length_app. cbn.
    apply elem_of_app in Hx as [Hx|Hx].
    + apply Hglobalb in Hx. lia.
    + apply list_elem_of_singleton in Hx. lia.
  - intros r S HS. rewrite length_app. cbn.
    destruct (Hso r S HS) as [[-> ->]|[Hne HS']]; cbn.
    + destruct (Hlists sr sound Hsr) as [Hnd Hb]. split.
      * apply NoDup_app. split; [done|]. split; [|apply NoDup_singleton].
        intros x Hx Hx'. apply list_elem_of_singleton in Hx'. subst.
        by apply (Hfresh2 sr sound).
      * intros x Hx.
        apply elem_of_app in Hx as [Hx|Hx].
        -- apply Hb in Hx. lia.
        -- apply list_elem_of_singleton in Hx. lia.
    + destruct (Hlists r S HS') as [Hnd Hb]. split; [done|].
      intros x Hx. apply Hb in Hx. lia.
  - intros x Hx. rewrite length_app. cbn. apply Hfiredb in Hx. lia.
  - intros j J HJ. unfold inst_ok. cbn.
    rewrite length_app, length_insert. cbn.
    apply lookup_app_Some in HJ as [HJ|[Hge HJ]].
    + assert (j < i) as Hji by (by apply lookup_lt_Some in HJ).
      destruct (Hinst j J HJ)
        as (Hs & Hgl & Hmm & n & cb' & r & Hn & Ho & Hst & Hr & Hg & Hl & Hf).
      split; [done|]. split; [lia|]. split; [done|].
      exists n, cb', r. split; [by rewrite lookup_app_l by (by apply lookup_lt_Some in Hn)|].
      split; [done|]. split; [done|]. split; [done|]. split; [|split; [|done]].
      * intros He. apply elem_of_app. left. by apply Hg.
      * intros r' S HS. destruct (Hso r' S HS) as [[-> ->]|[Hne HS']]; cbn.
        -- rewrite !elem_of_app, !list_elem_of_singleton, (Hl sr sound Hsr).
           split; [intros [[? ?]|?]; [tauto|lia]|intros [? [?|?]]; [tauto|lia]].
        -- rewrite !elem_of_app, !list_elem_of_singleton, (Hl r' S HS').
           split; [tauto|intros [? [?|?]]; [tauto|lia]].
    + fold i in Hge, HJ. destruct (j - i) as [|?] eqn:Ej; [|done].
      injection HJ as <-. cbn. assert (j = i) as -> by lia.
      split; [by rewrite Hsources|]. split; [lia|].
      split.
      { intros [= ->]. destruct (Hmaster Hac) as (g0 & ? & ? & Hg0 & ? & Hn & ?).
        injection Hg0 as <-. apply lookup_lt_Some in Hn. lia. }
      eexists _, cb, sr. split; [rewrite <- Hsources; apply lookup_snoc|].
      cbn. unfold i. rewrite Hsources. split; [done|]. split; [done|].
      split; [done|]. split; [|split].
      * intros _. rewrite elem_of_app, list_elem_of_singleton. tauto.
      * intros r' S HS. destruct (Hso r' S HS) as [[-> ->]|[Hne HS']]; cbn.
        -- rewrite !elem_of_app, !list_elem_of_singleton. tauto.
        -- split; [|intros [? _]; done]. intros Hx.
           by apply (Hfresh2 r' S HS') in Hx.
      * split; [done|]. done.
  - intros j1 j2 J1 J2 H1 H2 Heq.
    assert (∀ j J, (Wio ++ [mkInstance (length Wsn) (length Wgn) tag false Wct]) !! j = Some J →
      (j < i ∧ Wio !! j = Some J ∧ gain J < length Wgn) ∨ (j = i ∧ gain J = length Wgn)) as Hcase.
    { intros j J HJ. apply lookup_app_Some in HJ as [HJ|[Hge HJ]].
      - left. split; [by apply lookup_lt_Some in HJ|]. split; [done|].
        by destruct (Hinst j J HJ) as (_ & ? & _).
      - right. fold i in Hge, HJ. destruct (j - i) as [|?] eqn:Ej; [|done].
        injection HJ as <-. cbn. split; [lia|done]. }
    destruct (Hcase j1 J1 H1) as [(? & H1' & ?)|[-> ?]],
             (Hcase j2 J2 H2) as [(? & H2' & ?)|[-> ?]]; try lia.
    by apply (Hgains j1 j2 J1 J2).
  - intros r S HS. destruct (Hso r S HS) as [[-> ->]|[Hne HS']]; cbn.
    + apply StronglySorted_app_2.
      * intros x1 x2 Hx1 Hx2. apply list_elem_of_singleton in Hx2. subst x2.
        by apply (Hlists sr sound Hsr).
      * by apply (Hsorted sr sound).
      * repeat constructor.
    + by apply (Hsorted r S).
Qed.

Lemma stopOldest_eval sr sound o rest I sn w :
  soundObjs w !! sr = Some sound → instances sound = o :: rest →
  instObjs w !! o = Some I → sourceNodes w !! source I = Some sn →
  s_started sn ≠ None →
  stopOldest sr w = (Normal tt, evicted (source I) sn w).
Proof.
  intros Hsr Hl Ho Hs Hst. unfold stopOldest, source_stop, update_source, evicted.
  js_unfold. world_destruct w. rewrite Hsr. js_eval. rewrite Hl. js_eval.
  rewrite Ho. js_eval. rewrite Hs. js_eval.
  rewrite bool_decide_eq_false_2 by done. js_eval. by rewrite Hs.
Qed.

(** A source that was never started refuses the [stop()] of line 185. *)
Lemma stopOldest_refused sr sound o rest I sn w :
  soundObjs w !! sr = Some sound → instances sound = o :: rest →
  instObjs w !! o = Some I → sourceNodes w !! source I = Some sn →
  s_started sn = None →
  stopOldest sr w = (Throw stopError, w).
Proof.
  intros Hsr Hl Ho Hs Hst. unfold stopOldest, source_stop, update_source.
  js_unfold. world_destruct w. rewrite Hsr. js_eval. rewrite Hl. js_eval.
  rewrite Ho. js_eval. rewrite Hs. js_eval.
  by rewrite bool_decide_eq_true_2.
Qed.

Lemma inv_evicted o sn w :
  inv w → sourceNodes w !! o = Some sn → inv (evicted o sn w).
Proof.
  intros Hinv Hs. unfold evicted. by apply inv_source_update with (n := sn).
Qed.

Lemma play_no_context name volume loop tag offset fadeIn so cb w :
  ac (sys w) = None →
  play name volume loop tag offset fadeIn so cb w =
    (Throw (Error "Call .createAudioContext first"), w).
Proof.
  intros Hac. unfold play, getAudioContext. js_unfold. by world_destruct w.
Qed.

Lemma play_unknown name volume loop tag offset fadeIn so cb w :
  ac (sys w) ≠ None → sounds (sys w) !! name = None →
  play name volume loop tag offset fadeIn so cb w =
    (Throw (soundDoesNotExist name), w).
Proof.
  intros Hac Hn. unfold play, getAudioContext. js_unfold. world_destruct w.
  destruct Wac; [|done]. js_eval. by rewrite Hn.
Qed.

(** The three ways through lines 179-189 for a loaded sound. *)
Lemma play_loaded name volume loop tag offset fadeIn so cb w sr sound :
  ac (sys w) ≠ None → sounds (sys w) !! name = Some sr →
  soundObjs w !! sr = Some sound →
  play name volume loop tag offset fadeIn so cb w =
    if (maxSources sound <=? 0)%Z then (Normal None, w)
    else if full sound then
      if so then
        (stopOldest sr;; startInstance sr volume loop tag offset fadeIn cb) w
      else (Normal None, w)
    else startInstance sr volume loop tag offset fadeIn cb w.
Proof.
  intros Hac Hn Hsr. unfold play, getAudioContext, full. js_unfold.
  destruct (ac (sys w)) as [a|] eqn:Ea; [|done]. cbn. rewrite Hn, Hsr.
  destruct (maxSources sound <=? 0)%Z; [done|].
  destruct (Z.of_nat (length (instances sound)) >=? maxSources sound)%Z; [|done].
  by destruct so.
Qed.

Lemma inv_startInstance sr sound volume loop tag offset fadeIn cb w :
  inv w → ac (sys w) ≠ None → soundObjs w !! sr = Some sound →
  inv (startInstance sr volume loop tag offset fadeIn cb w).2.
Proof.
  intros Hinv Hac Hsr.
  destruct (inv_master w Hinv Hac) as (m & _ & _ & Hm & _).
  destruct (rampAccepted sound volume fadeIn) eqn:Hramp.
  - rewrite (startInstance_eval _ sound _ _ _ _ _ _ m) by done. cbn.
    by apply inv_instanceStarted.
  - rewrite (startInstance_throws _ sound) by done. cbn.
    by apply inv_gain_alloc.
Qed.

(** The oldest instance of a full sound with a positive cap. *)
Lemma full_oldest sound w sr :
  inv w → soundObjs w !! sr = Some sound →
  (0 < maxSources sound)%Z → full sound = true →
  ∃ o rest I sn,
    instances sound = o :: rest ∧ instObjs w !! o = Some I ∧
    source I = o ∧ sourceNodes w !! o = Some sn.
Proof.
  intros Hinv Hsr Hpos Hfull. unfold full in Hfull. apply Z.geb_le in Hfull.
  destruct (instances sound) as [|o rest] eqn:Hl; [cbn in Hfull; lia|].
  destruct (inv_lists w Hinv sr sound Hsr) as [_ Hb].
  assert (o < length (instObjs w)) as Hlt by (apply Hb; rewrite Hl; by left).
  destruct (lookup_lt_is_Some_2 _ _ Hlt) as [I HI].
  destruct (inv_inst w Hinv o I HI) as (Hs & _ & _ & sn & _ & _ & Hsn & _).
  by exists o, rest, I, sn.
Qed.

Lemma inv_play name volume loop tag offset fadeIn so cb w :
  inv w → inv (play name volume loop tag offset fadeIn so cb w).2.
Proof.
  intros Hinv.
  destruct (decide (ac (sys w) = None)) as [Hac|Hac].
  { by rewrite play_no_context. }
  destruct (sounds (sys w) !! name) as [sr|] eqn:Hn.
  2: { by rewrite play_unknown. }
  destruct (lookup_lt_is_Some_2 (soundObjs w) sr) as [sound Hsr].
  { by apply (inv_table w Hinv name). }
  rewrite (play_loaded _ _ _ _ _ _ _ _ _ sr sound) by done.
  destruct (maxSources sound <=? 0)%Z eqn:Hmax; [done|].
  apply Z.leb_gt in Hmax.
  destruct (full sound) eqn:Hfull; [|by apply (inv_startInstance _ sound)].
  destruct so; [|done].
  destruct (full_oldest sound w sr) as (o & rest & I & sn & Hl & HI & Hs & Hsn);
    try done.
  unfold mbind, JS_bind. rewrite <- Hs in Hsn.
  destruct (decide (s_started sn = None)) as [Hst|Hst].
  { by rewrite (stopOldest_refused sr sound o rest I sn). }
  rewrite (stopOldest_eval sr sound o rest I sn) by done.
  apply (inv_startInstance _ sound); [by apply inv_evicted|..];
    unfold evicted; by destruct w.
Qed.

(** *** The ways through [play] *)

Lemma loaded_context w name sr :
  inv w → sounds (sys w) !! name = Some sr → ac (sys w) ≠ None.
Proof.
  intros Hinv Hn Hac. destruct (inv_ctx w Hinv Hac) as [_ He].
  rewrite He in Hn. by rewrite lookup_empty in Hn.
Qed.

Lemma oldest_started_eq sr sound o rest I sn w :
  soundObjs w !! sr = Some sound → instances sound = o :: rest →
  instObjs w !! o = Some I → sourceNodes w !! source I = Some sn →
  oldest_started sr w = bool_decide (s_started sn ≠ None).
Proof.
  intros Hsr Hl HI Hs. unfold oldest_started, instancesOf, startedAt.
  by rewrite Hsr, Hl, HI, Hs.
Qed.

(** A [play] that gets past the cap runs lines 191-234, after line 185
    when the sound is full. *)
Lemma play_starts name volume loop tag offset fadeIn so cb w sr sound :
  inv w → sounds (sys w) !! name = Some sr → soundObjs w !! sr = Some sound →
  (0 < maxSources sound)%Z → (full sound = true → so = true) →
  (full sound = true → oldest_started sr w = true) →
  ∃ w0, beforeStart sound w w0 ∧
    play name volume loop tag offset fadeIn so cb w
    = startInstance sr volume loop tag offset fadeIn cb w0.
Proof.
  intros Hinv Hn Hsr Hpos Hso Hst.
  rewrite (play_loaded _ _ _ _ _ _ _ _ _ sr sound);
    [|by apply (loaded_context w name sr)|done..].
  rewrite (proj2 (Z.leb_gt _ _)) by done.
  destruct (full sound) eqn:Hfull.
  - rewrite Hso by done.
    destruct (full_oldest sound w sr) as (o & rest & I & sn & Hl & HI & Hs & Hsn);
      try done.
    rewrite <- Hs in Hsn.
    rewrite (oldest_started_eq sr sound o rest I sn) in Hst by done.
    specialize (Hst eq_refl). apply bool_decide_eq_true in Hst.
    exists (evicted o sn w). split.
    + right. split; [done|]. exists o, rest, I, sn. by rewrite Hs in Hsn.
    + unfold mbind, JS_bind.
      rewrite (stopOldest_eval sr sound o rest I sn) by done. by rewrite Hs.
  - exists w. split; [by left|done].
Qed.

(** A [play] that would stop an oldest instance whose source was never
    started ends at line 185. *)
Lemma play_stop_refused name volume loop tag offset fadeIn cb w sr sound :
  inv w → sounds (sys w) !! name = Some sr → soundObjs w !! sr = Some sound →
  (0 < maxSources sound)%Z → full sound = true →
  oldest_started sr w = false →
  play name volume loop tag offset fadeIn true cb w = (Throw stopError, w).
Proof.
  intros Hinv Hn Hsr Hpos Hfull Hst.
  rewrite (play_loaded _ _ _ _ _ _ _ _ _ sr sound);
    [|by apply (loaded_context w name sr)|done..].
  rewrite (proj2 (Z.leb_gt _ _)), Hfull by done.
  destruct (full_oldest sound w sr) as (o & rest & I & sn & Hl & HI & Hs & Hsn);
    try done.
  rewrite <- Hs in Hsn.
  rewrite (oldest_started_eq sr sound o rest I sn) in Hst by done.
  apply bool_decide_eq_false in Hst.
  unfold mbind, JS_bind.
  rewrite (stopOldest_refused sr sound o rest I sn); [done..|].
  by destruct (s_started sn); [destruct Hst|].
Qed.

Lemma beforeStart_same sound w w0 :
  beforeStart sound w w0 →
  sys w0 = sys w ∧ soundObjs w0 = soundObjs w ∧ instObjs w0 = instObjs w ∧
  gainNodes w0 = gainNodes w ∧ currentTime w0 = currentTime w ∧
  length (sourceNodes w0) = length (sourceNodes w) ∧
  callbackLog w0 = callbackLog w ∧ firedLog w0 = firedLog w.
Proof.
  intros [[_ ->]|[_ (o & rest & I & sn & _ & _ & _ & _ & _ & ->)]]; [done|].
  unfold evicted. destruct w; cbn. by rewrite length_insert.
Qed.

Lemma inv_beforeStart sound w w0 : inv w → beforeStart sound w w0 → inv w0.
Proof.
  intros Hinv [[_ ->]|[_ (o & rest & I & sn & _ & _ & _ & Hsn & _ & ->)]]; [done|].
  by apply inv_evicted.
Qed.

Lemma play_started name volume loop tag offset fadeIn so cb w sr sound :
  inv w → sounds (sys w) !! name = Some sr → soundObjs w !! sr = Some sound →
  (0 < maxSources sound)%Z → (full sound = true → so = true) →
  (full sound = true → oldest_started sr w = true) →
  rampAccepted sound volume fadeIn = true →
  ∃ m w0, masterGain (sys w) = Some m ∧ beforeStart sound w w0 ∧
    play name volume loop tag offset fadeIn so cb w
    = (startOutcome offset (length (instObjs w)),
       instanceStarted sr sound volume loop tag offset fadeIn cb m w0).
Proof.
  intros Hinv Hn Hsr Hpos Hso Hst Hramp.
  pose proof (loaded_context w name sr Hinv Hn) as Hac.
  destruct (inv_master w Hinv Hac) as (m & _ & _ & Hm & _).
  destruct (play_starts name volume loop tag offset fadeIn so cb w sr sound)
    as (w0 & Hw0 & ->); try done.
  destruct (beforeStart_same sound w w0 Hw0) as (Hsys & Hsobj & Hio & _).
  exists m, w0. split; [done|]. split; [done|].
  rewrite <- Hio. apply startInstance_eval; [by rewrite Hsobj|by rewrite Hsys|done].
Qed.

Lemma play_refused name volume loop tag offset fadeIn so cb w sr sound :
  inv w → sounds (sys w) !! name = Some sr → soundObjs w !! sr = Some sound →
  (0 < maxSources sound)%Z → (full sound = true → so = true) →
  (full sound = true → oldest_started sr w = true) →
  rampAccepted sound volume fadeIn = false →
  ∃ w0, beforeStart sound w w0 ∧
    play name volume loop tag offset fadeIn so cb w
    = (Throw rampError, rampRefused w0).
Proof.
  intros Hinv Hn Hsr Hpos Hso Hst Hramp.
  destruct (play_starts name volume loop tag offset fadeIn so cb w sr sound)
    as (w0 & Hw0 & ->); try done.
  destruct (beforeStart_same sound w w0 Hw0) as (Hsys & Hsobj & Hio & _).
  exists w0. split; [done|].
  by rewrite (startInstance_throws _ sound) by (by rewrite ?Hsobj).
Qed.


(** *** The platform's automation and clock *)

Lemma automate_eval g v n w :
  gainNodes w !! g = Some n → g_events n ≠ [] →
  automate g v w = (Normal tt, automated g n v w).
Proof.
  intros Hg He. unfold automate, gain_set_value, update_gain, automated.
  js_unfold. world_destruct w. rewrite Hg. cbn.
  destruct (g_events n) eqn:E; [done|]. cbn. rewrite Hg. cbn. by rewrite E.
Qed.

Lemma automate_skip g v w :
  (∀ n, gainNodes w !! g = Some n → g_events n = []) →
  (automate g v w).2 = w.
Proof.
  intros Hg. unfold automate. js_unfold. world_destruct w.
  destruct (Wgn !! g) as [n|] eqn:E; cbn; [|done]. by rewrite (Hg n eq_refl).
Qed.

Lemma inv_automated g n v w :
  inv w → gainNodes w !! g = Some n → g_events n ≠ [] → inv (automated g n v w).
Proof.
  intros Hinv Hg He. unfold automated. apply inv_gain_update_ctx; [done|].
  intros Hac Hm.
  destruct (inv_master w Hinv Hac) as (g0 & d & n0 & Hg0 & _ & Hn0 & _ & He0 & _).
  congruence.
Qed.

Lemma inv_tick dt w : inv w → inv (tick dt w).2.
Proof.
  intros Hinv. unfold tick. destruct (Qgtb dt 0); [|done].
  by apply inv_time.
Qed.

(** *** The actions but the delivery of [ended] keep the invariant *)

(** The action is the delivery of an [ended] event. *)
Definition delivery (a : Action) : bool :=
  match a with AEnded _ _ => true | _ => false end.

Lemma delivery_actionOf c : delivery (actionOf c) = false.
Proof. by destruct c. Qed.

Lemma inv_step_simple a w : inv w → delivery a = false → inv (step a w).
Proof.
  intros Hinv Hd.
  destruct a as [c d|v|l now|k o|name v lp tg off fi so cb|tg fo|s cbr|g v|dt];
    cbn; try done.
  - destruct (decide (ac (sys w) = None)) as [Hac|Hac].
    + rewrite createAudioContext_eval by done. by apply inv_contextCreated.
    + by rewrite createAudioContext_already.
  - destruct (ac (sys w)) as [a|] eqn:Hac.
    + destruct (inv_master w Hinv) as (g & d & n & Hg & Hd' & Hn & _ & _ & Hc & Ho);
        [congruence|].
      rewrite (setGlobalVolume_eval _ _ a g d n) by done.
      apply inv_volumeSet; [done|congruence|done..].
    + rewrite setGlobalVolume_no_context by done. by apply inv_volume_no_context.
  - destruct (ac (sys w)) as [a|] eqn:Hac.
    + rewrite (asyncLoadSounds_eval _ _ _ a) by done.
      apply inv_loadsStarted; [done|congruence].
    + by rewrite asyncLoadSounds_no_context.
  - destruct (subLoads w !! k) as [l|] eqn:Hk.
    2: { rewrite settle_skip; [done|]. intros l. by rewrite Hk. }
    destruct (l_settled l) eqn:Hs.
    { rewrite settle_skip; [done|]. intros l'. rewrite Hk. by intros [= <-]. }
    destruct (lookup_lt_is_Some_2 (promises w) (l_promise l)) as [st Hp].
    { by apply (inv_loads w Hinv k). }
    rewrite (settle_eval k o w l st) by done. by apply inv_settled.
  - by apply inv_play.
  - destruct (decide (ac (sys w) = None)) as [Hac|Hac].
    + by rewrite stop_no_context.
    + by destruct (stop_spec tg fo w Hinv Hac) as (c & w' & sel & -> & Hinv' & _).
  - destruct (gainNodes w !! g) as [n|] eqn:Hg.
    2: { rewrite automate_skip; [done|]. intros n. by rewrite Hg. }
    destruct (decide (g_events n = [])) as [He|He].
    { rewrite automate_skip; [done|]. intros n'. rewrite Hg. by intros [= <-]. }
    rewrite (automate_eval g v n) by done. by apply inv_automated.
  - by apply inv_tick.
Qed.

(** The transition of an action that is not a delivery. *)
Lemma step_Step a w : inv w → delivery a = false → Step w a (step a w).
Proof.
  intros Hinv Hdel.
  destruct a as [c d|v|l now|k o|name v lp tg off fi so cb|tg fo|s cbr|g v|dt];
    cbn; try done.
  - destruct (decide (ac (sys w) = None)) as [Hac|Hac].
    + rewrite createAudioContext_eval by done. by constructor.
    + rewrite createAudioContext_already by done. by constructor.
  - destruct (ac (sys w)) as [a|] eqn:Hac.
    + destruct (inv_master w Hinv) as (g & d & n & Hg & Hd & Hn & _ & _ & Hc & Ho);
        [congruence|].
      rewrite (setGlobalVolume_eval _ _ a g d n) by done.
      by apply (Step_volume w v a).
    + rewrite setGlobalVolume_no_context by done. by constructor.
  - destruct (ac (sys w)) as [a|] eqn:Hac.
    + rewrite (asyncLoadSounds_eval _ _ _ a) by done. constructor. congruence.
    + rewrite asyncLoadSounds_no_context by done. by constructor.
  - destruct (subLoads w !! k) as [l|] eqn:Hk.
    2: { rewrite settle_skip; [|intros l; by rewrite Hk]. constructor.
         intros l. by rewrite Hk. }
    destruct (l_settled l) eqn:Hs.
    { rewrite settle_skip; [|intros l'; rewrite Hk; by intros [= <-]].
      constructor. intros l'. rewrite Hk. by intros [= <-]. }
    destruct (lookup_lt_is_Some_2 (promises w) (l_promise l)) as [st Hp].
    { by apply (inv_loads w Hinv k). }
    rewrite (settle_eval k o w l st) by done. by constructor.
  - destruct (decide (ac (sys w) = None)) as [Hac|Hac].
    { rewrite play_no_context by done. constructor. by left. }
    destruct (sounds (sys w) !! name) as [sr|] eqn:Hn.
    2: { rewrite play_unknown by done. constructor. right. by left. }
    destruct (lookup_lt_is_Some_2 (soundObjs w) sr) as [sound Hsr].
    { by apply (inv_table w Hinv name). }
    destruct (decide (0 < maxSources sound)%Z) as [Hpos|Hnpos].
    2: { rewrite (play_loaded _ _ _ _ _ _ _ _ _ sr sound) by done.
         rewrite (proj2 (Z.leb_le _ _)) by lia. constructor.
         right. right. exists sr, sound. split; [done|]. split; [done|].
         left. lia. }
    destruct (full sound && negb so) eqn:Hnull.
    { apply andb_prop in Hnull as [Hf Hs]. apply negb_true_iff in Hs. subst so.
      rewrite (play_loaded _ _ _ _ _ _ _ _ _ sr sound) by done.
      rewrite (proj2 (Z.leb_gt _ _)), Hf by done. constructor.
      right. right. exists sr, sound. split; [done|]. split; [done|].
      right. split; [done|]. by left. }
    assert (full sound = true → so = true) as Hso.
    { intros Hf. rewrite Hf in Hnull. by destruct so. }
    destruct (full sound && negb (oldest_started sr w)) eqn:Hold.
    { apply andb_prop in Hold as [Hf Hs]. apply negb_true_iff in Hs.
      rewrite (Hso Hf).
      rewrite (play_stop_refused _ _ _ _ _ _ _ _ sr sound) by done.
      constructor. right. right. exists sr, sound. split; [done|].
      split; [done|]. right. split; [done|]. by right. }
    assert (full sound = true → oldest_started sr w = true) as Hst.
    { intros Hf. rewrite Hf in Hold. by destruct (oldest_started sr w). }
    destruct (rampAccepted sound v fi) eqn:Hramp.
    + destruct (play_started name v lp tg off fi so cb w sr sound)
        as (m & w0 & Hm & Hw0 & ->); try done.
      by apply Step_play_started.
    + destruct (play_refused name v lp tg off fi so cb w sr sound)
        as (w0 & Hw0 & ->); try done.
      by apply (Step_play_refused w name v lp tg off fi so cb sr sound).
  - destruct (decide (ac (sys w) = None)) as [Hac|Hac].
    + rewrite stop_no_context by done. by constructor.
    + destruct (stop_spec tg fo w Hinv Hac) as (c & w' & sel & -> & _ & Hsub & Hrel & _).
      by apply (Step_stop w tg fo sel).
  - destruct (gainNodes w !! g) as [n|] eqn:Hg.
    2: { rewrite automate_skip; [|intros n; by rewrite Hg]. constructor.
         intros n. by rewrite Hg. }
    destruct (decide (g_events n = [])) as [He|He].
    { rewrite automate_skip; [|intros n'; rewrite Hg; by intros [= <-]].
      constructor. intros n'. rewrite Hg. by intros [= <-]. }
    rewrite (automate_eval g v n) by done. by constructor.
  - unfold tick. destruct (Qgtb dt 0) eqn:E.
    + pose proof (Step_tick w dt) as H. by rewrite E in H.
    + pose proof (Step_tick w dt) as H. by rewrite E in H.
Qed.

(** The ways through [play]: nothing happens and no instance is
    returned, or lines 191-234 run from [w0] and the platform accepts the
    fade-in or refuses it. *)
Lemma play_cases name v lp tg off fi so cb w :
  inv w →
  let res := play name v lp tg off fi so cb w in
  (res.2 = w ∧ ∀ i, res.1 ≠ Normal (Some i))
  ∨ ∃ sr sound w0,
      sounds (sys w) !! name = Some sr ∧ soundObjs w !! sr = Some sound
      ∧ (0 < maxSources sound)%Z
      ∧ (full sound = true → so = true)
      ∧ (full sound = true → oldest_started sr w = true)
      ∧ beforeStart sound w w0
      ∧ ((rampAccepted sound v fi = false ∧ res = (Throw rampError, rampRefused w0))
         ∨ (rampAccepted sound v fi = true
            ∧ ∃ m, masterGain (sys w) = Some m
                ∧ res = (startOutcome off (length (instObjs w)),
                         instanceStarted sr sound v lp tg off fi cb m w0))).
Proof.
  intros Hinv. cbn zeta.
  destruct (decide (ac (sys w) = None)) as [Hac|Hac].
  { rewrite play_no_context by done. by left. }
  destruct (sounds (sys w) !! name) as [sr|] eqn:Hn.
  2: { rewrite play_unknown by done. by left. }
  destruct (lookup_lt_is_Some_2 (soundObjs w) sr) as [sound Hsr].
  { by apply (inv_table w Hinv name). }
  destruct (decide (0 < maxSources sound)%Z) as [Hpos|Hnpos].
  2: { rewrite (play_loaded _ _ _ _ _ _ _ _ _ sr sound) by done.
       rewrite (proj2 (Z.leb_le _ _)) by lia. by left. }
  destruct (full sound && negb so) eqn:Hnull.
  { apply andb_prop in Hnull as [Hf Hs]. apply negb_true_iff in Hs. subst so.
    rewrite (play_loaded _ _ _ _ _ _ _ _ _ sr sound) by done.
    rewrite (proj2 (Z.leb_gt _ _)), Hf by done. by left. }
  assert (full sound = true → so = true) as Hso.
  { intros Hf. rewrite Hf in Hnull. by destruct so. }
  destruct (full sound && negb (oldest_started sr w)) eqn:Hold.
  { apply andb_prop in Hold as [Hf Hs]. apply negb_true_iff in Hs.
    rewrite (Hso Hf).
    rewrite (play_stop_refused _ _ _ _ _ _ _ _ sr sound) by done. by left. }
  assert (full sound = true → oldest_started sr w = true) as Hst.
  { intros Hf. rewrite Hf in Hold. by destruct (oldest_started sr w). }
  right. destruct (rampAccepted sound v fi) eqn:Hramp.
  - destruct (play_started name v lp tg off fi so cb w sr sound)
      as (m & w0 & Hm & Hw0 & ->); try done.
    exists sr, sound, w0. do 6 (split; [done|]). right. split; [done|].
    by exists m.
  - destruct (play_refused name v lp tg off fi so cb w sr sound)
      as (w0 & Hw0 & ->); try done.
    exists sr, sound, w0. do 6 (split; [done|]). by left.
Qed.

Lemma run_app acts acts' w : run (acts ++ acts') w = run acts' (run acts w).
Proof. apply foldl_app. Qed.

Lemma inv_run_simple acts w :
  inv w → forallb (λ a, negb (delivery a)) acts = true → inv (run acts w).
Proof.
  revert w. induction acts as [|a acts IH]; intros w Hinv Hd; [done|].
  cbn in Hd. apply andb_prop in Hd as [Ha Hd]. apply negb_true_iff in Ha.
  cbn. apply IH; [|done]. by apply inv_step_simple.
Qed.

(** *** What the calls of a callback leave as it is *)

Ltac fields w := destruct w as [[] ? ? ? ? ? ? ? ? ?]; cbn in *.

Lemma during_refl w : during w w.
Proof.
  constructor; try done.
  - intros i I HI. by exists I.
  - intros s n Hn. by exists n.
  - intros i I gn HI Hg. by exists gn.
  - intros r S HS. by exists S.
Qed.

Lemma during_trans w w1 w' : during w w1 → during w1 w' → during w w'.
Proof.
  intros H1 H2. destruct H1, H2. constructor; try congruence.
  - intros i I HI. destruct (du_inst0 i I HI) as (I1 & HI1 & Hs1 & Hg1 & Ht1).
    destruct (du_inst1 i I1 HI1) as (I' & HI' & Hs' & Hg' & Ht').
    exists I'. split; [done|]. split; [congruence|]. split; congruence.
  - intros s n Hn. destruct (du_source0 s n Hn) as (n1 & Hn1 & He1 & Ho1 & Hst1).
    destruct (du_source1 s n1 Hn1) as (n' & Hn' & He' & Ho' & Hst').
    exists n'. split; [done|]. split; [congruence|]. split; congruence.
  - intros i I gn HI Hg.
    destruct (du_inst0 i I HI) as (I1 & HI1 & Hs1 & Hg1 & Ht1).
    destruct (du_gain0 i I gn HI Hg) as (gn1 & Hgn1 & Ho1).
    rewrite <- Hg1 in Hgn1.
    destruct (du_gain1 i I1 gn1 HI1 Hgn1) as (gn' & Hgn' & Ho').
    exists gn'. rewrite <- Hg1. split; [done|]. congruence.
  - auto.
  - intros r S HS. destruct (du_lists0 r S HS) as (S1 & HS1 & Hl1).
    destruct (du_lists1 r S1 HS1) as (S' & HS' & Hl').
    exists S'. split; [done|]. auto.
Qed.

(** What is the same in [w'] as in [w] but for new objects at the end of
    the heaps keeps [during]. *)
Lemma during_extended w w' :
  firedLog w' = firedLog w → callbackLog w' = callbackLog w →
  (∀ i I, instObjs w !! i = Some I → instObjs w' !! i = Some I) →
  (∀ s n, sourceNodes w !! s = Some n →
     ∃ n', sourceNodes w' !! s = Some n' ∧ s_ended n' = s_ended n
           ∧ s_onended n' = s_onended n ∧ s_started n' = s_started n) →
  (∀ i I gn, instObjs w !! i = Some I → gainNodes w !! gain I = Some gn →
     ∃ gn', gainNodes w' !! gain I = Some gn' ∧ g_outputs gn' = g_outputs gn) →
  (∀ i, i ∈ soundInstances (sys w) → i ∈ soundInstances (sys w')) →
  (∀ r S, soundObjs w !! r = Some S →
     ∃ S', soundObjs w' !! r = Some S' ∧ ∀ i, i ∈ instances S → i ∈ instances S') →
  during w w'.
Proof.
  intros Hf Hc Hi Hs Hg Hgl Hl. constructor; try done.
  intros i I HI. exists I. split; [by apply Hi|done].
Qed.

Lemma during_beforeStart sound w w0 : beforeStart sound w w0 → during w w0.
Proof.
  intros [[_ ->]|[_ (o & rest & I & sn & _ & _ & _ & Hsn & _ & ->)]];
    [apply during_refl|].
  assert (o < length (sourceNodes w)) by (by apply lookup_lt_Some in Hsn).
  unfold evicted. apply during_extended; try (by fields w).
  - intros s n Hn. fields w. destruct (decide (s = o)) as [->|Hne].
    + rewrite list_lookup_insert_eq by done. eexists. split; [done|].
      assert (n = sn) as -> by congruence. done.
    + rewrite list_lookup_insert_ne by done. by exists n.
  - intros i J gn HJ Hg. exists gn. by fields w.
  - intros r S HS. exists S. by fields w.
Qed.

Lemma during_instanceStarted sr sound v lp tg off fi cb m w :
  soundObjs w !! sr = Some sound →
  during w (instanceStarted sr sound v lp tg off fi cb m w).
Proof.
  intros Hsr.
  assert (sr < length (soundObjs w)) by (by apply lookup_lt_Some in Hsr).
  unfold instanceStarted. apply during_extended; try (by fields w).
  - intros i I HI. fields w. by apply lookup_app_l_Some.
  - intros s n Hn. exists n. fields w. split; [by apply lookup_app_l_Some|done].
  - intros i I gn HI Hg. exists gn. fields w.
    split; [by apply lookup_app_l_Some|done].
  - intros i Hi. fields w. apply elem_of_app. by left.
  - intros r S HS. fields w. destruct (decide (r = sr)) as [->|Hne].
    + rewrite list_lookup_insert_eq by done. eexists. split; [done|].
      assert (S = sound) as -> by congruence. cbn. intros i Hi.
      apply elem_of_app. by left.
    + rewrite list_lookup_insert_ne by done. by exists S.
Qed.

Lemma stoppedSource_fields fade now sn :
  s_ended (stoppedSource fade now sn) = s_ended sn
  ∧ s_onended (stoppedSource fade now sn) = s_onended sn
  ∧ s_started (stoppedSource fade now sn) = s_started sn.
Proof. unfold stoppedSource. by case_bool_decide. Qed.

Lemma during_stop filter fade sel w w' :
  inv w → stop_rel filter fade sel w w' → during w w'.
Proof.
  intros Hinv H. destruct H. constructor; try done.
  - intros i I HI. rewrite sr_inst0, HI. cbn. eexists. split; [done|].
    by destruct (hit filter sel i I).
  - intros s n Hn.
    assert (s < length (instObjs w)) as Hlt.
    { rewrite <- (inv_sources w Hinv). by apply lookup_lt_Some in Hn. }
    destruct (lookup_lt_is_Some_2 _ _ Hlt) as [I HI].
    destruct (inv_inst w Hinv s I HI) as (Hsrc & _).
    pose proof (sr_source0 s I HI) as Hs'. rewrite Hsrc, Hn in Hs'. cbn in Hs'.
    eexists. split; [done|].
    destruct (hit filter sel s I); [apply stoppedSource_fields|done].
  - intros i I gn HI Hg. rewrite (sr_gain0 i I HI), Hg. cbn. eexists.
    split; [done|]. by destruct (hit filter sel i I).
  - intros i. by rewrite sr_sys0.
  - intros r S HS. exists S. by rewrite sr_soundObjs0.
Qed.

(** A transition that is not part of a delivery keeps [during]. *)
Lemma Step_during w a w' :
  inv w → delivery a = false → Step w a w' → during w w'.
Proof.
  intros Hinv Hd H.
  destruct H as [c d Hac|c d Hac|v a g d n Hac Hg Hdn Hn|v Hac|l now Hac|l now Hac
    |k o l st Hk Hs Hp|k o Hk|name v lp tg off fi so cb Hno
    |name v lp tg off fi so cb sr sound m w0 Hac Hn Hsr Hpos Hso Hramp Hm Hw0
    |name v lp tg off fi so cb sr sound w0 Hac Hn Hsr Hpos Hso Hramp Hw0
    |tg fo Hac|tg fo sel w' Hac Hsub Hrel|s cbr Hskip|i I n c r cbr HI Hn Hcan Ho Hgl
    |i I n c r gn S cbr HI Hn He Ho Hg HS HiS Hgl|g v n Hg He|g v Hg|dt];
    try done; try apply during_refl.
  - unfold contextCreated. apply during_extended; try (by fields w).
    + intros s n Hn. exists n. by fields w.
    + intros i I gn HI Hg. exists gn. fields w.
      split; [by apply lookup_app_l_Some|done].
    + intros r S HS. exists S. by fields w.
  - unfold volumeSet. apply during_extended; try (by fields w).
    + intros s n' Hn'. exists n'. by fields w.
    + intros i I gn HI Hgn.
      destruct (inv_inst w Hinv i I HI) as (_ & _ & Hmm & _).
      exists gn. fields w. rewrite list_lookup_insert_ne by congruence. done.
    + intros r S HS. exists S. by fields w.
  - apply during_extended; try (by fields w).
    + intros s n' Hn'. exists n'. by fields w.
    + intros i I gn HI Hgn. exists gn. by fields w.
    + intros r S HS. exists S. by fields w.
  - unfold loadsStarted. apply during_extended; try (by fields w).
    + intros s n' Hn'. exists n'. by fields w.
    + intros i I gn HI Hgn. exists gn. by fields w.
    + intros r S HS. exists S. by fields w.
  - unfold settled. destruct (fetch_and_decode o) as [e|b];
      (apply during_extended; try (by fields w)).
    + intros s n' Hn'. exists n'. by fields w.
    + intros i I gn HI Hgn. exists gn. by fields w.
    + intros r S HS. exists S. by fields w.
    + intros s n' Hn'. exists n'. by fields w.
    + intros i I gn HI Hgn. exists gn. by fields w.
    + intros r S HS. exists S. fields w. split; [by apply lookup_app_l_Some|done].
  - apply (during_trans w w0); [by apply (during_beforeStart sound)|].
    destruct (beforeStart_same sound w w0 Hw0) as (_ & Hsobj & _).
    apply during_instanceStarted. by rewrite Hsobj.
  - apply (during_trans w w0); [by apply (during_beforeStart sound)|].
    unfold rampRefused. apply during_extended; try (by fields w0).
    + intros s n' Hn'. exists n'. by fields w0.
    + intros i I gn HI Hgn. exists gn. fields w0.
      split; [by apply lookup_app_l_Some|done].
    + intros r S HS. exists S. by fields w0.
  - by apply (during_stop tg fo sel).
  - assert (g < length (gainNodes w)) by (by apply lookup_lt_Some in Hg).
    unfold automated. apply during_extended; try (by fields w).
    + intros s n' Hn'. exists n'. by fields w.
    + intros i I gn HI Hgn. fields w. destruct (decide (gain I = g)) as [<-|Hne].
      * rewrite list_lookup_insert_eq by done. eexists. split; [done|].
        assert (gn = n) as -> by congruence. done.
      * rewrite list_lookup_insert_ne by done. by exists gn.
    + intros r S HS. exists S. by fields w.
  - destruct (Qgtb dt 0); [|apply during_refl].
    apply during_extended; try (by fields w).
    + intros s n' Hn'. exists n'. by fields w.
    + intros i I gn HI Hgn. exists gn. by fields w.
    + intros r S HS. exists S. by fields w.
Qed.

Lemma call_step c w : call c w = step (actionOf c) w.
Proof. by destruct c. Qed.

Lemma inv_calls cs w : inv w → inv (calls cs w).
Proof.
  revert w. induction cs as [|c cs IH]; intros w Hinv; [done|].
  cbn. apply IH. rewrite call_step. apply inv_step_simple; [done|].
  apply delivery_actionOf.
Qed.

Lemma calls_during cs w : inv w → during w (calls cs w).
Proof.
  revert w. induction cs as [|c cs IH]; intros w Hinv; [apply during_refl|].
  cbn. apply (during_trans w (call c w)).
  - rewrite call_step. apply (Step_during w (actionOf c)); [done|..].
    + apply delivery_actionOf.
    + apply step_Step; [done|]. apply delivery_actionOf.
  - apply IH. rewrite call_step. apply inv_step_simple; [done|].
    apply delivery_actionOf.
Qed.

(** *** The [ended] event *)

Lemma bind_normal {A B} (m : JS A) (k : A → JS B) w a w1 :
  m w = (Normal a, w1) → (m ≫= k) w = k a w1.
Proof. intros H. unfold mbind, JS_bind. by rewrite H. Qed.

(** Nothing happens when the source cannot end. *)
Lemma dispatchEnded_skip s cb w :
  (∀ n, sourceNodes w !! s = Some n → canEnd (currentTime w) n = false) →
  (dispatchEnded s cb w).2 = w.
Proof.
  intros Hn. unfold dispatchEnded. js_unfold. world_destruct w.
  destruct (Wsn !! s) as [n|] eqn:E; cbn; [|done]. by rewrite (Hn n eq_refl).
Qed.


Lemma canEnd_not_ended now n : canEnd now n = true → s_ended n = false.
Proof.
  unfold canEnd. intros [[_ H]%andb_prop _]%andb_prop.
  by apply negb_true_iff in H.
Qed.

Lemma canEnd_started now n : canEnd now n = true → s_started n ≠ None.
Proof.
  unfold canEnd. intros [[H _]%andb_prop _]%andb_prop.
  by apply bool_decide_eq_true in H.
Qed.

(** The world in which the callback is called. *)
Lemma fired_fields s n h w :
  sourceNodes w !! s = Some n →
  sys (fired s n h w) = sys w ∧ soundObjs (fired s n h w) = soundObjs w
  ∧ instObjs (fired s n h w) = instObjs w ∧ gainNodes (fired s n h w) = gainNodes w
  ∧ sourceNodes (fired s n h w) !! s = Some (set_s_ended true n)
  ∧ (∀ j, j ≠ s → sourceNodes (fired s n h w) !! j = sourceNodes w !! j)
  ∧ currentTime (fired s n h w) = currentTime w
  ∧ firedLog (fired s n h w) = firedLog w ++ [h_instance h]
  ∧ callbackLog (fired s n h w)
    = callbackLog w ++ match h_endedCallback h with
                       | Some c => [(c, h_instance h)]
                       | None => []
                       end
  ∧ promises (fired s n h w) = promises w ∧ subLoads (fired s n h w) = subLoads w.
Proof.
  intros Hs. assert (s < length (sourceNodes w)) by (by apply lookup_lt_Some in Hs).
  unfold fired. fields w. rewrite list_lookup_insert_eq by done.
  repeat (split; [done|]). split; [|done].
  intros j Hj. by rewrite list_lookup_insert_ne.
Qed.

Lemma inv_handler_fired i n I c r w :
  inv w → instObjs w !! i = Some I → sourceNodes w !! i = Some n →
  s_onended n = Some (mkEndedHandler c i (gain I) r) →
  s_ended n = false → s_started n ≠ None →
  inv (fired i n (mkEndedHandler c i (gain I) r) w).
Proof.
  intros Hinv HI Hn Ho He Hst. inv_split Hinv.
  assert (i < length (instObjs w)) as Hilt by (by apply lookup_lt_Some in HI).
  assert (i < length (sourceNodes w)) as Hslt by (by apply lookup_lt_Some in Hn).
  unfold fired. world_destruct w.
  destruct (Hinst i I HI)
    as (_ & _ & Hmi & n0 & cb0 & r0 & Hn0 & Ho0 & _ & _ & Hgi & Hli & Hfi).
  assert (n0 = n) as -> by congruence.
  assert (i ∉ Wfl) as Hnf.
  { intros Hx. apply Hfi in Hx. congruence. }
  constructor; cbn; try done.
  - by rewrite length_insert.
  - apply NoDup_app. split; [done|]. split; [|apply NoDup_singleton].
    intros x Hx Hx'. apply list_elem_of_singleton in Hx'. by subst.
  - intros x Hx. apply elem_of_app in Hx as [Hx|Hx]; [by apply Hfiredb|].
    apply list_elem_of_singleton in Hx. by subst.
  - intros j J HJ. unfold inst_ok. cbn.
    destruct (Hinst j J HJ)
      as (Hs & Hgl & Hmm & m & cb' & r' & Hm & Ho' & Hst' & Hr' & Hg' & Hl' & Hf').
    split; [done|]. split; [done|]. split; [done|].
    destruct (decide (j = i)) as [->|Hne].
    + assert (m = n) as -> by congruence.
      exists (set_s_ended true n), cb', r'.
      rewrite list_lookup_insert_eq by done. cbn.
      split; [done|]. split; [done|]. split; [done|]. split; [done|].
      split; [done|]. split; [done|].
      rewrite elem_of_app, list_elem_of_singleton. tauto.
    + exists m, cb', r'. rewrite list_lookup_insert_ne by done.
      split; [done|]. split; [done|]. split; [done|]. split; [done|].
      split; [done|]. split; [done|].
      rewrite elem_of_app, list_elem_of_singleton. rewrite <- Hf'. tauto.
Qed.

Lemma inv_handler_finished i I n c r gn S w :
  inv w → instObjs w !! i = Some I → sourceNodes w !! i = Some n →
  s_onended n = Some (mkEndedHandler c i (gain I) r) → s_ended n = true →
  gainNodes w !! gain I = Some gn → soundObjs w !! r = Some S →
  inv (finished (mkEndedHandler c i (gain I) r) gn S w).
Proof.
  intros Hinv HI Hn Ho He Hg HS. inv_split Hinv.
  assert (i < length (instObjs w)) as Hilt by (by apply lookup_lt_Some in HI).
  assert (r < length (soundObjs w)) as Hrlt by (by apply lookup_lt_Some in HS).
  unfold finished. world_destruct w.
  destruct (Hinst i I HI)
    as (_ & _ & Hmi & n0 & cb0 & r0 & Hn0 & Ho0 & _ & _ & Hgi & Hli & Hfi).
  assert (n0 = n) as -> by congruence.
  assert (r0 = r) as -> by congruence.
  assert (∀ r' S',
    <[r := set_instances (removed i (instances S)) S]> Wso !! r' = Some S' →
    (r' = r ∧ S' = set_instances (removed i (instances S)) S)
    ∨ (r' ≠ r ∧ Wso !! r' = Some S')) as Hso.
  { intros r' S' HS'. destruct (decide (r' = r)) as [->|Hne].
    - rewrite list_lookup_insert_eq in HS' by done. left. split; congruence.
    - rewrite list_lookup_insert_ne in HS' by done. by right. }
  destruct (Hlists r S HS) as [HndS HbS].
  constructor; cbn; try done.
  - intros Hac. destruct (Hmaster Hac) as (g0 & d & m & Hg0 & Hd & Hm & Hrest).
    exists g0, d, m. cbn. split; [done|]. split; [done|]. split; [|done].
    rewrite list_lookup_insert_ne; [done|]. congruence.
  - intros name r' Hr'. rewrite length_insert. by apply (Htable name).
  - by apply removed_NoDup.
  - intros x Hx. apply removed_elem in Hx as [Hx _]; [|done]. by apply Hglobalb.
  - intros r' S' HS'. destruct (Hso r' S' HS') as [[-> ->]|[Hne HS'']]; cbn.
    + split; [by apply removed_NoDup|].
      intros x Hx. apply removed_elem in Hx as [Hx _]; [|done]. by apply HbS.
    + by apply (Hlists r' S').
  - intros j J HJ. unfold inst_ok. cbn. rewrite !length_insert.
    destruct (Hinst j J HJ)
      as (Hs & Hgl & Hmm & m & cb' & r' & Hm & Ho' & Hst & Hr' & Hg' & Hl' & Hf').
    split; [done|]. split; [done|]. split; [done|].
    exists m, cb', r'.
    split; [done|]. split; [done|]. split; [done|]. split; [done|].
    split; [|split; [|done]].
    + intros Hem. rewrite removed_elem by done. split; [by apply Hg'|].
      intros ->. congruence.
    + intros r2 S2 HS2. destruct (Hso r2 S2 HS2) as [[-> ->]|[Hne2 HS2']]; cbn.
      * rewrite !removed_elem by done. rewrite (Hl' r S HS). tauto.
      * rewrite removed_elem by done. rewrite (Hl' r2 S2 HS2').
        split; [|tauto]. intros [-> Hj]. split; [done|]. split; [done|].
        intros ->. assert (r' = r) by congruence. done.
  - intros r' S' HS'. destruct (Hso r' S' HS') as [[-> ->]|[Hne HS'']]; cbn.
    + apply removed_sorted. by apply (Hsorted r S).
    + by apply (Hsorted r' S').
Qed.

(** Lines 221-231 of the handler. *)
Lemma handler_finishes h gn S w :
  gainNodes w !! h_gain h = Some gn → soundObjs w !! h_sound h = Some S →
  (gain_disconnect (h_gain h);;
   sound ← deref soundObjs (h_sound h);
   let si := indexOf (h_instance h) (instances sound) in
   (if (si >? (-1))%Z
    then update_sound (h_sound h) (fun s => set_instances (splice1 si (instances s)) s)
    else mret tt);;
   all ← gets (fun w => soundInstances (sys w));
   let i := indexOf (h_instance h) all in
   if (i >? (-1))%Z
   then modify (with_sys (fun s => set_soundInstances (splice1 i (soundInstances s)) s))
   else mret tt) w
  = (Normal tt, finished h gn S w).
Proof.
  intros Hg HS.
  assert (h_sound h < length (soundObjs w)) by (by apply lookup_lt_Some in HS).
  unfold gain_disconnect, update_gain, update_sound, finished, removed.
  js_unfold. world_destruct w. rewrite Hg. js_eval. rewrite HS. js_eval.
  assert (mkSound (buffer S) (maxSources S) (baseVolume S) (instances S) = S)
    as Heta by (by destruct S).
  destruct (indexOf (h_instance h) (instances S) >? -1)%Z;
    js_eval; rewrite ?HS; js_eval;
    destruct (indexOf (h_instance h) Wsi >? -1)%Z; js_eval;
    unfold set_instances; rewrite ?Heta, ?(list_insert_id _ _ _ HS);
    done.
Qed.

(** The delivery of [ended] to a source that can end: the handler starts,
    the callback makes its calls, and the handler finishes unless the
    callback throws. *)
Lemma dispatchEnded_eval s n h cb gn S w :
  sourceNodes w !! s = Some n → canEnd (currentTime w) n = true →
  s_onended n = Some h →
  gainNodes (calls (callsOf h cb) (fired s n h w)) !! h_gain h = Some gn →
  soundObjs (calls (callsOf h cb) (fired s n h w)) !! h_sound h = Some S →
  dispatchEnded s cb w
  = match thrownBy h cb with
    | Some e => (Throw e, calls (callsOf h cb) (fired s n h w))
    | None => (Normal tt, finished h gn S (calls (callsOf h cb) (fired s n h w)))
    end.
Proof.
  intros Hs Hcan Ho Hg HS.
  pose proof (handler_finishes h gn S _ Hg HS) as Hfin.
  unfold dispatchEnded.
  rewrite (bind_normal _ _ w n w) by (unfold deref; by rewrite Hs).
  rewrite (bind_normal _ _ w (currentTime w) w) by done.
  rewrite Hcan.
  rewrite (bind_normal _ _ w tt
             (with_sourceNodes (λ l, <[s := set_s_ended true n]> l) w)).
  2: { unfold update_source.
       by rewrite (bind_normal _ _ w n w) by (unfold deref; by rewrite Hs). }
  rewrite Ho. unfold onended.
  rewrite (bind_normal _ _ _ tt
             (with_firedLog (λ l, l ++ [h_instance h])
                (with_sourceNodes (λ l, <[s := set_s_ended true n]> l) w)))
    by done.
  unfold thrownBy, callsOf, fired in *.
  destruct (h_endedCallback h) as [c|].
  - unfold callEndedCallback.
    destruct (cr_throws cb) as [e|].
    + unfold mbind, JS_bind, modify, mthrow, JS_throw. done.
    + rewrite (bind_normal _ _ _ tt
        (calls (cr_calls cb)
           (with_callbackLog (λ l, l ++ [(c, h_instance h)])
              (with_firedLog (λ l, l ++ [h_instance h])
                 (with_sourceNodes (λ l, <[s := set_s_ended true n]> l) w)))));
        [exact Hfin|].
      unfold mbind, JS_bind, modify, mret, JS_ret. done.
  - rewrite (bind_normal _ _ _ tt
        (with_firedLog (λ l, l ++ [h_instance h])
           (with_sourceNodes (λ l, <[s := set_s_ended true n]> l) w))) by done.
    cbn [calls foldl] in Hfin.
    replace (with_callbackLog (λ l, l ++ [])
               (with_firedLog (λ l, l ++ [h_instance h])
                  (with_sourceNodes (λ l, <[s := set_s_ended true n]> l) w)))
      with (with_firedLog (λ l, l ++ [h_instance h])
              (with_sourceNodes (λ l, <[s := set_s_ended true n]> l) w))
      in * by (fields w; by rewrite app_nil_r).
    exact Hfin.
Qed.

(** The delivery of [ended] to the instance [I] at [i] whose source can
    end. *)
Lemma dispatchEnded_live i I n cbr w :
  inv w → instObjs w !! i = Some I → sourceNodes w !! i = Some n →
  canEnd (currentTime w) n = true →
  ∃ c r,
    let h := mkEndedHandler c i (gain I) r in
    let w1 := fired i n h w in
    let wc := calls (callsOf h cbr) w1 in
    s_onended n = Some h ∧
    i ∈ soundInstances (sys w) ∧ (i ∉ firedLog w) ∧
    inv w1 ∧ during w1 wc ∧ inv wc ∧
    ∃ I' n' gn S,
      instObjs wc !! i = Some I' ∧ gain I' = gain I ∧ tag I' = tag I ∧
      sourceNodes wc !! i = Some n' ∧ s_ended n' = true ∧ s_onended n' = Some h ∧
      gainNodes wc !! gain I = Some gn ∧ soundObjs wc !! r = Some S ∧
      i ∈ instances S ∧ i ∈ soundInstances (sys wc) ∧
      dispatchEnded i cbr w
      = match thrownBy h cbr with
        | Some e => (Throw e, wc)
        | None => (Normal tt, finished h gn S wc)
        end.
Proof.
  intros Hinv HI Hn Hcan.
  destruct (inv_inst w Hinv i I HI)
    as (_ & Hgl & _ & n0 & c & r & Hn0 & Ho & _ & Hr & Hg & Hl & Hf).
  assert (n0 = n) as -> by congruence.
  pose proof (canEnd_not_ended _ _ Hcan) as He.
  pose proof (canEnd_started _ _ Hcan) as Hst.
  exists c, r. cbn zeta.
  set (h := mkEndedHandler c i (gain I) r).
  set (w1 := fired i n h w). set (wc := calls (callsOf h cbr) w1).
  assert (inv w1) as Hinv1 by (by apply inv_handler_fired).
  assert (during w1 wc) as Hdu by (by apply calls_during).
  assert (inv wc) as Hinvc by (by apply inv_calls).
  destruct (fired_fields i n h w Hn)
    as (Hsys1 & Hso1 & Hio1 & Hgn1 & Hsn1 & _ & _ & _ & _ & _ & _).
  fold w1 in Hsys1, Hso1, Hio1, Hgn1, Hsn1.
  split; [done|]. split; [by apply Hg|].
  split; [intros Hx; apply Hf in Hx; congruence|].
  split; [done|]. split; [done|]. split; [done|].
  destruct (du_inst _ _ Hdu i I) as (I' & HI' & _ & Hg' & Ht'); [by rewrite Hio1|].
  destruct (du_source _ _ Hdu i _ Hsn1) as (n' & Hn' & He' & Ho' & _).
  destruct (lookup_lt_is_Some_2 (gainNodes w1) (gain I)) as [gn1 Hgn].
  { by rewrite Hgn1. }
  destruct (du_gain _ _ Hdu i I gn1) as (gn & Hgnc & _); [by rewrite Hio1|done|].
  destruct (lookup_lt_is_Some_2 (soundObjs w1) r) as [S1 HS1].
  { by rewrite Hso1. }
  destruct (du_lists _ _ Hdu r S1 HS1) as (S & HS & Hmem).
  exists I', n', gn, S. split; [done|]. split; [done|]. split; [done|].
  split; [done|]. split; [done|]. split; [by rewrite Ho'|]. split; [done|].
  split; [done|].
  assert (i ∈ soundInstances (sys w1)) as Hgl1 by (rewrite Hsys1; by apply Hg).
  split.
  { apply Hmem. rewrite Hso1 in HS1. apply (Hl r S1 HS1). split; [done|].
    by apply Hg. }
  split; [by apply (du_global _ _ Hdu)|].
  by apply (dispatchEnded_eval i n h cbr gn S).
Qed.

Lemma inv_dispatchEnded s cb w : inv w → inv (dispatchEnded s cb w).2.
Proof.
  intros Hinv.
  destruct (sourceNodes w !! s) as [n|] eqn:Hn.
  2: { rewrite dispatchEnded_skip; [done|]. intros n. by rewrite Hn. }
  destruct (canEnd (currentTime w) n) eqn:Hcan.
  2: { rewrite dispatchEnded_skip; [done|]. intros n'. rewrite Hn. by intros [= <-]. }
  assert (s < length (instObjs w)) as Hlt.
  { rewrite <- (inv_sources w Hinv). by apply lookup_lt_Some in Hn. }
  destruct (lookup_lt_is_Some_2 _ _ Hlt) as [I HI].
  destruct (dispatchEnded_live s I n cb w Hinv HI Hn Hcan)
    as (c & r & Ho & Hgl & Hnf & Hinv1 & Hdu & Hinvc & I' & n' & gn & S & HI' & Hg'
        & _ & Hn' & He' & Ho' & Hgn & HS & _ & _ & ->).
  destruct (thrownBy _ cb); [done|]. cbn [snd].
  rewrite <- Hg' in *. by apply (inv_handler_finished s I' n').
Qed.

(** *** Every run keeps the invariant *)

Lemma inv_step a w : inv w → inv (step a w).
Proof.
  intros Hinv. destruct (delivery a) eqn:Hd; [|by apply inv_step_simple].
  destruct a; try done. by apply inv_dispatchEnded.
Qed.

Lemma inv_run acts w : inv w → inv (run acts w).
Proof.
  revert w. induction acts as [|a acts IH]; intros w Hinv; [done|].
  cbn. apply IH. by apply inv_step.
Qed.

(** A world is reachable when some run from the initial world leads to it. *)
Lemma inv_reachable acts : inv (run acts initialWorld).
Proof. apply inv_run, inv_initial. Qed.

(** *** Properties that every transition keeps *)

Lemma part_of_refl a : part_of a a.
Proof. by left. Qed.

(** What every transition keeps, every action keeps: the delivery of
    [ended] is made of transitions. *)
Lemma step_preserves (P : World → Prop) (ok : Action → Prop) :
  (∀ a b, ok a → part_of b a → ok b) →
  (∀ w a w', inv w → ok a → Step w a w' → P w → P w') →
  ∀ a w, inv w → ok a → P w → P (step a w).
Proof.
  intros Hpart Hstep a w Hinv Hok HP.
  destruct (delivery a) eqn:Hd.
  2: { apply (Hstep w a); [done..|by apply step_Step|done]. }
  destruct a as [| | | | | |s cb| |]; try done. cbn [step].
  destruct (sourceNodes w !! s) as [n|] eqn:Hn.
  2: { rewrite dispatchEnded_skip; [done|]. intros n. by rewrite Hn. }
  destruct (canEnd (currentTime w) n) eqn:Hcan.
  2: { rewrite dispatchEnded_skip; [done|]. intros n'. rewrite Hn. by intros [= <-]. }
  assert (s < length (instObjs w)) as Hlt.
  { rewrite <- (inv_sources w Hinv). by apply lookup_lt_Some in Hn. }
  destruct (lookup_lt_is_Some_2 _ _ Hlt) as [I HI].
  destruct (dispatchEnded_live s I n cb w Hinv HI Hn Hcan)
    as (c & r & Ho & Hgl & Hnf & Hinv1 & Hdu & Hinvc & I' & n' & gn & S & HI' & Hg'
        & _ & Hn' & He' & Ho' & Hgn & HS & HiS & Hglc & ->).
  set (h := mkEndedHandler c s (gain I) r) in *.
  assert (P (fired s n h w)) as HP1.
  { apply (Hstep w (AEnded s cb)); [done..| |done]. by apply (Step_fired w s I n c r cb). }
  assert (∀ cs w0, (∀ x, x ∈ cs → x ∈ cr_calls cb) → inv w0 → P w0 →
            P (calls cs w0)) as Hcalls.
  { induction cs as [|x cs IH]; intros w0 Hsub Hinv0 HP0; [done|].
    cbn. assert (ok (actionOf x)) as Hokx.
    { apply (Hpart (AEnded s cb)); [done|]. right. exists s, cb, x.
      split; [done|]. split; [|done]. apply Hsub. by left. }
    apply IH.
    - intros y Hy. apply Hsub. by right.
    - rewrite call_step. apply inv_step_simple; [done|]. apply delivery_actionOf.
    - rewrite call_step. apply (Hstep w0 (actionOf x)); [done..| |done].
      apply step_Step; [done|]. apply delivery_actionOf. }
  assert (P (calls (callsOf h cb) (fired s n h w))) as HPc.
  { apply Hcalls; [|done..]. unfold callsOf. cbn.
    destruct c; [done|]. intros x Hx. by apply elem_of_nil in Hx. }
  destruct (thrownBy h cb); [done|]. cbn [snd].
  apply (Hstep (calls (callsOf h cb) (fired s n h w)) (AEnded s cb)); [done..| |done].
  subst h. rewrite <- Hg' in *. by apply (Step_finished _ s I' n' c r gn S cb).
Qed.

(** * The properties of the specification *)

Lemma Qleb_le a b : Qleb a b = true ↔ (a <= b)%Q.
Proof. apply Qle_bool_iff. Qed.

Lemma Qgtb_lt a b : Qgtb a b = true ↔ (b < a)%Q.
Proof.
  unfold Qgtb. rewrite negb_true_iff. split.
  - intros H. apply Qnot_le_lt. intros Hle. apply Qle_bool_iff in Hle. congruence.
  - intros H. destruct (Qle_bool a b) eqn:E; [|done].
    apply Qle_bool_iff in E. apply Qlt_not_le in H. done.
Qed.

(** ** Global volume *)

(** C6. In every reachable world with a context, [setGlobalVolume v]
    returns normally; afterwards the tracked volume and the value of the
    master gain are [v], and the master gain is disconnected (no output,
    flag false) exactly when [v <= 0] and connected to the destination
    (flag true) exactly when [v > 0].  In particular a call with volume 0
    followed by a call with a positive volume ends connected. *)
Theorem setGlobalVolume_tracks_connection (acts : list Action) (v : Q) :
  let w := run acts initialWorld in
  ac (sys w) ≠ None → volume_consistent w v.
Proof.
  intros w Hac.
  assert (∀ w0 x, inv w0 → ac (sys w0) ≠ None →
    ∃ g d n n', masterGain (sys w0) = Some g ∧ destinationNode (sys w0) = Some d ∧
      gainNodes w0 !! g = Some n ∧
      setGlobalVolume x w0 = (Normal tt, volumeSet x g n d w0) ∧
      let w' := volumeSet x g n d w0 in
      ac (sys w') = ac (sys w0) ∧
      masterGain (sys w') = Some g ∧ destinationNode (sys w') = Some d ∧
      volume (sys w') = x ∧ gainNodes w' !! g = Some n' ∧ g_value n' = x ∧
      gainConnected (sys w') = Some (Qgtb x 0) ∧
      g_outputs n' = (if Qgtb x 0 then [d] else [])) as Hset.
  { intros w0 x Hinv0 Hac0.
    destruct (inv_master w0 Hinv0 Hac0) as (g & d & n & Hg & Hd & Hn & _ & _ & Hc & Ho).
    destruct (ac (sys w0)) as [a|] eqn:Ea; [|done].
    exists g, d, n. eexists. split; [done|]. split; [done|]. split; [done|].
    split; [by apply (setGlobalVolume_eval _ _ a)|].
    assert (g < length (gainNodes w0)) by (by apply lookup_lt_Some in Hn).
    unfold volumeSet. clear Hinv0. world_destruct w0.
    rewrite list_lookup_insert_eq by done. done. }
  pose proof (inv_reachable acts) as Hinv. fold w in Hinv.
  destruct (Hset w v Hinv Hac)
    as (g & d & n & n' & Hg & Hd & Hn & Hev & Hac' & Hg' & Hd' & Hv & Hn' & Hval & Hc & Ho).
  unfold volume_consistent. exists g, d, n'. rewrite Hev. cbn [fst snd].
  split; [done|]. split; [done|]. split; [done|]. split; [done|].
  split; [done|]. split; [done|]. split; [done|]. split; [done|].
  rewrite Hc, Ho. split; [|split].
  - rewrite <- Qleb_le. unfold Qgtb, Qleb. destruct (Qle_bool v 0); cbn.
    + tauto.
    + split; [done|]. by intros [[=] _].
  - rewrite <- Qgtb_lt. destruct (Qgtb v 0); cbn.
    + tauto.
    + split; [done|]. by intros [[=] _].
  - intros v2 Hv2.
    destruct (Hset w 0%Q Hinv Hac)
      as (g0 & d0 & n0 & n0' & Hg0 & Hd0 & Hn0 & Hev0 & Hac0 & Hg0' & Hd0' & _).
    rewrite Hev0. cbn [snd].
    assert (inv (volumeSet 0 g0 n0 d0 w)) as Hinv1.
    { apply inv_volumeSet; done. }
    destruct (Hset _ v2 Hinv1)
      as (g1 & d1 & n1 & n1' & Hg1 & Hd1 & Hn1 & Hev1 & _ & _ & _ & _ & Hn1' & Hval1 & Hc1 & Ho1).
    { by rewrite Hac0. }
    rewrite Hev1. cbn [snd] in *.
    assert (g1 = g) as -> by congruence. assert (d1 = d) as -> by congruence.
    apply Qgtb_lt in Hv2. rewrite Hv2 in Hc1, Ho1.
    split; [done|]. by exists n1'.
Qed.

Lemma setGlobalVolume_tracks_connection_witness :
  ac (sys (run session initialWorld)) ≠ None
  ∧ volume_consistent (run session initialWorld) (1 # 2).
Proof.
  split; [by vm_compute|].
  apply (setGlobalVolume_tracks_connection session (1 # 2)). by vm_compute.
Defined.

(** ** Playing a sound that is not loaded, or that has no room *)

(** C7. In every reachable world, [play] of a name that is not in the
    sound table throws and leaves the world as it was, so no instance is
    created and [null] is never returned; with a context the error is the
    lookup error [Sound "name" does not exist]. *)
Theorem play_unknown_sound_throws (acts : list Action) (name : string)
    (volume : Q) (loop : bool) (tag : option Tag) (offset fadeInSeconds : Q)
    (stopOldestIfMax : bool) (endedCallback : option nat) :
  let w := run acts initialWorld in
  sounds (sys w) !! name = None →
  (∃ e, play name volume loop tag offset fadeInSeconds stopOldestIfMax
          endedCallback w = (Throw e, w))
  ∧ (ac (sys w) ≠ None →
     play name volume loop tag offset fadeInSeconds stopOldestIfMax
       endedCallback w = (Throw (soundDoesNotExist name), w)).
Proof.
  intros w Hn. split.
  - destruct (decide (ac (sys w) = None)) as [Hac|Hac].
    + eexists. by apply play_no_context.
    + eexists. by apply play_unknown.
  - intros Hac. by apply play_unknown.
Qed.

Lemma play_unknown_sound_throws_witness :
  sounds (sys (run session initialWorld)) !! "missing" = None
  ∧ (∃ e, play "missing" 1 false None 0 0 true None (run session initialWorld)
            = (Throw e, run session initialWorld))
  ∧ (ac (sys (run session initialWorld)) ≠ None →
     play "missing" 1 false None 0 0 true None (run session initialWorld)
       = (Throw (soundDoesNotExist "missing"), run session initialWorld)).
Proof.
  split; [by vm_compute|].
  apply (play_unknown_sound_throws session "missing" 1 false None 0 0 true None).
  by vm_compute.
Defined.

(** C4. In every reachable world, for a loaded sound whose [maxSources]
    is not positive, or whose instance list has reached [maxSources] while
    [stopOldestIfMax] is false, [play] returns [null] without throwing and
    the world, with every instance and both instance lists, is unchanged. *)
Theorem play_returns_null (acts : list Action) (name : string) (sr : Ref)
    (sound : Sound) (volume : Q) (loop : bool) (tag : option Tag)
    (offset fadeInSeconds : Q) (stopOldestIfMax : bool)
    (endedCallback : option nat) :
  let w := run acts initialWorld in
  sounds (sys w) !! name = Some sr → soundObjs w !! sr = Some sound →
  (maxSources sound <= 0)%Z
  ∨ ((Z.of_nat (length (instances sound)) >= maxSources sound)%Z
     ∧ stopOldestIfMax = false) →
  play name volume loop tag offset fadeInSeconds stopOldestIfMax endedCallback w
  = (Normal None, w).
Proof.
  intros w Hn Hsr Hcase.
  pose proof (inv_reachable acts) as Hinv. fold w in Hinv.
  rewrite (play_loaded _ _ _ _ _ _ _ _ _ sr sound);
    [|by apply (loaded_context w name sr)|done..].
  destruct (maxSources sound <=? 0)%Z eqn:Hmax; [done|].
  apply Z.leb_gt in Hmax. destruct Hcase as [Hle|[Hge ->]]; [lia|].
  unfold full. by rewrite (proj2 (Z.geb_le _ _)) by lia.
Qed.

Lemma play_returns_null_witness :
  sounds (sys (run oneClick initialWorld)) !! "click" = Some 0
  ∧ soundObjs (run oneClick initialWorld) !! 0
    = Some (mkSound clickBuffer 1 1 [0])
  ∧ ((1 <= 0)%Z ∨ ((Z.of_nat 1 >= 1)%Z ∧ false = false))
  ∧ play "click" 1 false None 0 0 false None (run oneClick initialWorld)
    = (Normal None, run oneClick initialWorld).
Proof.
  assert (sounds (sys (run oneClick initialWorld)) !! "click" = Some 0) as H1
    by (by vm_compute).
  assert (soundObjs (run oneClick initialWorld) !! 0
          = Some (mkSound clickBuffer 1 1 [0])) as H2 by (by vm_compute).
  assert ((1 <= 0)%Z ∨ ((Z.of_nat 1 >= 1)%Z ∧ false = false)) as H3
    by (right; split; [lia|done]).
  split; [done|]. split; [done|]. split; [done|].
  exact (play_returns_null oneClick "click" 0 (mkSound clickBuffer 1 1 [0])
           1 false None 0 0 false None H1 H2 H3).
Defined.

(** ** Stopping *)






(** C3, as stated, fails: of the two instances of [music] in the global
    list the second was refused by [start], its offset being negative.
    [stop()] sets the flag of that instance and calls [stop()] on its
    source, which throws; the first instance, which is playing, matches
    the filter and is not stopping, is never reached: its flag stays
    false and its source gets no [stop()]. *)
Lemma stop_marks_matching_instances_counterexample :
  ac (sys (run refusedStart initialWorld)) ≠ None
  ∧ soundInstances (sys (run refusedStart initialWorld)) = [0; 1]
  ∧ (stopping <$> instObjs (run refusedStart initialWorld) !! 0) = Some false
  ∧ (s_started <$> sourceNodes (run refusedStart initialWorld) !! 0)
    = Some (Some (0%Q, 0%Q))
  ∧ (s_started <$> sourceNodes (run refusedStart initialWorld) !! 1) = Some None
  ∧ (stop None 0 (run refusedStart initialWorld)).1 = Throw stopError
  ∧ (stopping <$> instObjs (stop None 0 (run refusedStart initialWorld)).2 !! 0)
    = Some false
  ∧ (s_stopCalls <$>
       sourceNodes (stop None 0 (run refusedStart initialWorld)).2 !! 0)
    = Some []
  ∧ (stopping <$> instObjs (stop None 0 (run refusedStart initialWorld)).2 !! 1)
    = Some true
  ∧ ¬ stop_outcome None 0 (run refusedStart initialWorld)
        (stop None 0 (run refusedStart initialWorld)).2.
Proof.
  repeat (split; [by vm_compute|]).
  intros H. destruct (H 0) as (I & sn & gn & HI & Hs & Hg & Hyes & _).
  { replace (soundInstances (sys (run refusedStart initialWorld))) with [0; 1]
      by (by vm_compute).
    by left. }
  vm_compute in HI. injection HI as <-.
  destruct Hyes as (Hflag & _); [done|by left|].
  vm_compute in Hflag. discriminate Hflag.
Qed.

(** ** What a call to [play] starts from *)

Lemma lists_extended_refl sr w : lists_extended sr [] w w.
Proof.
  split; [by rewrite app_nil_r|]. split; [done|]. intros r S HS. exists S.
  destruct (decide (r = sr)); by rewrite app_nil_r.
Qed.

Lemma startInstance_lists sr sound volume loop tag offset fadeIn cb w :
  inv w → ac (sys w) ≠ None → soundObjs w !! sr = Some sound →
  lists_extended sr
    (if rampAccepted sound volume fadeIn then [length (instObjs w)] else [])
    w (startInstance sr volume loop tag offset fadeIn cb w).2.
Proof.
  intros Hinv Hac Hsr.
  destruct (inv_master w Hinv Hac) as (m & _ & _ & Hm & _).
  assert (sr < length (soundObjs w)) by (by apply lookup_lt_Some in Hsr).
  destruct (rampAccepted sound volume fadeIn) eqn:Hramp.
  - rewrite (startInstance_eval _ sound _ _ _ _ _ _ m) by done. cbn [snd].
    unfold instanceStarted, lists_extended. clear Hinv. world_destruct w.
    split; [done|]. split; [by rewrite length_insert|]. intros r S HS.
    destruct (decide (r = sr)) as [->|Hne].
    + rewrite list_lookup_insert_eq by done. eexists. split; [done|].
      assert (S = sound) as -> by congruence. done.
    + rewrite list_lookup_insert_ne by done. exists S. by rewrite app_nil_r.
  - rewrite (startInstance_throws _ sound) by done. cbn [snd].
    assert (lists_extended sr [] w w) as Hrefl by apply lists_extended_refl.
    revert Hrefl. unfold lists_extended. clear Hinv. by world_destruct w.
Qed.

(** [play] never takes an instance out of a list: it leaves the lists as
    they are or appends the new instance. *)
Lemma play_lists name volume loop tag offset fadeIn so cb w :
  inv w →
  ∃ sr new, lists_extended sr new w
              (play name volume loop tag offset fadeIn so cb w).2.
Proof.
  intros Hinv.
  destruct (decide (ac (sys w) = None)) as [Hac|Hac].
  { rewrite play_no_context by done. exists 0, []. apply lists_extended_refl. }
  destruct (sounds (sys w) !! name) as [sr|] eqn:Hn.
  2: { rewrite play_unknown by done. exists 0, []. apply lists_extended_refl. }
  destruct (lookup_lt_is_Some_2 (soundObjs w) sr) as [sound Hsr].
  { by apply (inv_table w Hinv name). }
  destruct (decide (0 < maxSources sound)%Z) as [Hpos|Hnpos].
  2: { rewrite (play_loaded _ _ _ _ _ _ _ _ _ sr sound) by done.
       rewrite (proj2 (Z.leb_le _ _)) by lia.
       exists 0, []. apply lists_extended_refl. }
  destruct (full sound && negb so) eqn:Hnull.
  { apply andb_prop in Hnull as [Hf Hs]. apply negb_true_iff in Hs. subst so.
    rewrite (play_loaded _ _ _ _ _ _ _ _ _ sr sound) by done.
    rewrite (proj2 (Z.leb_gt _ _)), Hf by done.
    exists 0, []. apply lists_extended_refl. }
  assert (full sound = true → so = true) as Hso'.
  { intros Hf. rewrite Hf in Hnull. by destruct so. }
  destruct (full sound && negb (oldest_started sr w)) eqn:Hold.
  { apply andb_prop in Hold as [Hf Hs]. apply negb_true_iff in Hs.
    rewrite (Hso' Hf).
    rewrite (play_stop_refused _ _ _ _ _ _ _ _ sr sound) by done.
    exists 0, []. apply lists_extended_refl. }
  destruct (play_starts name volume loop tag offset fadeIn so cb w sr sound)
    as (w0 & Hw0 & ->); try done.
  { intros Hf. rewrite Hf in Hold. by destruct (oldest_started sr w). }
  destruct (beforeStart_same sound w w0 Hw0) as (Hsys & Hso & Hio & _).
  pose proof (startInstance_lists sr sound volume loop tag offset fadeIn cb w0)
    as Hl.
  unfold lists_extended in *. rewrite Hsys, Hso, Hio in Hl.
  exists sr, (if rampAccepted sound volume fadeIn
              then [length (instObjs w)] else []).
  apply Hl; [by apply (inv_beforeStart sound w)|done|done].
Qed.

(** ** Only the end handler removes an instance *)

Lemma keeps_members_same w w' :
  soundInstances (sys w') = soundInstances (sys w) →
  (∀ r S, soundObjs w !! r = Some S → soundObjs w' !! r = Some S) →
  keeps_members w w'.
Proof.
  intros Hsi Hso. split; [by rewrite Hsi|].
  intros r S HS. exists S. split; [by apply Hso|done].
Qed.

Lemma keeps_members_refl w : keeps_members w w.
Proof. by apply keeps_members_same. Qed.

Lemma keeps_members_extended sr new w w' :
  lists_extended sr new w w' → keeps_members w w'.
Proof.
  intros (Hsi & _ & Hso). split.
  - intros i Hi. rewrite Hsi. apply elem_of_app. by left.
  - intros r S HS. destruct (Hso r S HS) as (S' & HS' & _ & _ & _ & Hl).
    exists S'. split; [done|]. intros i Hi. rewrite Hl. apply elem_of_app. by left.
Qed.

Lemma step_keeps_members a w :
  inv w → (∀ s cb, a ≠ AEnded s cb) → keeps_members w (step a w).
Proof.
  intros Hinv Hne.
  assert (delivery a = false) as Hd.
  { destruct a as [| | | | | |s cb| |]; try done. by destruct (Hne s cb). }
  pose proof (Step_during w a _ Hinv Hd (step_Step a w Hinv Hd)) as Hdu.
  split; [by apply (du_global _ _ Hdu)|by apply (du_lists _ _ Hdu)].
Qed.

(** [play] returns [null] for a full sound when it may not stop the
    oldest instance. *)
Lemma play_full_null name volume loop tag offset fadeIn cb w sr sound :
  inv w → sounds (sys w) !! name = Some sr → soundObjs w !! sr = Some sound →
  full sound = true →
  play name volume loop tag offset fadeIn false cb w = (Normal None, w).
Proof.
  intros Hinv Hn Hsr Hfull.
  rewrite (play_loaded _ _ _ _ _ _ _ _ _ sr sound);
    [|by apply (loaded_context w name sr)|done..].
  rewrite Hfull. by destruct (maxSources sound <=? 0)%Z.
Qed.

(** C8. In every reachable world, [stop] leaves the global instance list,
    the sound table and every sound object (so every per-sound instance
    list) as they were, and changes no field of an instance other than the
    stopping flag; no action other than the delivery of an [ended] event
    ever takes an instance out of the global list or out of the list of a
    sound object; and after [stop], also with a fade-out, a sound whose
    list had reached [maxSources] is still full: [play] with
    [stopOldestIfMax = false] returns [null]. *)
Theorem stop_keeps_lists (acts : list Action) (filter : option Tag)
    (fadeOutSeconds : Q) :
  let w := run acts initialWorld in
  stop_frame filter fadeOutSeconds w
  ∧ ∀ a, (∀ s cb, a ≠ AEnded s cb) → keeps_members w (step a w).
Proof.
  intros w. pose proof (inv_reachable acts) as Hinv. fold w in Hinv.
  split; [|intros a Ha; by apply step_keeps_members].
  unfold stop_frame.
  destruct (decide (ac (sys w) = None)) as [Hac|Hac].
  - rewrite stop_no_context by done. cbn [snd].
    split; [done|]. split; [done|]. split; [done|]. split; [done|].
    split; [intros r I HI; by exists I|].
    intros name sr sound volume loop tag offset fadeIn cb Hn Hsr Hge.
    apply (play_full_null _ _ _ _ _ _ _ _ sr sound); try done.
    unfold full. by apply Z.geb_le, Z.ge_le.
  - destruct (stop_spec filter fadeOutSeconds w Hinv Hac)
      as (c & w' & sel & -> & Hinv' & _ & Hrel & _).
    cbn [snd]. destruct Hrel.
    split; [by rewrite sr_sys0|]. split; [by rewrite sr_sys0|].
    split; [done|]. split; [|split].
    + apply Nat.le_antisymm; apply Nat.le_ngt; intros Hlt.
      * destruct (lookup_lt_is_Some_2 (instObjs w') (length (instObjs w)))
          as [I HI]; [lia|].
        rewrite sr_inst0 in HI. by rewrite lookup_ge_None_2 in HI.
      * destruct (lookup_lt_is_Some_2 (instObjs w) (length (instObjs w')))
          as [I HI]; [lia|].
        pose proof (sr_inst0 (length (instObjs w'))) as HI'.
        rewrite HI in HI'. by rewrite lookup_ge_None_2 in HI'.
    + intros r I HI. rewrite sr_inst0, HI. cbn. eexists. split; [done|].
      by destruct (hit filter sel r I).
    + intros name sr sound volume loop tag offset fadeIn cb Hn Hsr Hge.
      apply (play_full_null _ _ _ _ _ _ _ _ sr sound); try done.
      * by rewrite sr_sys0.
      * by rewrite sr_soundObjs0.
      * unfold full. by apply Z.geb_le, Z.ge_le.
Qed.

(** ** A call to [play] that creates an instance *)

(** The new objects in the world after [instanceStarted], and what it
    keeps of [w0]. *)
Lemma instanceStarted_new sr sound volume loop tag offset fadeIn cb m w0 :
  soundObjs w0 !! sr = Some sound →
  let w' := instanceStarted sr sound volume loop tag offset fadeIn cb m w0 in
  let i := length (instObjs w0) in
  let g := length (gainNodes w0) in
  soundInstances (sys w') = soundInstances (sys w0) ++ [i]
  ∧ soundObjs w' !! sr = Some (set_instances (instances sound ++ [i]) sound)
  ∧ instObjs w'
    = instObjs w0 ++ [mkInstance (length (sourceNodes w0)) g tag false
                        (currentTime w0)]
  ∧ gainNodes w'
    = gainNodes w0 ++ [newGain sound volume fadeIn (currentTime w0) m]
  ∧ sourceNodes w'
    = sourceNodes w0 ++ [newSource sound loop offset (currentTime w0) g
                           (mkEndedHandler cb i g sr)]
  ∧ currentTime w' = currentTime w0.
Proof.
  intros Hsr. assert (sr < length (soundObjs w0)) by (by apply lookup_lt_Some in Hsr).
  unfold instanceStarted. world_destruct w0.
  by rewrite list_lookup_insert_eq by done.
Qed.

(** The oldest instance of a full sound, with the handler of its source. *)
Lemma full_oldest_handler sound w sr :
  inv w → soundObjs w !! sr = Some sound →
  (0 < maxSources sound)%Z → full sound = true →
  ∃ o rest I sn c,
    instances sound = o :: rest ∧ instObjs w !! o = Some I ∧
    source I = o ∧ sourceNodes w !! o = Some sn ∧
    s_onended sn = Some (mkEndedHandler c o (gain I) sr) ∧
    o ∈ soundInstances (sys w) ∧
    oldest_started sr w = bool_decide (s_started sn ≠ None).
Proof.
  intros Hinv Hsr Hpos Hfull.
  destruct (full_oldest sound w sr) as (o & rest & I & sn & Hl & HI & Hs & Hsn);
    try done.
  destruct (inv_inst w Hinv o I HI)
    as (_ & _ & _ & n0 & c & r0 & Hn0 & Ho & _ & _ & _ & Hli & _).
  assert (n0 = sn) as -> by congruence.
  assert (o ∈ instances sound) as Hin by (rewrite Hl; by left).
  apply (Hli sr sound Hsr) in Hin as [<- Hgl].
  exists o, rest, I, sn, c. do 6 (split; [done|]).
  apply (oldest_started_eq sr sound o rest I sn); try done. by rewrite Hs.
Qed.

(** A call to [play] that finds the sound full and may stop the oldest
    instance [o]. *)
Lemma play_evicting name volume loop tag offset fadeIn cb w sr sound :
  inv w → sounds (sys w) !! name = Some sr → soundObjs w !! sr = Some sound →
  (0 < maxSources sound)%Z → full sound = true →
  ∃ o rest I sn c,
    instances sound = o :: rest ∧ instObjs w !! o = Some I ∧
    source I = o ∧ sourceNodes w !! o = Some sn ∧
    s_onended sn = Some (mkEndedHandler c o (gain I) sr) ∧
    o ∈ soundInstances (sys w) ∧
    let r := play name volume loop tag offset fadeIn true cb w in
    let i := length (instObjs w) in
    let new := if rampAccepted sound volume fadeIn then [i] else [] in
    inv r.2
    ∧ (s_started sn = None → r = (Throw stopError, w))
    ∧ (s_started sn ≠ None →
       r.1 = (if rampAccepted sound volume fadeIn then startOutcome offset i
              else Throw rampError)
       ∧ sourceNodes r.2 !! o = Some (set_s_stopCalls (s_stopCalls sn ++ [None]) sn)
       ∧ gainNodes r.2 !! gain I = gainNodes w !! gain I
       ∧ instObjs r.2 !! o = Some I
       ∧ soundObjs r.2 !! sr = Some (set_instances (o :: rest ++ new) sound)
       ∧ soundInstances (sys r.2) = soundInstances (sys w) ++ new
       ∧ currentTime r.2 = currentTime w).
Proof.
  intros Hinv Hn Hsr Hpos Hfull.
  pose proof (inv_play name volume loop tag offset fadeIn true cb w Hinv) as Hinv'.
  destruct (full_oldest_handler sound w sr)
    as (o & rest & I & sn & c & Hl & HI & Hs & Hsn & Ho & Hgl & Hold); try done.
  exists o, rest, I, sn, c. do 6 (split; [done|]). cbn zeta.
  split; [done|]. split.
  { intros Hst. apply (play_stop_refused _ _ _ _ _ _ _ _ sr sound); try done.
    rewrite Hold. apply bool_decide_eq_false_2. by intros []. }
  intros Hst. rewrite <- bool_decide_eq_true in Hst. rewrite <- Hold in Hst.
  assert (sr < length (soundObjs w)) by (by apply lookup_lt_Some in Hsr).
  assert (o < length (sourceNodes w)) by (by apply lookup_lt_Some in Hsn).
  assert (o < length (instObjs w)) by (by apply lookup_lt_Some in HI).
  destruct (inv_inst w Hinv o I HI) as (_ & Hglt & _).
  destruct (rampAccepted sound volume fadeIn) eqn:Hramp.
  - destruct (play_started name volume loop tag offset fadeIn true cb w sr sound)
      as (m & w0 & Hm & Hw0 & Hplay); try done.
    rewrite Hplay in *. cbn [fst snd] in *.
    destruct Hw0 as [[Hf _]|[_ (o' & rest' & I' & sn' & Hl' & HI' & Hs' & Hsn' & _ & ->)]];
      [congruence|].
    assert (o' = o) as -> by congruence.
    assert (rest' = rest) as -> by congruence.
    assert (I' = I) as -> by congruence.
    assert (sn' = sn) as -> by congruence.
    split; [done|].
    clear Hinv Hinv' Hplay. unfold instanceStarted, evicted. world_destruct w.
    rewrite !lookup_app_l by (rewrite ?length_insert; done).
    rewrite !list_lookup_insert_eq by done. rewrite Hl. done.
  - destruct (play_refused name volume loop tag offset fadeIn true cb w sr sound)
      as (w0 & Hw0 & Hplay); try done.
    rewrite Hplay in *. cbn [fst snd] in *.
    destruct Hw0 as [[Hf _]|[_ (o' & rest' & I' & sn' & Hl' & HI' & Hs' & Hsn' & _ & ->)]];
      [congruence|].
    assert (o' = o) as -> by congruence.
    assert (rest' = rest) as -> by congruence.
    assert (I' = I) as -> by congruence.
    assert (sn' = sn) as -> by congruence.
    split; [done|].
    clear Hinv Hinv' Hplay. unfold rampRefused, evicted. world_destruct w.
    rewrite !lookup_app_l by (rewrite ?length_insert; done).
    rewrite !list_lookup_insert_eq by done. rewrite !app_nil_r.
    replace (set_instances (source I :: rest) sound) with sound
      by (destruct sound; cbn in *; by subst).
    done.
Qed.

(** What lines 221-231 of the handler leave behind. *)
Lemma finished_fields h gn S w :
  soundObjs w !! h_sound h = Some S → gainNodes w !! h_gain h = Some gn →
  let w' := finished h gn S w in
  soundInstances (sys w') = removed (h_instance h) (soundInstances (sys w))
  ∧ soundObjs w' !! h_sound h
    = Some (set_instances (removed (h_instance h) (instances S)) S)
  ∧ (∀ r', r' ≠ h_sound h → soundObjs w' !! r' = soundObjs w !! r')
  ∧ length (soundObjs w') = length (soundObjs w)
  ∧ gainNodes w' !! h_gain h = Some (mkGainNode (g_value gn) (g_events gn) [])
  ∧ (∀ g, g ≠ h_gain h → gainNodes w' !! g = gainNodes w !! g)
  ∧ length (gainNodes w') = length (gainNodes w)
  ∧ sourceNodes w' = sourceNodes w ∧ instObjs w' = instObjs w
  ∧ callbackLog w' = callbackLog w ∧ firedLog w' = firedLog w
  ∧ sounds (sys w') = sounds (sys w) ∧ currentTime w' = currentTime w
  ∧ promises w' = promises w ∧ subLoads w' = subLoads w
  ∧ ac (sys w') = ac (sys w) ∧ masterGain (sys w') = masterGain (sys w)
  ∧ destinationNode (sys w') = destinationNode (sys w)
  ∧ acResuming (sys w') = acResuming (sys w)
  ∧ gainConnected (sys w') = gainConnected (sys w)
  ∧ volume (sys w') = volume (sys w).
Proof.
  intros HS Hg.
  assert (h_sound h < length (soundObjs w)) by (by apply lookup_lt_Some in HS).
  assert (h_gain h < length (gainNodes w)) by (by apply lookup_lt_Some in Hg).
  unfold finished. fields w.
  rewrite !list_lookup_insert_eq by done. rewrite !length_insert.
  split; [done|]. split; [done|]. split.
  { intros r' Hne. by rewrite list_lookup_insert_ne. }
  split; [done|]. split; [done|]. split; [|done].
  intros g Hne. by rewrite list_lookup_insert_ne.
Qed.


Lemma removed_absent x l : NoDup l → x ∉ removed x l.
Proof. intros Hnd Hx. by apply removed_elem in Hx as [_ Hx]. Qed.

(** The delivery of [ended] to the instance [I] at [o] of the sound at
    [sr], whose source can end, in a world [w]. *)
Lemma delivered_to o I n c sr cbr w :
  inv w → instObjs w !! o = Some I → sourceNodes w !! o = Some n →
  canEnd (currentTime w) n = true →
  s_onended n = Some (mkEndedHandler c o (gain I) sr) →
  let h := mkEndedHandler c o (gain I) sr in
  let res := dispatchEnded o cbr w in
  (thrownBy h cbr = None →
     res.1 = Normal tt
     ∧ (o ∉ soundInstances (sys res.2)) ∧ (o ∉ instancesOf sr res.2)
     ∧ (callsOf h cbr = [] →
        instancesOf sr res.2 = removed o (instancesOf sr w)
        ∧ soundInstances (sys res.2) = removed o (soundInstances (sys w))))
  ∧ (∀ e, thrownBy h cbr = Some e →
       res.1 = Throw e
       ∧ o ∈ soundInstances (sys res.2) ∧ o ∈ instancesOf sr res.2).
Proof.
  intros Hinv HI Hn Hcan Ho. cbn zeta.
  destruct (dispatchEnded_live o I n cbr w Hinv HI Hn Hcan)
    as (c' & r' & Ho' & Hgl & Hnf & Hinv1 & Hdu & Hinvc & I' & n' & gn & S & HI' & Hg'
        & _ & Hn' & He' & Ho'' & Hgn & HS & HiS & Hglc & ->).
  assert (c' = c) as -> by congruence. assert (r' = sr) as -> by congruence.
  set (h := mkEndedHandler c o (gain I) sr) in *.
  set (wc := calls (callsOf h cbr) (fired o n h w)) in *.
  split.
  - intros ->. cbn [fst snd].
    destruct (finished_fields h gn S wc HS Hgn) as (Hsi & Hso & _).
    cbn zeta in Hsi, Hso. cbn [h_instance h_sound h] in Hsi, Hso.
    split; [done|]. rewrite Hsi. unfold instancesOf at 1. rewrite Hso.
    cbn [set_instances instances].
    split; [apply removed_absent; by apply (inv_global wc Hinvc)|].
    split; [apply removed_absent; by apply (inv_lists wc Hinvc sr S HS)|].
    intros Hno. subst wc. rewrite Hno in *. cbn [calls foldl] in *.
    destruct (fired_fields o n h w Hn) as (Hsys1 & Hso1 & _).
    unfold instancesOf. rewrite Hso, Hsys1. rewrite Hso1 in HS. rewrite HS.
    done.
  - intros e ->. cbn [fst snd]. split; [done|]. split; [done|].
    unfold instancesOf. by rewrite HS.
Qed.

(** ** Eviction of the oldest instance *)




Lemma isTagPlaying_member w r I :
  r ∈ soundInstances (sys w) → instObjs w !! r = Some I →
  stopping I = false → isTagPlaying (tag I) w = true.
Proof.
  intros Hr HI Hs. unfold isTagPlaying. apply existsb_exists.
  exists r. split; [by apply list_elem_of_In|].
  rewrite HI, Hs. cbn. by apply bool_decide_eq_true_2.
Qed.

(** C9. In every reachable world, when [play] with [stopOldestIfMax =
    true] finds the list of a loaded sound full ([maxSources > 0]), it
    calls [stop()] on the source of the first instance of the list,
    whatever else the call does afterwards, without reading or writing
    the stopping flag of that instance: this holds when the flag is
    already true, in which case the source is stopped again (a source
    that was never started refuses the call, and [play] throws); the
    record of the instance is unchanged, so a false flag stays false and
    [isTagPlaying] of its tag is still true after the call; no action but
    the delivery of its [ended] event takes the instance out of the
    global list, and that delivery does when the callback returns. *)
Theorem eviction_ignores_stopping_flag (acts : list Action) (name : string)
    (sr : Ref) (sound : Sound) (volume : Q) (loop : bool) (tag0 : option Tag)
    (offset fadeInSeconds : Q) (endedCallback : option nat) :
  let w := run acts initialWorld in
  sounds (sys w) !! name = Some sr → soundObjs w !! sr = Some sound →
  (0 < maxSources sound)%Z →
  (Z.of_nat (length (instances sound)) >= maxSources sound)%Z →
  eviction_ignores_flag name volume loop tag0 offset fadeInSeconds
    endedCallback sr w.
Proof.
  intros w Hn Hsr Hpos Hlen.
  pose proof (inv_reachable acts) as Hinv. fold w in Hinv.
  assert (full sound = true) as Hfull by (unfold full; apply Z.geb_le; lia).
  destruct (play_evicting name volume loop tag0 offset fadeInSeconds
              endedCallback w sr sound)
    as (o & rest & I & sn & c & Hl & HI & Hs & Hsn & Ho & Hgl & Hinv' & Hno & Hyes);
    try done.
  set (r := play name volume loop tag0 offset fadeInSeconds true endedCallback w)
    in *.
  unfold eviction_ignores_flag. fold r.
  exists o, rest, I, sn, (mkEndedHandler c o (gain I) sr).
  unfold instancesOf. rewrite Hsr, Hs.
  split; [done|]. split; [done|]. split; [done|]. split; [done|].
  split; [done|].
  assert (instObjs r.2 !! o = Some I ∧ o ∈ soundInstances (sys r.2)) as [HI' Hmem].
  { destruct (decide (s_started sn = None)) as [Hst|Hst].
    - by rewrite (Hno Hst).
    - destruct (Hyes Hst) as (_ & _ & _ & HI' & _ & -> & _). split; [done|].
      apply elem_of_app. by left. }
  split.
  { intros Hst. destruct (Hyes Hst) as (_ & -> & _). done. }
  split; [done|]. split; [done|].
  split; [intros Hflag; by apply (isTagPlaying_member r.2 o I)|].
  split.
  { intros a Ha.
    by apply (proj1 (step_keeps_members a r.2 Hinv' Ha)). }
  intros Hst He cbr Hthrown.
  destruct (Hyes Hst) as (_ & Hsn' & _).
  assert (canEnd (currentTime r.2)
            (set_s_stopCalls (s_stopCalls sn ++ [None]) sn) = true) as Hcan.
  { unfold canEnd, stopDue. cbn. rewrite last_snoc, He.
    rewrite bool_decide_eq_true_2 by done. by rewrite orb_true_r. }
  destruct (delivered_to o I _ c sr cbr r.2 Hinv' HI' Hsn' Hcan Ho) as [Hret _].
  by destruct (Hret Hthrown) as (_ & Hgone & _).
Qed.

Lemma eviction_ignores_stopping_flag_witness :
  sounds (sys (run fadingClick initialWorld)) !! "click" = Some 0
  ∧ soundObjs (run fadingClick initialWorld) !! 0
    = Some (mkSound clickBuffer 1 1 [0])
  ∧ (stopping <$> instObjs (run fadingClick initialWorld) !! 0) = Some true
  ∧ (0 < 1)%Z ∧ (Z.of_nat 1 >= 1)%Z
  ∧ eviction_ignores_flag "click" 1 false None 0 0 None 0
      (run fadingClick initialWorld).
Proof.
  assert (sounds (sys (run fadingClick initialWorld)) !! "click" = Some 0) as H1
    by (by vm_compute).
  assert (soundObjs (run fadingClick initialWorld) !! 0
          = Some (mkSound clickBuffer 1 1 [0])) as H2 by (by vm_compute).
  assert (Z.of_nat 1 >= 1)%Z as H4 by lia.
  split; [done|]. split; [done|]. split; [by vm_compute|].
  split; [done|]. split; [done|].
  exact (eviction_ignores_stopping_flag fadingClick "click" 0
           (mkSound clickBuffer 1 1 [0]) 1 false None 0 0 None
           H1 H2 eq_refl H4).
Defined.

(** ** The gain of a new instance *)



(** C10, as stated, fails: the sound [faint] has the base volume
    [1e-200]; played at the volume [1e-200] with a fade-in of one second,
    the product is positive, but the double that JavaScript computes for
    it is 0, and the platform refuses that target: [play] throws the
    range error and creates no instance. *)
Lemma play_fade_in_target_counterexample :
  sounds (sys (run faintSession initialWorld)) !! "faint" = Some 0
  ∧ (baseVolume <$> soundObjs (run faintSession initialWorld) !! 0)
    = Some (1 # 10 ^ 200)
  ∧ (0 < (1 # 10 ^ 200) * (1 # 10 ^ 200))%Q
  ∧ (0 < 1)%Q
  ∧ jsMul (1 # 10 ^ 200) (1 # 10 ^ 200) = 0%Q
  ∧ (play "faint" (1 # 10 ^ 200) false None 0 1 true None
       (run faintSession initialWorld)).1 = Throw rampError
  ∧ instObjs (play "faint" (1 # 10 ^ 200) false None 0 1 true None
                (run faintSession initialWorld)).2 = [].
Proof. repeat split; by vm_compute. Qed.

(** ** The life of an instance *)

(** An instance returned by [play] is new and alive: it is the last
    instance object, not stopping, with the tag of the call, in the global
    list, and its source has been started and has not ended. *)
Lemma play_creates_live name volume loop tag0 offset fadeIn so cb w i :
  inv w →
  (play name volume loop tag0 offset fadeIn so cb w).1 = Normal (Some i) →
  let w' := (play name volume loop tag0 offset fadeIn so cb w).2 in
  i = length (instObjs w) ∧
  ∃ I n,
    instObjs w' !! i = Some I ∧ tag I = tag0 ∧ stopping I = false ∧
    startTime I = currentTime w ∧
    sourceNodes w' !! source I = Some n ∧ s_ended n = false ∧
    s_started n = Some (currentTime w, offset) ∧
    i ∈ soundInstances (sys w').
Proof.
  intros Hinv Hres. cbn zeta.
  destruct (play_cases name volume loop tag0 offset fadeIn so cb w Hinv)
    as [[_ Hnone]|(sr & sound & w0 & Hn & Hsr & Hpos & Hso & Hold & Hw0 & Hcase)].
  { by destruct (Hnone i). }
  destruct Hcase as [[_ Hplay]|[_ (m & Hm & Hplay)]];
    rewrite Hplay in *; cbn [fst snd] in *; [done|].
  unfold startOutcome in Hres. destruct (Qleb 0 offset) eqn:Hoff; [|done].
  injection Hres as <-. split; [done|].
  destruct (beforeStart_same sound w w0 Hw0)
    as (Hsys & Hsobj & Hio & Hgn & Hct & Hlen & _).
  destruct (instanceStarted_new sr sound volume loop tag0 offset fadeIn cb m w0)
    as (Hsi & _ & Hio' & _ & Hsn' & _); [by rewrite Hsobj|].
  rewrite Hsi, Hio', Hsn'. rewrite Hio, Hlen, Hct.
  eexists _, _. split; [apply lookup_snoc|]. cbn.
  split; [done|]. split; [done|]. split; [done|].
  rewrite <- Hlen. split; [apply lookup_snoc|]. split; [done|].
  unfold newSource. cbn. rewrite Hoff. split; [done|].
  apply elem_of_app. right. by apply list_elem_of_singleton.
Qed.






(** C2, as stated, fails: the only instance of [click] was played with a
    callback; when its source has ended the handler fires and calls the
    callback, which throws.  After the handler has fired the instance is
    still in the global list and in the list of its sound, and its gain
    is still connected to the master gain. *)
Lemma instance_lifecycle_counterexample :
  instObjs (run throwingCallback initialWorld) !! 0
  = Some (mkInstance 0 1 None false 0)
  ∧ firedLog (run throwingCallback initialWorld) = [0]
  ∧ callbackLog (run throwingCallback initialWorld) = [(7, 0)]
  ∧ (s_ended <$> sourceNodes (run throwingCallback initialWorld) !! 0) = Some true
  ∧ soundInstances (sys (run throwingCallback initialWorld)) = [0]
  ∧ instancesOf 0 (run throwingCallback initialWorld) = [0]
  ∧ masterGain (sys (run throwingCallback initialWorld)) = Some 0
  ∧ (g_outputs <$> gainNodes (run throwingCallback initialWorld) !! 1)
    = Some [GainOf 0]
  ∧ ¬ in_no_list 0 (run throwingCallback initialWorld).
Proof.
  repeat (split; [by vm_compute|]).
  intros [Hno _]. apply Hno.
  replace (soundInstances (sys (run throwingCallback initialWorld))) with [0]
    by (by vm_compute).
  by left.
Qed.

(** ** Loading *)

Lemma beforeStart_loads sound w w0 :
  beforeStart sound w w0 → promises w0 = promises w ∧ subLoads w0 = subLoads w.
Proof.
  intros [[_ ->]|[_ (o & rest & I & sn & _ & _ & _ & _ & _ & ->)]]; [done|].
  unfold evicted. by destruct w.
Qed.

(** The cases of [Step], with the names that the proofs below use. *)
Ltac step_cases H :=
  destruct H as [c d Hac|c d Hac|v a g d n Hac Hg Hdn Hn|v Hac|l now Hac|l now Hac
    |k o l st Hk Hs Hp|k o Hk|name v lp tg off fi so cb Hno
    |name v lp tg off fi so cb sr sound m w0 Hac Hn Hsr Hpos Hso Hramp Hm Hw0
    |name v lp tg off fi so cb sr sound w0 Hac Hn Hsr Hpos Hso Hramp Hw0
    |tg fo Hac|tg fo sel w' Hac Hsub Hrel|s cbr Hskip|i I n c r cbr HI Hn Hcan Ho Hgl
    |i I n c r gn S cbr HI Hn He Ho Hg HS HiS Hgl|g v n Hg He|g v Hg|dt].

(** A rejected promise stays rejected. *)
Lemma step_keeps_rejected a w p e :
  inv w → promises w !! p = Some (Rejected e) →
  promises (step a w) !! p = Some (Rejected e).
Proof.
  intros Hinv Hrej.
  apply (step_preserves (λ w, promises w !! p = Some (Rejected e)) (λ _, True));
    try done.
  clear a w Hinv Hrej. intros w a w' Hinv _ H Hrej.
  assert (p < length (promises w)) as Hlt by (by apply lookup_lt_Some in Hrej).
  step_cases H; try done; try (by fields w).
  - unfold loadsStarted. fields w. by rewrite lookup_app_l.
  - unfold settled.
    assert (∀ x, (x = fulfilOne st ∨ (∃ e', x = rejectWith e' st)) →
              <[l_promise l := x]> (promises w) !! p = Some (Rejected e)) as Hins.
    { intros x Hx. destruct (decide (p = l_promise l)) as [->|Hne].
      - rewrite list_lookup_insert_eq by done.
        assert (st = Rejected e) as -> by congruence.
        by destruct Hx as [->|[e' ->]].
      - by rewrite list_lookup_insert_ne. }
    destruct (fetch_and_decode o); fields w; apply Hins; eauto.
  - destruct (beforeStart_loads sound w w0 Hw0) as [Hpr _]. rewrite <- Hpr in Hrej.
    unfold instanceStarted. by fields w0.
  - destruct (beforeStart_loads sound w w0 Hw0) as [Hpr _]. rewrite <- Hpr in Hrej.
    unfold rampRefused. by fields w0.
  - by rewrite (sr_promises _ _ _ _ _ Hrel).
  - destruct (Qgtb dt 0); by fields w.
Qed.

Lemma run_keeps_rejected acts w p e :
  inv w → promises w !! p = Some (Rejected e) →
  promises (run acts w) !! p = Some (Rejected e).
Proof.
  revert w. induction acts as [|a acts IH]; intros w Hinv Hp; [done|].
  cbn. apply IH; [by apply inv_step|by apply step_keeps_rejected].
Qed.

(** The failure of a chain. *)
Lemma settle_fails k l o error st w :
  inv w → subLoads w !! k = Some l → l_settled l = false →
  promises w !! l_promise l = Some st →
  fetch_and_decode o = inl error →
  load_failed w (settle k o w).2 l st error.
Proof.
  intros Hinv Hk Hs Hst Hfail.
  destruct (inv_loads w Hinv k l Hk) as [Hlt Hurl].
  pose proof (inv_step (ASettle k o) w Hinv) as Hinv'. cbn in Hinv'.
  rewrite (settle_eval k o w l st) in * by done. cbn [fst snd] in *.
  unfold settled in *. rewrite Hfail in *. unfold load_failed.
  split; [|split; [done|]].
  - fields w. rewrite list_lookup_insert_eq by done. by destruct st.
  - split; [by fields w|]. split; [by fields w|].
    intros e acts' He. by apply run_keeps_rejected.
Qed.

(** C5. In every reachable world: [asyncLoadSounds] starts one chain per
    sound and returns a promise for all of them; when a chain fails (fetch
    rejected, response not ok, body or decoding rejected) the promise is
    rejected at that moment with an error whose message contains the URL
    of the chain, and stays rejected; the failure changes nothing in the
    sound table, so the sounds stored by chains that succeeded stay, and a
    failed call can leave the table partly filled; a chain that succeeds
    stores the decoded buffer, [maxSources], [baseVolume] and an empty
    instance list under its name, replacing an earlier entry of the
    name. *)
Theorem loads_fail_fast_without_rollback (acts : list Action) :
  let w := run acts initialWorld in
  (∀ defs now, ac (sys w) ≠ None → loads_begin w defs now)
  ∧ ∀ k l o, subLoads w !! k = Some l → l_settled l = false →
      settle_outcome w k l o.
Proof.
  intros w. pose proof (inv_reachable acts) as Hinv. fold w in Hinv.
  split.
  - intros defs now Hac. destruct (ac (sys w)) as [a|] eqn:Ha; [|done].
    unfold loads_begin. rewrite (asyncLoadSounds_eval _ _ _ a) by done.
    cbn [fst snd]. split; [done|]. unfold loadsStarted.
    by destruct w as [[] ? ? ? ? ? ? ? ? ?].
  - intros k l o Hk Hs.
    destruct (inv_loads w Hinv k l Hk) as [Hlt Hurl].
    destruct (lookup_lt_is_Some_2 _ _ Hlt) as [st Hst].
    exists st. split; [done|].
    split; [by rewrite (settle_eval k o w l st)|]. cbn zeta.
    destruct o as [error|statusText|error|error|b].
    + by apply (settle_fails k l _ error st w).
    + by apply (settle_fails k l _ _ st w).
    + by apply (settle_fails k l _ error st w).
    + by apply (settle_fails k l _ error st w).
    + rewrite (settle_eval k _ w l st) by done. cbn [snd].
      unfold settled, load_stored. cbn [fetch_and_decode].
      destruct w as [[] ? ? ? ? ? ? ? ? ?]. cbn in *.
      split; [done|]. split; [done|].
      rewrite list_lookup_insert_eq by done. by destruct st as [[|[|n]]| |].
Qed.

Lemma loads_fail_fast_without_rollback_witness :
  subLoads (run halfLoaded initialWorld) !! 1
  = Some (mkSubLoad 0 "b" (mkSoundInfo "b.wav" 1 1) "./sounds/b.wav" false)
  ∧ settle_outcome (run halfLoaded initialWorld) 1
      (mkSubLoad 0 "b" (mkSoundInfo "b.wav" 1 1) "./sounds/b.wav" false)
      (ResponseNotOk "Not Found").
Proof.
  assert (subLoads (run halfLoaded initialWorld) !! 1
          = Some (mkSubLoad 0 "b" (mkSoundInfo "b.wav" 1 1) "./sounds/b.wav" false))
    as H by (by vm_compute).
  split; [done|].
  exact (proj2 (loads_fail_fast_without_rollback halfLoaded) 1 _
           (ResponseNotOk "Not Found") H eq_refl).
Defined.

Lemma partialLoad_example :
  promises (run partialLoad initialWorld) !! 0
  = Some (Rejected (Error
      ("Error loading sound file " +:+ dquote +:+ "./sounds/b.wav" +:+ dquote
       +:+ ", Error: Not Found")))
  ∧ sounds (sys (run partialLoad initialWorld)) !! "a" = Some 0
  ∧ sounds (sys (run partialLoad initialWorld)) !! "b" = None
  ∧ soundObjs (run partialLoad initialWorld) !! 0
    = Some (mkSound clickBuffer 1 1 []).
Proof. by vm_compute. Qed.

(** * Further properties of the code *)

(** ** The transitions of a world that satisfies the invariant *)

(** ** The context is created once *)

Lemma beforeStart_sys sound w w0 : beforeStart sound w w0 → sys w0 = sys w.
Proof. intros H. by destruct (beforeStart_same sound w w0 H) as (-> & _). Qed.

(** With a context, no transition touches the fields that
    [createAudioContext] has set. *)
Lemma Step_context w a w' :
  inv w → ac (sys w) ≠ None → Step w a w' →
  ac (sys w') = ac (sys w) ∧ masterGain (sys w') = masterGain (sys w)
  ∧ destinationNode (sys w') = destinationNode (sys w)
  ∧ acResuming (sys w') = acResuming (sys w).
Proof.
  intros Hinv Hctx H.
  step_cases H; try done.
  - unfold volumeSet. by fields w.
  - unfold loadsStarted. by fields w.
  - unfold settled. destruct (fetch_and_decode o); by fields w.
  - apply beforeStart_sys in Hw0. unfold instanceStarted.
    rewrite <- Hw0. by fields w0.
  - apply beforeStart_sys in Hw0. unfold rampRefused.
    rewrite <- Hw0. by fields w0.
  - by rewrite (sr_sys _ _ _ _ _ Hrel).
  - unfold fired. by fields w.
  - unfold finished. by fields w.
  - unfold automated. by fields w.
  - destruct (Qgtb dt 0); [|done]. by fields w.
Qed.

Lemma step_context a w :
  inv w → ac (sys w) ≠ None →
  context_fixed w (step a w) ∧ acResuming (sys (step a w)) = acResuming (sys w).
Proof.
  intros Hinv Hctx.
  assert (ac (sys (step a w)) = ac (sys w)
          ∧ masterGain (sys (step a w)) = masterGain (sys w)
          ∧ destinationNode (sys (step a w)) = destinationNode (sys w)
          ∧ acResuming (sys (step a w)) = acResuming (sys w)) as (? & ? & ? & ?);
    [|done].
  apply (step_preserves
           (λ w', ac (sys w') = ac (sys w)
                  ∧ masterGain (sys w') = masterGain (sys w)
                  ∧ destinationNode (sys w') = destinationNode (sys w)
                  ∧ acResuming (sys w') = acResuming (sys w)) (λ _, True));
    try done.
  intros w1 b w2 Hinv1 _ H (E1 & E2 & E3 & E4).
  destruct (Step_context w1 b w2 Hinv1) as (F1 & F2 & F3 & F4); [congruence|done|].
  rewrite F1, F2, F3, F4. done.
Qed.

Lemma run_context acts w :
  inv w → ac (sys w) ≠ None →
  context_fixed w (run acts w) ∧ acResuming (sys (run acts w)) = acResuming (sys w).
Proof.
  revert w. induction acts as [|a acts IH]; intros w Hinv Hac; [done|].
  change (run (a :: acts) w) with (run acts (step a w)).
  destruct (step_context a w Hinv Hac) as ((H1 & H2 & H3) & H4).
  destruct (IH (step a w)) as ((H1' & H2' & H3') & H4');
    [by apply inv_step|by rewrite H1|].
  unfold context_fixed. rewrite H1', H2', H3', H4'. done.
Qed.

(** X1. In every reachable world that has a context, [createAudioContext]
    throws [AudioContext already created] and changes nothing, whatever its
    arguments; and no sequence of actions replaces or removes the context,
    the master gain or the destination node that the first call has set. *)
Theorem createAudioContext_only_once (acts : list Action)
    (audioContext : option AudioContext) (destNode : option NodeId) :
  let w := run acts initialWorld in
  ac (sys w) ≠ None →
  createAudioContext audioContext destNode w
  = (Throw (Error "AudioContext already created"), w)
  ∧ ∀ acts', context_fixed w (run acts' w).
Proof.
  intros w Hac. pose proof (inv_reachable acts) as Hinv. fold w in Hinv.
  split; [by apply createAudioContext_already|].
  intros acts'. by apply run_context.
Qed.

Lemma createAudioContext_only_once_witness :
  ac (sys (run session initialWorld)) ≠ None
  ∧ createAudioContext (Some (GivenAudioContext 7)) (Some (ExternalNode 3))
      (run session initialWorld)
    = (Throw (Error "AudioContext already created"), run session initialWorld)
  ∧ ∀ acts', context_fixed (run session initialWorld)
               (run acts' (run session initialWorld)).
Proof.
  assert (ac (sys (run session initialWorld)) ≠ None) as H by (by vm_compute).
  split; [done|].
  exact (createAudioContext_only_once session (Some (GivenAudioContext 7))
           (Some (ExternalNode 3)) H).
Defined.

(** ** Before the context exists *)

(** X2. In a world without a context, [setGlobalVolume v] throws [Call
    .createAudioContext first], but only after it has stored [v] in
    [#volume]; nothing else changes.  A later [createAudioContext] then
    succeeds and applies the stored volume: the master gain it creates has
    the value [v], and it is connected to the destination, with
    [#gainConnected] true, exactly when [v] is positive. *)
Theorem setGlobalVolume_before_context (w : World) (v : Q)
    (audioContext : option AudioContext) (destNode : option NodeId) :
  ac (sys w) = None → volume_remembered v audioContext destNode w.
Proof.
  intros Hac. unfold volume_remembered.
  rewrite setGlobalVolume_no_context by done. cbn [fst snd].
  rewrite createAudioContext_eval by (by fields w). cbn [fst snd].
  split; [done|]. split; [done|]. split; [done|].
  unfold contextCreated. fields w.
  split; [done|]. split; [done|]. split; [done|].
  eexists _, _. split; [done|]. split; [apply lookup_snoc|]. cbn.
  split; [done|]. split.
  - intros Hv. apply Qgtb_lt in Hv. by rewrite Hv.
  - intros Hv. apply Qleb_le in Hv. unfold Qgtb, Qleb in *. by rewrite Hv.
Qed.

Lemma setGlobalVolume_before_context_witness :
  ac (sys initialWorld) = None
  ∧ volume_remembered (1 # 4) None None initialWorld.
Proof.
  split; [reflexivity|].
  exact (setGlobalVolume_before_context initialWorld (1 # 4) None None eq_refl).
Defined.

(** Without a context a reachable world is the initial one, up to the
    stored volume and the clock. *)
Lemma step_untouched a w :
  inv w → untouched w → ac (sys (step a w)) = None → untouched (step a w).
Proof.
  intros Hinv Hu Hctx. unfold untouched in *.
  destruct (delivery a) eqn:Hd.
  { destruct a as [| | | | | |s cb| |]; try done. cbn in *.
    rewrite dispatchEnded_skip; [done|]. intros n Hn.
    destruct Hu as (_ & _ & _ & _ & _ & _ & _ & _ & _ & Hsn & _).
    by rewrite Hsn in Hn. }
  pose proof (step_Step a w Hinv Hd) as H.
  step_cases H; try done.
  - exfalso. unfold contextCreated in Hctx. by fields w.
  - exfalso. unfold volumeSet in Hctx. fields w. congruence.
  - by fields w.
  - exfalso. unfold loadsStarted in Hctx. fields w. congruence.
  - exfalso. destruct Hu as (_ & _ & _ & _ & _ & _ & _ & _ & _ & _ & _ & Hsl & _).
    by rewrite Hsl in Hk.
  - exfalso. destruct Hu as (_ & _ & _ & _ & Hsd & _). by rewrite Hsd in Hn.
  - exfalso. destruct Hu as (_ & _ & _ & _ & Hsd & _). by rewrite Hsd in Hn.
  - exfalso. by rewrite (sr_sys _ _ _ _ _ Hrel) in Hctx.
  - exfalso. destruct Hu as (_ & _ & _ & _ & _ & _ & _ & _ & Hgn & _).
    by rewrite Hgn in Hg.
  - destruct (Qgtb dt 0); [|done]. by fields w.
Qed.

Lemma run_untouched acts :
  ac (sys (run acts initialWorld)) = None → untouched (run acts initialWorld).
Proof.
  induction acts as [|a acts IH] using rev_ind; [by intros _|].
  rewrite run_app. cbn. intros Hac.
  pose proof (inv_reachable acts) as Hinv.
  apply step_untouched; [done| |done]. apply IH.
  destruct (ac (sys (run acts initialWorld))) eqn:E; [|done]. exfalso.
  destruct (step_context a (run acts initialWorld) Hinv) as ((H & _) & _);
    [by rewrite E|].
  rewrite E in H. congruence.
Qed.

(** X3. A reachable world that has no context is untouched: no sound is
    in the table, no instance, node, promise or load exists.  In it [play],
    [stop], [asyncLoadSounds], [isAudioContextRunning] and the listener of
    [visibilitychange] throw [Call .createAudioContext first] and change
    nothing, the gesture listener returns without doing anything,
    [getSoundBuffer] throws the lookup error for every name and
    [isTagPlaying] is false for every tag. *)
Theorem operations_need_context (acts : list Action) :
  let w := run acts initialWorld in
  ac (sys w) = None → untouched w ∧ needs_context w.
Proof.
  intros w Hac. pose proof (run_untouched acts Hac) as Hu. fold w in Hu.
  split; [done|].
  destruct Hu as (_ & _ & _ & _ & Hs & Hsi & _).
  unfold needs_context.
  split; [intros; by apply play_no_context|].
  split; [intros; by apply stop_no_context|].
  split; [intros; by apply asyncLoadSounds_no_context|].
  unfold isAudioContextRunning, visibilitychange, userGesture, getSoundBuffer,
    getAudioContext, isTagPlaying.
  js_unfold. rewrite Hac, Hs, Hsi. cbn. done.
Qed.

Lemma operations_need_context_witness :
  ac (sys (run [ASetGlobalVolume (1 # 2); ATick 3;
                APlay "click" 1 false None 0 0 true None] initialWorld)) = None
  ∧ untouched (run [ASetGlobalVolume (1 # 2); ATick 3;
                    APlay "click" 1 false None 0 0 true None] initialWorld)
  ∧ needs_context (run [ASetGlobalVolume (1 # 2); ATick 3;
                        APlay "click" 1 false None 0 0 true None] initialWorld).
Proof.
  split; [reflexivity|].
  exact (operations_need_context
           [ASetGlobalVolume (1 # 2); ATick 3;
            APlay "click" 1 false None 0 0 true None] eq_refl).
Defined.

(** ** Looking up a loaded sound *)

Lemma getSoundBuffer_eval name w :
  getSoundBuffer name w =
    (match sounds (sys w) !! name with
     | None => Throw (soundDoesNotExist name)
     | Some sr =>
       match soundObjs w !! sr with
       | Some sound => Normal (buffer sound)
       | None => Throw (TypeError "dangling reference")
       end
     end, w).
Proof.
  unfold getSoundBuffer. js_unfold. cbn.
  destruct (sounds (sys w) !! name) as [sr|]; [|done].
  by destruct (soundObjs w !! sr).
Qed.

Lemma sounds_set_sounds m s : sounds (set_sounds m s) = m.
Proof. by destruct s. Qed.

(** The table and the sound objects after a chain has settled. *)
Lemma settled_decoded k l b st w :
  let w' := settled k l (Decoded b) st w in
  sys w' = set_sounds (<[l_name l := length (soundObjs w)]> (sounds (sys w))) (sys w)
  ∧ soundObjs w'
    = soundObjs w ++
      [mkSound b (info_maxSources (l_info l)) (info_baseVolume (l_info l)) []]
  ∧ instObjs w' = instObjs w ∧ sourceNodes w' = sourceNodes w
  ∧ gainNodes w' = gainNodes w ∧ currentTime w' = currentTime w.
Proof. unfold settled. cbn. by fields w. Qed.

Lemma settled_failed k l o error st w :
  fetch_and_decode o = inl error →
  let w' := settled k l o st w in
  sys w' = sys w ∧ soundObjs w' = soundObjs w
  ∧ instObjs w' = instObjs w ∧ sourceNodes w' = sourceNodes w
  ∧ gainNodes w' = gainNodes w ∧ currentTime w' = currentTime w.
Proof. intros Ho. unfold settled. rewrite Ho. by fields w. Qed.

(** X4. In every reachable world, when a pending chain of
    [asyncLoadSounds] has decoded the buffer [b], [getSoundBuffer] of its
    name returns [b] and changes nothing; the answer for every other name
    is the one from before; and a chain that fails changes the answer for
    no name, so that an earlier buffer of the same name stays
    available. *)
Theorem getSoundBuffer_after_load (acts : list Action) (k : Ref) (l : SubLoad)
    (b : AudioBuffer) :
  let w := run acts initialWorld in
  subLoads w !! k = Some l → l_settled l = false → buffer_stored k l b w.
Proof.
  intros w Hk Hs. pose proof (inv_reachable acts) as Hinv. fold w in Hinv.
  destruct (inv_loads w Hinv k l Hk) as [Hlt _].
  destruct (lookup_lt_is_Some_2 _ _ Hlt) as [st Hst].
  unfold buffer_stored.
  split; [|split].
  - rewrite (settle_eval k (Decoded b) w l st) by done. cbn [snd].
    rewrite getSoundBuffer_eval.
    destruct (settled_decoded k l b st w) as (Hsys & Hso & _).
    rewrite Hsys, Hso, sounds_set_sounds.
    by rewrite lookup_insert_eq, lookup_snoc.
  - intros name Hne. rewrite (settle_eval k (Decoded b) w l st) by done. cbn [snd].
    rewrite !getSoundBuffer_eval. cbn [fst].
    destruct (settled_decoded k l b st w) as (Hsys & Hso & _).
    rewrite Hsys, Hso, sounds_set_sounds.
    pose proof (inv_table w Hinv name) as Ht.
    rewrite lookup_insert_ne by done.
    destruct (sounds (sys w) !! name) as [sr|] eqn:E; [|done].
    by rewrite lookup_app_l by (by apply Ht).
  - intros o error name Ho. rewrite (settle_eval k o w l st) by done. cbn [snd].
    rewrite !getSoundBuffer_eval. cbn [fst].
    destruct (settled_failed k l o error st w Ho) as (Hsys & Hso & _).
    by rewrite Hsys, Hso.
Qed.

Lemma getSoundBuffer_after_load_witness :
  subLoads (run reloading initialWorld) !! 1
  = Some (mkSubLoad 1 "click" clickInfo "./sounds/click.wav" false)
  ∧ buffer_stored 1 (mkSubLoad 1 "click" clickInfo "./sounds/click.wav" false)
      (mkAudioBuffer 5 3) (run reloading initialWorld).
Proof.
  assert (subLoads (run reloading initialWorld) !! 1
          = Some (mkSubLoad 1 "click" clickInfo "./sounds/click.wav" false)) as H
    by (by vm_compute).
  split; [done|].
  exact (getSoundBuffer_after_load reloading 1 _ (mkAudioBuffer 5 3) H eq_refl).
Defined.

(** ** Loading a name again *)



(** ** Stopping and [isTagPlaying] *)






(** After a [start] that the platform refused, [stop] throws at the
    instance that was never started; the instance before it in the list
    is not reached and still counts as playing, and a second [stop] goes
    on from there. *)
Lemma stop_after_refused_start :
  ac (sys (run refusedStart initialWorld)) ≠ None
  ∧ all_started (run refusedStart initialWorld) = false
  ∧ (stop None 0 (run refusedStart initialWorld)).1 = Throw stopError
  ∧ isTagPlaying None (stop None 0 (run refusedStart initialWorld)).2 = true
  ∧ (stop None 0 (stop None 0 (run refusedStart initialWorld)).2).1 = Normal tt
  ∧ (stop None 0 (stop None 0 (run refusedStart initialWorld)).2).2
    ≠ (stop None 0 (run refusedStart initialWorld)).2.
Proof. repeat split; by vm_compute. Qed.




(** ** What [play] leaves behind *)






(** ** The cap of a sound *)

Lemma removed_length x l : (length (removed x l) ≤ length l)%nat.
Proof.
  unfold removed, splice1. destruct (indexOf x l >? -1)%Z; [|done].
  generalize (Z.to_nat (indexOf x l)). clear.
  induction l as [|y l IH]; intros [|n]; simpl; try lia.
  specialize (IH n). simpl in IH. lia.
Qed.

Lemma within_cap_same w w' : soundObjs w' = soundObjs w → within_cap w → within_cap w'.
Proof. unfold within_cap. by intros ->. Qed.

Lemma within_cap_insert w w' r S S' :
  soundObjs w !! r = Some S →
  soundObjs w' = <[r := S']> (soundObjs w) →
  (Z.of_nat (length (instances S')) <= Z.max 0 (maxSources S'))%Z →
  within_cap w → within_cap w'.
Proof.
  intros HS Hso Hle Hcap sr sound. rewrite Hso.
  destruct (decide (sr = r)) as [->|Hne].
  - rewrite list_lookup_insert_eq by (by apply lookup_lt_Some in HS).
    by intros [= <-].
  - rewrite list_lookup_insert_ne by done. apply Hcap.
Qed.

Lemma never_evicts_part a b :
  never_evicts [a] = true → part_of b a → never_evicts [b] = true.
Proof.
  intros Ha [->|(s & cb & c & -> & Hc & ->)]; [done|].
  cbn in Ha. rewrite andb_true_r in Ha.
  apply list_elem_of_In in Hc.
  pose proof (proj1 (forallb_forall _ _) Ha c Hc) as H.
  destruct c; cbn in *; try done. by rewrite H.
Qed.

Lemma Step_within_cap w a w' :
  inv w → never_evicts [a] = true → Step w a w' → within_cap w → within_cap w'.
Proof.
  intros Hinv Hnever H Hcap.
  step_cases H; try done.
  - apply (within_cap_same w); [|done]. unfold contextCreated. by fields w.
  - apply (within_cap_same w); [|done]. unfold volumeSet. by fields w.
  - apply (within_cap_same w); [|done]. by fields w.
  - apply (within_cap_same w); [|done]. unfold loadsStarted. by fields w.
  - destruct (fetch_and_decode o) as [e|b] eqn:Ho.
    + apply (within_cap_same w); [|done].
      by destruct (settled_failed k l o e st w Ho) as (_ & -> & _).
    + intros sr sound. unfold settled. rewrite Ho.
      assert (∀ x, (soundObjs w ++ [x]) !! sr = Some sound →
                instances x = [] →
                (Z.of_nat (length (instances sound)) <= Z.max 0 (maxSources sound))%Z)
        as Hnew.
      { intros x Hx Hempty. apply lookup_app_Some in Hx as [Hx|[_ Hx]].
        - by apply (Hcap sr).
        - destruct (sr - length (soundObjs w)) as [|?]; [|done].
          injection Hx as <-. rewrite Hempty. cbn. lia. }
      clear -Hnew. fields w. intros Hx. by apply (Hnew _ Hx).
  - cbn in Hnever. rewrite andb_true_r in Hnever. apply negb_true_iff in Hnever.
    subst so.
    assert (full sound = false) as Hfull.
    { destruct (full sound); [|done]. by specialize (Hso eq_refl). }
    destruct Hw0 as [[_ ->]|[Hf _]]; [|congruence].
    apply (within_cap_insert w _ sr sound
             (set_instances (instances sound ++ [length (instObjs w)]) sound));
      try done.
    + unfold instanceStarted. by fields w.
    + cbn. rewrite length_app. cbn. unfold full in Hfull.
      rewrite Z.geb_leb in Hfull. apply Z.leb_gt in Hfull. lia.
  - apply (within_cap_same w); [|done].
    destruct (beforeStart_same sound w w0 Hw0) as (_ & <- & _).
    unfold rampRefused. by fields w0.
  - apply (within_cap_same w); [|done]. apply (sr_soundObjs _ _ _ _ _ Hrel).
  - apply (within_cap_same w); [|done]. unfold fired. by fields w.
  - apply (within_cap_insert w _ r S (set_instances (removed i (instances S)) S));
      try done.
    + unfold finished. by fields w.
    + cbn. pose proof (removed_length i (instances S)).
      pose proof (Hcap r S HS). lia.
  - apply (within_cap_same w); [|done]. unfold automated. by fields w.
  - apply (within_cap_same w); [|done]. destruct (Qgtb dt 0); [|done]. by fields w.
Qed.

Lemma step_within_cap a w :
  inv w → within_cap w → never_evicts [a] = true → within_cap (step a w).
Proof.
  intros Hinv Hcap Hnever.
  apply (step_preserves within_cap (λ b, never_evicts [b] = true)); try done.
  - intros x y. apply never_evicts_part.
  - intros w1 b w2 Hinv1 Hb H. by apply (Step_within_cap w1 b).
Qed.

Lemma never_evicts_app acts acts' :
  never_evicts (acts ++ acts') = never_evicts acts && never_evicts acts'.
Proof. apply forallb_app. Qed.

(** X11. When no [play] of a run is allowed to stop the oldest instance
    (every call passes [stopOldestIfMax = false], those that the
    callbacks make included), no sound object ever has more instances in
    its list than its [maxSources], none at all when
    [maxSources] is not positive: instances that are fading out count,
    and a sound loaded again under the same name starts a count of its
    own. *)
Theorem cap_is_kept_without_eviction (acts : list Action) :
  never_evicts acts = true → within_cap (run acts initialWorld).
Proof.
  induction acts as [|a acts IH] using rev_ind; intros Hnever.
  - intros sr sound Hsr. done.
  - rewrite never_evicts_app in Hnever. apply andb_prop in Hnever as [H1 H2].
    rewrite run_app. cbn.
    apply step_within_cap; [apply inv_reachable|by apply IH|done].
Qed.

Lemma cap_is_kept_without_eviction_witness :
  never_evicts crowded = true
  ∧ instancesOf 0 (run crowded initialWorld) = [0]
  ∧ within_cap (run crowded initialWorld).
Proof.
  split; [reflexivity|]. split; [by vm_compute|].
  exact (cap_is_kept_without_eviction crowded eq_refl).
Defined.

(** ** The page: listeners and the names of the sounds *)

Lemma inv_acResuming b w : inv w → inv (with_sys (set_acResuming b) w).
Proof. intros Hinv. inv_split Hinv. world_destruct w. by constructor. Qed.

Lemma visibilitychange_eval hidden state w :
  visibilitychange hidden state w =
    if bool_decide (ac (sys w) ≠ None) then
      if hidden then
        (Normal (if bool_decide (state = Running) then Some CallSuspend else None), w)
      else if mayResume state w then
        (Normal (Some CallResume), with_sys (set_acResuming (Some true)) w)
      else (Normal None, w)
    else (Throw (Error "Call .createAudioContext first"), w).
Proof.
  unfold visibilitychange, getAudioContext, mayResume. js_unfold.
  destruct w as [[a ? ? ? ? ? ? ?] ? ? ? ? ? ? ? ? ?]; cbn.
  destruct a as [a|]; cbn; [|done].
  destruct hidden; [by case_bool_decide|].
  by destruct (bool_decide (state = Suspended) && _).
Qed.

Lemma userGesture_eval state w :
  userGesture state w =
    if mayResume state w then
      (Normal (Some CallResume), with_sys (set_acResuming (Some true)) w)
    else (Normal None, w).
Proof.
  unfold userGesture, mayResume. js_unfold.
  destruct w as [[a ? ? ? ? ? ? ?] ? ? ? ? ? ? ? ? ?]; cbn.
  destruct a as [a|]; cbn; [|done].
  by destruct (bool_decide (state = Suspended) && _).
Qed.

Lemma mayResume_resuming state w :
  mayResume state (with_sys (set_acResuming (Some true)) w) = false.
Proof.
  unfold mayResume. destruct w as [[] ? ? ? ? ? ? ? ? ?]; cbn.
  by rewrite andb_false_r.
Qed.

(** However many listeners a gesture runs, [resume()] is called at most
    once. *)
Lemma gesture_eval n state w :
  gesture n state w =
    if mayResume state w && negb (bool_decide (n = 0%nat)) then
      (1%nat, with_sys (set_acResuming (Some true)) w)
    else (0%nat, w).
Proof.
  revert w. induction n as [|n IH]; intros w; cbn [gesture].
  { by rewrite andb_false_r. }
  rewrite userGesture_eval. rewrite andb_true_r.
  destruct (mayResume state w) eqn:E; cbn [fst snd resumes].
  - rewrite IH, mayResume_resuming. done.
  - rewrite IH, E. done.
Qed.

(** A transition either creates the context, with the flag set to false,
    or leaves the context and the flag as they are. *)
Lemma Step_resuming w a w' :
  Step w a w' →
  (ac (sys w) = None ∧ ac (sys w') ≠ None ∧ acResuming (sys w') = Some false)
  ∨ (ac (sys w') = ac (sys w) ∧ acResuming (sys w') = acResuming (sys w)).
Proof.
  intros H.
  step_cases H; try (by right).
  - left. unfold contextCreated. by fields w.
  - right. unfold volumeSet. by fields w.
  - right. by fields w.
  - right. unfold loadsStarted. by fields w.
  - right. unfold settled. destruct (fetch_and_decode o); by fields w.
  - right. apply beforeStart_sys in Hw0. unfold instanceStarted.
    rewrite <- Hw0. by fields w0.
  - right. apply beforeStart_sys in Hw0. unfold rampRefused.
    rewrite <- Hw0. by fields w0.
  - right. by rewrite (sr_sys _ _ _ _ _ Hrel).
  - right. unfold fired. by fields w.
  - right. unfold finished. by fields w.
  - right. unfold automated. by fields w.
  - right. destruct (Qgtb dt 0); [|done]. by fields w.
Qed.

Lemma step_resuming a w :
  inv w →
  (ac (sys w) = None ∧ ac (sys (step a w)) ≠ None
   ∧ acResuming (sys (step a w)) = Some false)
  ∨ (ac (sys (step a w)) = ac (sys w)
     ∧ acResuming (sys (step a w)) = acResuming (sys w)).
Proof.
  intros Hinv.
  apply (step_preserves
           (λ w', (ac (sys w) = None ∧ ac (sys w') ≠ None
                   ∧ acResuming (sys w') = Some false)
                  ∨ (ac (sys w') = ac (sys w)
                     ∧ acResuming (sys w') = acResuming (sys w)))
           (λ _, True)); try done; [|by right].
  intros w1 b w2 Hinv1 _ H HP.
  destruct (Step_resuming w1 b w2 H) as [(E1 & E2 & E3)|(E1 & E2)].
  - destruct HP as [(F1 & F2 & F3)|(F1 & F2)]; [done|].
    left. split; [congruence|done].
  - rewrite E1, E2. done.
Qed.

(** Only a chain that decodes its sound changes the table. *)
Lemma Step_sounds w a w' :
  Step w a w' →
  sounds (sys w')
  = match a with
    | ASettle k o =>
      match stored k o w with
      | Some name => <[name := length (soundObjs w)]> (sounds (sys w))
      | None => sounds (sys w)
      end
    | _ => sounds (sys w)
    end.
Proof.
  intros H.
  step_cases H; try done.
  - unfold contextCreated. by fields w.
  - unfold volumeSet. by fields w.
  - by fields w.
  - unfold loadsStarted. by fields w.
  - unfold stored. rewrite Hk, Hs.
    destruct (fetch_and_decode o) as [e|b] eqn:Hfd.
    + by destruct (settled_failed k l o e st w Hfd) as (-> & _).
    + unfold settled. rewrite Hfd. by fields w.
  - unfold stored. destruct (subLoads w !! k) as [l|]; [|done].
    by rewrite (Hk l eq_refl).
  - apply beforeStart_sys in Hw0. unfold instanceStarted.
    rewrite <- Hw0. by fields w0.
  - apply beforeStart_sys in Hw0. unfold rampRefused.
    rewrite <- Hw0. by fields w0.
  - by rewrite (sr_sys _ _ _ _ _ Hrel).
  - unfold fired. by fields w.
  - unfold finished. by fields w.
  - unfold automated. by fields w.
  - destruct (Qgtb dt 0); [|done]. by fields w.
Qed.

Lemma step_sounds a w :
  inv w →
  sounds (sys (step a w))
  = match a with
    | ASettle k o =>
      match stored k o w with
      | Some name => <[name := length (soundObjs w)]> (sounds (sys w))
      | None => sounds (sys w)
      end
    | _ => sounds (sys w)
    end.
Proof.
  intros Hinv. destruct (delivery a) eqn:Hd.
  2: { by apply Step_sounds, step_Step. }
  destruct a as [| | | | | |s cb| |]; try done.
  apply (step_preserves (λ w', sounds (sys w') = sounds (sys w))
           (λ b, ∀ k o, b ≠ ASettle k o)); try done.
  - intros x y Hx [->|(s' & cb' & c & -> & _ & ->)]; [done|]. by destruct c.
  - intros w1 b w2 Hinv1 Hb H <-. rewrite (Step_sounds w1 b w2 H).
    destruct b; try done. by destruct (Hb k o).
Qed.

Lemma keysAfter_spec a w keys :
  keysAfter a w keys = keys
  ∨ ∃ k o name, a = ASettle k o ∧ stored k o w = Some name ∧ (name ∉ keys)
      ∧ keysAfter a w keys = keys ++ [name].
Proof.
  destruct a; try (by left). cbn. destruct (stored k o w) as [name|] eqn:E;
    [|by left].
  unfold keys_set. case_bool_decide; [by left|]. right. by exists k, o, name.
Qed.

Lemma keysAfter_elem a w keys name :
  inv w → (∀ n, n ∈ keys ↔ is_Some (sounds (sys w) !! n)) →
  name ∈ keysAfter a w keys ↔ is_Some (sounds (sys (step a w)) !! name).
Proof.
  intros Hinv Hkeys. rewrite (step_sounds a w Hinv).
  destruct a; try apply Hkeys. cbn.
  destruct (stored k o w) as [name0|]; [|apply Hkeys].
  rewrite lookup_insert_is_Some. unfold keys_set.
  case_bool_decide as E.
  - rewrite Hkeys. split; [|intros [<-|[_ ?]]; [by apply Hkeys|done]].
    intros H. destruct (decide (name0 = name)); [by left|by right].
  - rewrite elem_of_app, list_elem_of_singleton, Hkeys. split.
    + intros [H| ->]; [|by left].
      destruct (decide (name0 = name)); [by left|by right].
    + intros [<-|[_ H]]; [by right|by left].
Qed.

Lemma page_inv_same p p' :
  world p' = world p → soundKeys p' = soundKeys p →
  resumesInFlight p' = resumesInFlight p → page_inv p → page_inv p'.
Proof.
  intros H1 H2 H3 [Hw Hkeys Hnd Hfl Hfr].
  constructor; by rewrite ?H1, ?H2, ?H3.
Qed.

Lemma pageStep_inv e p : page_inv p → page_inv (pageStep e p).
Proof.
  intros Hp. pose proof Hp as [Hw Hkeys Hnd Hfl Hfr].
  destruct e as [a| |hidden state|state|]; cbn.
  - constructor; cbn.
    + by apply inv_step.
    + intros name. by apply keysAfter_elem.
    + destruct (keysAfter_spec a (world p) (soundKeys p))
        as [->|(k & o & name & _ & _ & Hnew & ->)]; [done|].
      apply NoDup_app. split; [done|]. split; [|apply NoDup_singleton].
      intros x Hx Hx'. apply list_elem_of_singleton in Hx'. by subst.
    + destruct (step_resuming a (world p) Hw) as [(Hno & _ & ->)|(_ & ->)];
        [|done].
      by rewrite Hfl, (Hfr Hno).
    + intros Hac.
      destruct (step_resuming a (world p) Hw) as [(_ & Hyes & _)|(Ha & ->)];
        [done|].
      apply Hfr. by rewrite <- Ha.
  - by apply (page_inv_same p).
  - rewrite visibilitychange_eval.
    case_bool_decide as Hac; [|by apply (page_inv_same p)].
    destruct hidden; [case_bool_decide; by apply (page_inv_same p)|].
    destruct (mayResume state (world p)) eqn:E; [|by apply (page_inv_same p)].
    unfold mayResume in E.
    apply andb_prop in E as [_ E]. apply negb_true_iff in E.
    rewrite E in Hfl. cbn [fst snd resumes].
    constructor; cbn.
    + by apply inv_acResuming.
    + intros name. rewrite Hkeys. by fields (world p).
    + done.
    + rewrite Hfl. by fields (world p).
    + by fields (world p).
  - rewrite gesture_eval.
    destruct (mayResume state (world p) && _) eqn:E;
      [|by apply (page_inv_same p)].
    apply andb_prop in E as [E _]. unfold mayResume in E.
    apply andb_prop in E as [E1 E]. apply andb_prop in E1 as [Hac _].
    apply bool_decide_eq_true in Hac. apply negb_true_iff in E.
    rewrite E in Hfl. cbn [fst snd].
    constructor; cbn.
    + by apply inv_acResuming.
    + intros name. rewrite Hkeys. by fields (world p).
    + done.
    + rewrite Hfl. by fields (world p).
    + by fields (world p).
  - destruct (resumesInFlight p) as [|n] eqn:En; [done|].
    destruct (truthy (acResuming (sys (world p)))) eqn:E; [|done].
    injection Hfl as ->.
    assert (ac (sys (world p)) ≠ None) as Hac.
    { intros Hno. by rewrite (Hfr Hno) in E. }
    unfold resumeFinally, modify. cbn.
    constructor; cbn.
    + by apply inv_acResuming.
    + intros name. rewrite Hkeys. by fields (world p).
    + done.
    + by fields (world p).
    + by fields (world p).
Qed.

Lemma page_inv_initial : page_inv initialPage.
Proof.
  constructor; cbn; try done.
  - apply inv_initial.
  - intros name. rewrite lookup_empty. split; [|by intros []].
    intros H. by apply elem_of_nil in H.
  - apply NoDup_nil_2.
Qed.

Lemma runPage_app evs evs' p : runPage (evs ++ evs') p = runPage evs' (runPage evs p).
Proof. apply foldl_app. Qed.

Lemma page_inv_reachable evs : page_inv (runPage evs initialPage).
Proof.
  induction evs as [|e evs IH] using rev_ind; [apply page_inv_initial|].
  rewrite runPage_app. cbn. by apply pageStep_inv.
Qed.

(** X5. On every reachable page, [getSoundNames] lists each name of the
    sound table once: a name is listed exactly when [getSoundBuffer]
    returns a buffer for it, and it is not listed exactly when
    [getSoundBuffer] throws the lookup error.  No event removes a name or
    changes the order of the names; a name that enters the table is added
    at the end, so the names come in the order in which they were first
    loaded, and loading a name again does not move it. *)
Theorem getSoundNames_lists_the_table (evs : list Event) :
  names_listed (runPage evs initialPage).
Proof.
  pose proof (page_inv_reachable evs) as Hp.
  set (p := runPage evs initialPage) in *.
  destruct Hp as [Hw Hkeys Hnd Hfl Hfr]. unfold names_listed, getSoundNames.
  split; [done|].
  assert (∀ name, is_Some (sounds (sys (world p)) !! name) ↔
            ∃ b, getSoundBuffer name (world p) = (Normal b, world p)) as Hbuf.
  { intros name. rewrite getSoundBuffer_eval.
    destruct (sounds (sys (world p)) !! name) as [sr|] eqn:E.
    - destruct (lookup_lt_is_Some_2 (soundObjs (world p)) sr) as [sound ->].
      { by apply (inv_table _ Hw name). }
      split; [by eexists|by eexists].
    - split; [by intros []|by intros [b [=]]]. }
  split; [intros name; by rewrite Hkeys|].
  split.
  { intros name. rewrite Hkeys, getSoundBuffer_eval.
    destruct (sounds (sys (world p)) !! name) as [sr|] eqn:E.
    - destruct (lookup_lt_is_Some_2 (soundObjs (world p)) sr) as [sound ->].
      { by apply (inv_table _ Hw name). }
      split; [intros H; destruct H; by eexists|by intros [=]].
    - split; [done|]. by intros _ []. }
  intros e.
  destruct e as [a| |hidden state|state|]; cbn;
    try (split; [done|]).
  - destruct (keysAfter_spec a (world p) (soundKeys p))
      as [Hsame|(k & o & name0 & -> & Hst & Hnew & Hk)].
    + rewrite Hsame. split; [done|]. intros name Hno Hyes. exfalso.
      apply Hyes. apply eq_None_not_Some. intros Hsome.
      apply (keysAfter_elem a (world p) (soundKeys p) name Hw Hkeys) in Hsome.
      rewrite Hsame in Hsome. apply Hkeys in Hsome. rewrite Hno in Hsome.
      by destruct Hsome.
    + rewrite Hk. split; [by apply prefix_app_r|].
      intros name Hno Hyes. f_equal. f_equal.
      rewrite (step_sounds _ _ Hw), Hst in Hyes.
      destruct (decide (name0 = name)) as [->|Hne]; [done|].
      by rewrite lookup_insert_ne in Hyes.
  - intros name Hno Hyes. by destruct Hyes.
  - rewrite visibilitychange_eval. intros name Hno Hyes. exfalso. apply Hyes.
    rewrite <- Hno. clear.
    case_bool_decide; [|done]. destruct hidden; [done|].
    destruct (mayResume state (world p)); [|done]. by fields (world p).
  - rewrite gesture_eval. intros name Hno Hyes. exfalso. apply Hyes.
    rewrite <- Hno. clear.
    destruct (mayResume state (world p) && _); [|done]. by fields (world p).
  - destruct (resumesInFlight p); [split; [done|]; intros ? ? H; by destruct H|].
    cbn. split; [done|]. intros name Hno Hyes. exfalso. apply Hyes.
    rewrite <- Hno. clear. by fields (world p).
Qed.

Lemma threeLoads_names :
  getSoundNames (runPage threeLoads initialPage) = ["b"; "a"].
Proof. by vm_compute. Qed.

(** ** One [resume()] at a time *)

(** X12. On every reachable page at most one promise of [resume()] is
    in flight, and [#acResuming] is true exactly when one is; there is
    none before the context exists.  Once there is a context, the page
    becoming visible while the context is suspended, or a gesture then
    (with the gesture listeners registered), leaves exactly one
    [resume()] in flight, however many gesture listeners there are and
    whether or not a [resume()] was already in flight; in every other case
    the two listeners call no [resume()].  Once the promise of [resume()]
    has settled, none is in flight and the flag is not true.  When the
    page is hidden the listener calls [suspend()] if the context is
    running, and changes nothing. *)
Theorem one_resume_at_a_time (evs : list Event) :
  resume_guarded (runPage evs initialPage).
Proof.
  pose proof (page_inv_reachable evs) as Hp.
  set (p := runPage evs initialPage) in *.
  pose proof (pageStep_inv EResumeSettled p Hp) as [_ _ _ Hfl' _].
  destruct Hp as [Hw Hkeys Hnd Hfl Hfr]. unfold resume_guarded.
  split; [rewrite Hfl; destruct (truthy _); lia|].
  split.
  { rewrite Hfl. destruct (acResuming (sys (world p))) as [[]|]; cbn;
      split; (done || lia || by intros [=]). }
  split; [intros Hac; by rewrite Hfl, (Hfr Hac)|].
  split.
  { intros state. cbn. rewrite gesture_eval. unfold mayResume. rewrite Hfl.
    destruct (truthy (acResuming (sys (world p))));
      repeat case_bool_decide; cbn; tauto || lia || done. }
  split.
  { intros hidden state. cbn. rewrite visibilitychange_eval. unfold mayResume.
    rewrite Hfl.
    destruct hidden, (truthy (acResuming (sys (world p))));
      repeat case_bool_decide; cbn; done || (exfalso; intuition congruence). }
  assert (∀ state, ac (sys (world p)) ≠ None →
            visibilitychange true state (world p)
            = (Normal (if bool_decide (state = Running)
                       then Some CallSuspend else None), world p)) as Hhide.
  { intros state Hac. rewrite visibilitychange_eval.
    by rewrite bool_decide_eq_true_2. }
  cbn in *. destruct (resumesInFlight p) as [|n] eqn:En.
  - split; [done|]. split; [|done]. intros E. by rewrite E in Hfl.
  - destruct (truthy (acResuming (sys (world p)))); [|done].
    injection Hfl as ->. split; [done|]. split; [|done].
    cbn. clear. by fields (world p).
Qed.

Lemma keyPressed_resumes :
  gestureListeners (runPage keyPressed initialPage) = 2%nat
  ∧ resumesInFlight (runPage keyPressed initialPage) = 1%nat
  ∧ resumesInFlight (runPage (keyPressed ++ [EGesture Suspended;
                                             EVisibilityChange false Suspended])
                       initialPage) = 1%nat
  ∧ resumesInFlight (runPage (keyPressed ++ [EResumeSettled]) initialPage) = 0%nat.
Proof. by vm_compute. Qed.

(** ** The audio graph *)







Lemma taggedSession_routed :
  instObjs (run taggedSession initialWorld) !! 1
  = Some (mkInstance 1 2 (Some (TagString "music")) false 0)
  ∧ (g_outputs <$> gainNodes (run taggedSession initialWorld) !! 2)
    = Some [GainOf 0]
  ∧ (s_outputs <$> sourceNodes (run taggedSession initialWorld) !! 1)
    = Some [GainOf 2].
Proof. by vm_compute. Qed.

(** ** The promise of [asyncLoadSounds] *)

Lemma unsettled_app p ls ls' :
  unsettled p (ls ++ ls') = (unsettled p ls + unsettled p ls')%nat.
Proof. induction ls as [|l ls IH]; cbn; [done|]. rewrite IH. lia. Qed.

Lemma unsettled_other p ls :
  (∀ k l, ls !! k = Some l → l_promise l ≠ p) → unsettled p ls = 0%nat.
Proof.
  induction ls as [|l ls IH]; intros H; cbn; [done|].
  rewrite bool_decide_eq_false_2 by apply (H 0%nat l eq_refl). cbn.
  apply IH. intros k l' Hk. by apply (H (S k)).
Qed.

Lemma unsettled_fresh p (defs : list (string * SoundInfo)) (f : _ → string) :
  unsettled p (map (λ ni, mkSubLoad p ni.1 ni.2 (f ni) false) defs) = length defs.
Proof.
  induction defs as [|d defs IH]; cbn; [done|].
  by rewrite bool_decide_eq_true_2, IH.
Qed.

Lemma unsettled_zero p ls k l :
  unsettled p ls = 0%nat → ls !! k = Some l → l_promise l = p →
  l_settled l = true.
Proof.
  revert k. induction ls as [|l' ls IH]; intros k H0 Hk Hp; [done|].
  cbn in H0. destruct k as [|k]; cbn in Hk.
  - injection Hk as ->. rewrite bool_decide_eq_true_2 in H0 by done.
    destruct (l_settled l); [done|]. cbn in H0. lia.
  - apply (IH k); [lia|done..].
Qed.

Lemma unsettled_pos ls k l :
  ls !! k = Some l → l_settled l = false → (1 ≤ unsettled (l_promise l) ls)%nat.
Proof.
  revert k. induction ls as [|l' ls IH]; intros k Hk Hs; [done|].
  cbn. destruct k as [|k]; cbn in Hk.
  - injection Hk as ->. rewrite bool_decide_eq_true_2, Hs by done. cbn. lia.
  - specialize (IH k Hk Hs). lia.
Qed.

(** Settling a chain takes it out of the count of its promise. *)
Lemma unsettled_insert p ls k l :
  ls !! k = Some l → l_settled l = false →
  (unsettled p
     (<[k := mkSubLoad (l_promise l) (l_name l) (l_info l) (l_url l) true]> ls)
   + (if bool_decide (l_promise l = p) then 1 else 0))%nat
  = unsettled p ls.
Proof.
  revert k. induction ls as [|l' ls IH]; intros k Hk Hs; [done|].
  destruct k as [|k]; cbn in Hk.
  - injection Hk as ->. simpl. rewrite Hs, andb_false_r, andb_true_r. simpl.
    case_bool_decide; lia.
  - simpl. specialize (IH k Hk Hs). lia.
Qed.

Lemma promises_ok_same w w' :
  promises w' = promises w → subLoads w' = subLoads w →
  sounds (sys w') = sounds (sys w) → promises_ok w → promises_ok w'.
Proof.
  intros Hp Hl Hs Hok p st. rewrite Hp. intros Hst. specialize (Hok p st Hst).
  destruct st; unfold promise_ok in *; by rewrite Hl, ?Hs.
Qed.

(** The chains after the [k]-th has settled. *)
Lemma settled_chain (ls : list SubLoad) (k : nat) l (j : nat) l' :
  ls !! k = Some l →
  <[k := mkSubLoad (l_promise l) (l_name l) (l_info l) (l_url l) true]> ls !! j
  = Some l' →
  (j = k ∧ l' = mkSubLoad (l_promise l) (l_name l) (l_info l) (l_url l) true)
  ∨ (j ≠ k ∧ ls !! j = Some l').
Proof.
  intros Hk Hj. destruct (decide (j = k)) as [->|Hne].
  - rewrite list_lookup_insert_eq in Hj by (by apply lookup_lt_Some in Hk).
    left. split; congruence.
  - rewrite list_lookup_insert_ne in Hj by done. by right.
Qed.

Lemma Step_promises_ok w a w' :
  inv w → Step w a w' → promises_ok w → promises_ok w'.
Proof.
  intros Hinv H Hok.
  destruct H
    as [c d Hno|c d _|v a g d n _ _ _ _|v Hno|l now _|l now _
       |k o l st Hk Hs Hst|k o _
       |name v lp tg off fi so cb _
       |name v lp tg off fi so cb sr sound m w0 _ _ _ _ _ _ _ Hw0
       |name v lp tg off fi so cb sr sound w0 _ _ _ _ _ _ Hw0
       |tg fo _|tg fo sel w' _ _ Hrel|s cbr _|i I n c r cbr _ _ _ _ _
       |i I n c r gn S cbr _ _ _ _ _ _ _ _|g v n _ _|g v _|dt];
    try done.
  - apply (promises_ok_same w); try done; unfold contextCreated; by fields w.
  - apply (promises_ok_same w); try done; unfold volumeSet; by fields w.
  - apply (promises_ok_same w); try done; by fields w.
  - (* asyncLoadSounds *)
    assert (promises (loadsStarted l now w)
            = promises w ++ [match l with [] => Fulfilled | _ => Pending (length l) end])
      as Hp by (unfold loadsStarted; by fields w).
    assert (subLoads (loadsStarted l now w)
            = subLoads w ++ map (λ ni, mkSubLoad (length (promises w)) ni.1 ni.2
                                         (url_of now ni.2) false) l)
      as Hl by (unfold loadsStarted; by fields w).
    assert (sounds (sys (loadsStarted l now w)) = sounds (sys w)) as Hsn
      by (unfold loadsStarted; by fields w).
    set (new := map _ l) in Hl.
    assert (∀ j l', new !! j = Some l' →
              l_promise l' = length (promises w) ∧ l_settled l' = false) as Hnew.
    { intros j l' Hj. apply list_lookup_fmap_Some in Hj as (ni & -> & _). done. }
    assert (∀ j l', subLoads w !! j = Some l' → l_promise l' < length (promises w))
      as Hold.
    { intros j l' Hj. by apply (inv_loads w Hinv j). }
    intros p st. rewrite Hp. intros Hst.
    apply lookup_app_Some in Hst as [Hst|[Hge Hst]].
    + pose proof (lookup_lt_Some _ _ _ Hst) as Hplt.
      specialize (Hok p st Hst).
      assert (unsettled p new = 0%nat) as Hz.
      { apply unsettled_other. intros j l' Hj. apply Hnew in Hj as [-> _]. lia. }
      assert (∀ j l', (subLoads w ++ new) !! j = Some l' → l_promise l' = p →
                subLoads w !! j = Some l') as Hback.
      { intros j l' Hj Hpl. apply lookup_app_Some in Hj as [Hj|[_ Hj]]; [done|].
        apply Hnew in Hj as [Hj _]. lia. }
      destruct st as [n| |e]; unfold promise_ok in *; rewrite Hl, ?Hsn.
      * destruct Hok as (Hn & Hpos & Hin). rewrite unsettled_app, Hz.
        split; [lia|]. split; [done|]. intros j l' Hj Hpl.
        apply (Hin j); [by apply Hback|done].
      * intros j l' Hj Hpl. apply (Hok j); [by apply Hback|done].
      * destruct Hok as (j & l' & error & Hj & ? & ? & ?).
        exists j, l', error. split; [|done]. apply lookup_app_Some. by left.
    + destruct (p - length (promises w)) as [|?] eqn:Ep; [|done].
      assert (p = length (promises w)) as -> by lia.
      assert (unsettled (length (promises w)) (subLoads w) = 0%nat) as Hz.
      { apply unsettled_other. intros j l' Hj. apply Hold in Hj. lia. }
      assert (unsettled (length (promises w)) new = length l) as Hc
        by apply unsettled_fresh.
      assert (∀ j l', (subLoads w ++ new) !! j = Some l' →
                l_promise l' = length (promises w) → l_settled l' = false) as Hfresh.
      { intros j l' Hj Hpl. apply lookup_app_Some in Hj as [Hj|[_ Hj]].
        - apply Hold in Hj. lia.
        - by apply Hnew in Hj as [_ Hj]. }
      destruct l as [|d l]; injection Hst as <-; unfold promise_ok; rewrite Hl.
      * intros j l' Hj Hpl. subst new. cbn in Hj. rewrite app_nil_r in Hj.
        apply Hold in Hj. lia.
      * rewrite unsettled_app, Hz, Hc. split; [done|]. split; [cbn; lia|].
        intros j l' Hj Hpl Hset. by rewrite (Hfresh j l' Hj Hpl) in Hset.
  - (* a chain settles *)
    assert (subLoads (settled k l o st w)
            = <[k := mkSubLoad (l_promise l) (l_name l) (l_info l) (l_url l) true]>
                (subLoads w)) as Hl.
    { unfold settled. destruct (fetch_and_decode o); by fields w. }
    pose proof (lookup_lt_Some _ _ _ Hst) as Hplt.
    pose proof (Hok _ _ Hst) as Hokl.
    assert (st ≠ Fulfilled) as Hnf.
    { intros ->. destruct (Hokl k l Hk eq_refl) as [Hx _]. congruence. }
    destruct (fetch_and_decode o) as [error|b] eqn:Ho.
    + destruct (settled_failed k l o error st w Ho) as (Hsys & _).
      assert (promises (settled k l o st w)
              = <[l_promise l := rejectWith (loadError (l_url l) error) st]>
                  (promises w)) as Hp.
      { unfold settled. rewrite Ho. by fields w. }
      intros p st'. rewrite Hp. intros Hst'.
      destruct (decide (p = l_promise l)) as [->|Hne].
      * rewrite list_lookup_insert_eq in Hst' by done. injection Hst' as <-.
        destruct st as [n| |e]; [|done|]; cbn; rewrite Hl.
        -- eexists k, _, error. rewrite list_lookup_insert_eq
             by (by apply lookup_lt_Some in Hk). done.
        -- destruct Hokl as (j & l' & error' & Hj & ? & ? & ?).
           exists j, l', error'. split; [|done].
           rewrite list_lookup_insert_ne; [done|]. intros ->. congruence.
      * rewrite list_lookup_insert_ne in Hst' by done.
        specialize (Hok p st' Hst').
        pose proof (unsettled_insert p _ k l Hk Hs) as Hc.
        rewrite bool_decide_eq_false_2 in Hc by done.
        destruct st' as [n| |e]; unfold promise_ok in *; rewrite Hl, ?Hsys.
        -- destruct Hok as (Hn & Hpos & Hin). split; [lia|]. split; [done|].
           intros j l' Hj Hpl.
           destruct (settled_chain _ k l j l' Hk Hj) as [[_ ->]|[_ Hj']];
             [by cbn in Hpl|].
           by apply (Hin j).
        -- intros j l' Hj Hpl.
           destruct (settled_chain _ k l j l' Hk Hj) as [[_ ->]|[_ Hj']];
             [by cbn in Hpl|].
           by apply (Hok j).
        -- destruct Hok as (j & l' & error' & Hj & ? & ? & ?).
           exists j, l', error'. split; [|done].
           rewrite list_lookup_insert_ne; [done|]. intros ->. congruence.
    + destruct (settled_decoded k l b st w) as (Hsys & _).
      assert (fetch_and_decode o = inr b → settled k l o st w
              = settled k l (Decoded b) st w) as Heq.
      { intros H. unfold settled. by rewrite H. }
      rewrite (Heq Ho) in *. clear Heq.
      assert (promises (settled k l (Decoded b) st w)
              = <[l_promise l := fulfilOne st]> (promises w)) as Hp.
      { unfold settled. cbn. by fields w. }
      assert (∀ name, is_Some (sounds (sys w) !! name) →
                is_Some (sounds (sys (settled k l (Decoded b) st w)) !! name))
        as Hgrow.
      { intros name Hname. rewrite Hsys, sounds_set_sounds.
        apply lookup_insert_is_Some. destruct (decide (l_name l = name)); tauto. }
      assert (is_Some (sounds (sys (settled k l (Decoded b) st w)) !! l_name l))
        as Hnow.
      { rewrite Hsys, sounds_set_sounds, lookup_insert_eq. by eexists. }
      set (w' := settled k l (Decoded b) st w) in *. clearbody w'.
      intros p st'. rewrite Hp. intros Hst'.
      pose proof (unsettled_insert p _ k l Hk Hs) as Hc.
      destruct (decide (p = l_promise l)) as [->|Hne].
      * rewrite list_lookup_insert_eq in Hst' by done. injection Hst' as <-.
        rewrite bool_decide_eq_true_2 in Hc by done.
        destruct st as [n| |e]; [|done|]; cbn.
        -- destruct Hokl as (Hn & Hpos & Hin).
           assert (∀ j l', <[k := mkSubLoad (l_promise l) (l_name l) (l_info l)
                                      (l_url l) true]> (subLoads w) !! j = Some l' →
                     l_promise l' = l_promise l → l_settled l' = true →
                     is_Some (sounds (sys w') !! l_name l')) as Hin'.
           { intros j l' Hj Hpl Hset.
             destruct (settled_chain _ k l j l' Hk Hj) as [[_ ->]|[_ Hj']];
               [done|].
             apply Hgrow. by apply (Hin j). }
           destruct n as [|[|n]]; [lia| |]; cbn; rewrite Hl.
           ++ intros j l' Hj Hpl.
              assert (l_settled l' = true) as Hset.
              { eapply (unsettled_zero (l_promise l) _ j l'); [|exact Hj|done].
                lia. }
              split; [done|]. by apply (Hin' j).
           ++ split; [lia|]. split; [lia|]. done.
        -- destruct Hokl as (j & l' & error' & Hj & ? & ? & ?).
           rewrite Hl. exists j, l', error'. split; [|done].
           rewrite list_lookup_insert_ne; [done|]. intros ->. congruence.
      * rewrite list_lookup_insert_ne in Hst' by done.
        specialize (Hok p st' Hst').
        rewrite bool_decide_eq_false_2 in Hc by done.
        destruct st' as [n| |e]; unfold promise_ok in *; rewrite Hl.
        -- destruct Hok as (Hn & Hpos & Hin). split; [lia|]. split; [done|].
           intros j l' Hj Hpl Hset.
           destruct (settled_chain _ k l j l' Hk Hj) as [[_ ->]|[_ Hj']];
             [by cbn in Hpl|].
           apply Hgrow. by apply (Hin j).
        -- intros j l' Hj Hpl.
           destruct (settled_chain _ k l j l' Hk Hj) as [[_ ->]|[_ Hj']];
             [by cbn in Hpl|].
           destruct (Hok j l' Hj' Hpl) as [? ?]. split; [done|]. by apply Hgrow.
        -- destruct Hok as (j & l' & error' & Hj & ? & ? & ?).
           exists j, l', error'. split; [|done].
           rewrite list_lookup_insert_ne; [done|]. intros ->. congruence.
  - apply (promises_ok_same w0).
    + unfold instanceStarted. by fields w0.
    + unfold instanceStarted. by fields w0.
    + unfold instanceStarted. by fields w0.
    + destruct Hw0 as [[_ ->]|[_ (o & rest & J & sn0 & _ & _ & _ & _ & _ & ->)]];
        [done|].
      apply (promises_ok_same w); try done; unfold evicted; by fields w.
  - apply (promises_ok_same w0).
    + unfold rampRefused. by fields w0.
    + unfold rampRefused. by fields w0.
    + unfold rampRefused. by fields w0.
    + destruct Hw0 as [[_ ->]|[_ (o & rest & J & sn0 & _ & _ & _ & _ & _ & ->)]];
        [done|].
      apply (promises_ok_same w); try done; unfold evicted; by fields w.
  - apply (promises_ok_same w); try done.
    + apply (sr_promises _ _ _ _ _ Hrel).
    + apply (sr_subLoads _ _ _ _ _ Hrel).
    + by rewrite (sr_sys _ _ _ _ _ Hrel).
  - apply (promises_ok_same w); try done; unfold fired; by fields w.
  - apply (promises_ok_same w); try done; unfold finished; by fields w.
  - apply (promises_ok_same w); try done; unfold automated; by fields w.
  - destruct (Qgtb dt 0); [|done]. apply (promises_ok_same w); try done; by fields w.
Qed.

Lemma step_promises_ok a w : inv w → promises_ok w → promises_ok (step a w).
Proof.
  intros Hinv Hok. apply (step_preserves promises_ok (λ _, True)); try done.
  intros w1 b w2 Hinv1 _ H. by apply (Step_promises_ok w1 b).
Qed.

Lemma promises_ok_reachable acts : promises_ok (run acts initialWorld).
Proof.
  induction acts as [|a acts IH] using rev_ind.
  - intros p st Hp. done.
  - rewrite run_app. cbn. apply step_promises_ok; [apply inv_reachable|done].
Qed.

(** X14. In every reachable world, the promise that [asyncLoadSounds]
    has returned is fulfilled only when every chain of the call has
    settled and stored its sound: [getSoundBuffer] then returns a buffer
    for every name of the call.  A promise that is pending has a chain
    that has not settled, so no promise stays pending once all its chains
    have settled; and a promise is rejected only with the load error of
    one of its own chains, which names the URL of that chain. *)
Theorem fulfilled_means_all_loaded (acts : list Action) (p : Ref) :
  promise_outcome (run acts initialWorld) p.
Proof.
  pose proof (inv_reachable acts) as Hinv.
  pose proof (promises_ok_reachable acts) as Hok.
  set (w := run acts initialWorld) in *. unfold promise_outcome.
  split; [|split].
  - intros Hp k l Hk Hpl. destruct (Hok p _ Hp k l Hk Hpl) as [Hs [sr Hsr]].
    split; [done|]. rewrite getSoundBuffer_eval, Hsr.
    destruct (lookup_lt_is_Some_2 (soundObjs w) sr) as [sound ->].
    { by apply (inv_table w Hinv (l_name l)). }
    by eexists.
  - intros n Hp. destruct (Hok p _ Hp) as (Hn & Hpos & _).
    assert (∀ ls, (1 ≤ unsettled p ls)%nat →
              ∃ k l, ls !! k = Some l ∧ l_promise l = p ∧ l_settled l = false)
      as Hex.
    { clear. induction ls as [|l ls IH]; cbn; [lia|]. intros H.
      destruct (bool_decide (l_promise l = p) && negb (l_settled l)) eqn:E.
      - apply andb_prop in E as [E1 E2]. apply bool_decide_eq_true in E1.
        apply negb_true_iff in E2. by exists 0%nat, l.
      - destruct IH as (k & l' & ? & ? & ?); [cbn in H; lia|].
        by exists (S k), l'. }
    apply Hex. lia.
  - intros e Hp. apply (Hok p _ Hp).
Qed.

Lemma partialLoad_promise :
  promises (run [ACreateAudioContext None None;
                 ALoadSounds [("a", mkSoundInfo "a.wav" 1 1);
                              ("b", mkSoundInfo "b.wav" 1 1)] "";
                 ASettle 1 (Decoded clickBuffer)] initialWorld) !! 0
  = Some (Pending 1)
  ∧ promises (run [ACreateAudioContext None None;
                   ALoadSounds [("a", mkSoundInfo "a.wav" 1 1);
                                ("b", mkSoundInfo "b.wav" 1 1)] "";
                   ASettle 1 (Decoded clickBuffer);
                   ASettle 0 (Decoded clickBuffer)] initialWorld) !! 0
    = Some Fulfilled
  ∧ promises (run [ACreateAudioContext None None; ALoadSounds [] ""]
                initialWorld) !! 0
    = Some Fulfilled.
Proof. by vm_compute. Qed.

(** ** Evictions in a row *)

Lemma set_s_stopCalls_twice c c' sn :
  set_s_stopCalls c (set_s_stopCalls c' sn) = set_s_stopCalls c sn.
Proof. done. Qed.





(** ** What [setGlobalVolume] leaves alone *)

(** X16. In every reachable world, with or without a context,
    [setGlobalVolume] touches no instance: the instance records, the
    source nodes, the sound objects, the sound table, both kinds of
    instance list and the clock stay as they are, and so does the gain
    node of every instance, with its value and the fades scheduled on it.
    The call makes no node, and it leaves the events scheduled on the
    master gain as they are. *)
Theorem setGlobalVolume_leaves_instances (acts : list Action) (v : Q) :
  volume_frame v (run acts initialWorld).
Proof.
  pose proof (inv_reachable acts) as Hinv.
  set (w := run acts initialWorld) in *. unfold volume_frame.
  destruct (ac (sys w)) as [a|] eqn:Hac.
  - destruct (inv_master w Hinv) as (g & d & n & Hg & Hd & Hn & _ & _ & Hc & Ho);
      [congruence|].
    rewrite (setGlobalVolume_eval _ _ a g d n) by done. cbn [snd].
    assert (g < length (gainNodes w))%nat as Hlt by (by apply lookup_lt_Some in Hn).
    assert (∀ i I, instObjs w !! i = Some I → gain I ≠ g) as Hne.
    { intros i I HI Heq. destruct (inv_inst w Hinv i I HI) as (_ & _ & Hm & _).
      congruence. }
    unfold volumeSet. clearbody w. clear Hinv Hc Ho.
    destruct w as [[] ? ? ? ? ? ? ? ? ?]; cbn in *.
    rewrite length_insert.
    repeat (split; [done|]). split.
    + intros i I HI. rewrite list_lookup_insert_ne; [done|].
      intros Heq. by apply (Hne i I HI).
    + intros m n' Hm Hn'. assert (m = g) as -> by congruence.
      rewrite list_lookup_insert_eq by done. cbn. congruence.
  - rewrite setGlobalVolume_no_context by done. cbn [snd].
    destruct (run_untouched acts Hac) as (_ & Hm & _). fold w in Hm.
    clearbody w. clear Hinv. destruct w as [[] ? ? ? ? ? ? ? ? ?]; cbn in *.
    repeat (split; [done|]). intros m n Hmm. congruence.
Qed.

(** ** What [isTagPlaying] counts *)


(** ** What [play] and the end handler leave alone *)

Lemma beforeStart_sources sound w w0 s n sr name :
  beforeStart sound w w0 → sounds (sys w) !! name = Some sr →
  soundObjs w !! sr = Some sound → sourceNodes w !! s = Some n →
  sourceNodes w0 !! s = Some n
  ∨ ((∃ rest, full sound = true ∧ instances sound = s :: rest)
     ∧ sourceNodes w0 !! s = Some (set_s_stopCalls (s_stopCalls n ++ [None]) n)).
Proof.
  intros [[_ ->]|[Hf (o & rest & I & sn & Hl & HI & Hs & Hsn & _ & ->)]]
    Hn Hsr Hsrc; [by left|].
  assert (o < length (sourceNodes w))%nat by (by apply lookup_lt_Some in Hsn).
  destruct (decide (s = o)) as [->|Hne].
  - right. split; [by exists rest|]. assert (n = sn) as -> by congruence.
    unfold evicted. clear -H. fields w. by rewrite list_lookup_insert_eq.
  - left. unfold evicted. clear -Hsrc Hne. fields w.
    by rewrite list_lookup_insert_ne.
Qed.

(** X18. In every reachable world, a call to [play], whatever it
    returns or throws, leaves the sound table, the global volume, the
    pending loads, the clock and the record of every existing instance as
    they are (no stopping flag is set), and it changes no existing gain
    node.  The only existing source node it can change is the one of the
    first instance of the sound that is played, when that sound is full
    and [stopOldestIfMax] is true: that source gets a [stop()].  The sound
    objects that the name does not designate keep their instance lists. *)
Theorem play_touches_only_its_sound (acts : list Action) (name : string)
    (volume0 : Q) (loop : bool) (tag0 : option Tag) (offset fadeInSeconds : Q)
    (stopOldestIfMax : bool) (endedCallback : option nat) :
  play_frame name volume0 loop tag0 offset fadeInSeconds stopOldestIfMax
    endedCallback (run acts initialWorld).
Proof.
  pose proof (inv_reachable acts) as Hinv.
  set (w := run acts initialWorld) in *. clearbody w. unfold play_frame.
  destruct (play_cases name volume0 loop tag0 offset fadeInSeconds
              stopOldestIfMax endedCallback w Hinv)
    as [[Hw _]|(sr & sound & w0 & Hn & Hsr & _ & Hso & _ & Hw0 & Hw')].
  { cbn zeta in *. rewrite Hw.
    repeat (split; [done|]). split; [intros; by left|done]. }
  destruct (beforeStart_same sound w w0 Hw0)
    as (Hsys & Hsobj & Hio & Hgn & Hct & Hlen & Hcl & Hfl).
  assert (promises w0 = promises w ∧ subLoads w0 = subLoads w) as [Hpr Hsl].
  { destruct Hw0 as [[_ ->]|[_ (o & rest & I & sn & _ & _ & _ & _ & _ & ->)]];
      [done|]. unfold evicted. by fields w. }
  assert (∀ s n, sourceNodes w !! s = Some n →
    sourceNodes w0 !! s = Some n
    ∨ (stopOldestIfMax = true
       ∧ (∃ sr sound rest, sounds (sys w) !! name = Some sr
            ∧ soundObjs w !! sr = Some sound ∧ full sound = true
            ∧ instances sound = s :: rest)
       ∧ sourceNodes w0 !! s
         = Some (set_s_stopCalls (s_stopCalls n ++ [None]) n))) as Hsrc.
  { intros s n Hs.
    destruct (beforeStart_sources sound w w0 s n sr name Hw0 Hn Hsr Hs)
      as [?|[(rest & Hf & Hl) ?]]; [by left|].
    right. split; [by apply Hso|]. split; [|done]. by exists sr, sound, rest. }
  assert (sr < length (soundObjs w0))%nat as Hsrlt.
  { rewrite Hsobj. by apply lookup_lt_Some in Hsr. }
  rewrite <- Hsys, <- Hsobj in Hsrc. cbn zeta in *.
  destruct Hw' as [[_ ->]|(_ & m & Hm & ->)]; cbn [snd].
  - unfold rampRefused.
    rewrite <- Hsys, <- Hpr, <- Hsl, <- Hct, <- Hcl, <- Hfl, <- Hio, <- Hgn, <- Hsobj.
    clear -Hsrc. destruct w0 as [[] ? ? ? ? ? ? ? ? ?]; cbn in *.
    repeat (split; [done|]).
    split; [intros g n Hg; rewrite lookup_app_l;
            [done|by apply lookup_lt_Some in Hg]|].
    split; [done|]. done.
  - unfold instanceStarted.
    rewrite <- Hsys, <- Hpr, <- Hsl, <- Hct, <- Hcl, <- Hfl, <- Hio, <- Hgn,
      <- Hsobj in *.
    assert (∀ s n, sourceNodes w !! s = Some n → s < length (sourceNodes w0))%nat
      as Hslt.
    { intros s n Hs. rewrite Hlen. by apply lookup_lt_Some in Hs. }
    clear -Hsrc Hslt Hn Hsrlt. destruct w0 as [[] ? ? ? ? ? ? ? ? ?]; cbn in *.
    repeat (split; [done|]).
    split; [intros i I HI; rewrite lookup_app_l;
            [done|by apply lookup_lt_Some in HI]|].
    split; [intros g n Hg; rewrite lookup_app_l;
            [done|by apply lookup_lt_Some in Hg]|].
    split.
    + intros s n Hs. rewrite lookup_app_l by (by apply (Hslt s n)).
      by apply Hsrc.
    + intros r S HS Hne. rewrite list_lookup_insert_ne; [done|]. congruence.
Qed.




Lemma throwingCallback_keeps_instance :
  dispatchEnded 0
    (mkCallbackRun [] (Some (Error "callback failed")))
    (run (removelast throwingCallback) initialWorld)
  = (Throw (Error "callback failed"), run throwingCallback initialWorld)
  ∧ soundInstances (sys (run throwingCallback initialWorld)) = [0]
  ∧ (g_outputs <$> gainNodes (run throwingCallback initialWorld) !! 1)
    = Some [GainOf 0].
Proof. by vm_compute. Qed.


